(** * Rider scheduling: the linear-program builder and its algebraic layer

    A shallow embedding of [lp.ts] (namespace [lp]) and [scheduling.ts]
    (namespace [scheduling]).

    Modelling conventions.
    - A JavaScript [number] is a finite double, written as the rational
      ([Q]) it is; [NaN] and the infinities are outside the model.  The
      comparisons, the negation and the absolute value of numbers are
      exact; the sum [a + b] is the exact sum rounded to the nearest
      double, ties to even ([jsPlus]).  The counters of the loops (the
      indices and the count [timeCoefficient] of the candidates) are
      integers below 2^53, where adding 1 is exact.  An absent optional
      number ([undefined]) is [None].
    - A [throw] is the [Err] case of [result]; [Error msg] carries the
      optional message handed to [new Error], [TypeError] is what the
      runtime raises on a member access through [undefined].
    - Object identity ([===] on variable instances) is the [ref] field of
      a variable: every [new] of a variable takes the next reference.
    - An object used as a string-keyed table is the association list of
      its own entries, in the order [Object.keys] lists them.  The object
      is a plain one: under a key it does not own it reads the member of
      [Object.prototype] of that name, if there is one ([inherited]).
      The two tables [keys] and [values] of a [LinExpr] are written
      together, at the same key [v.name], by [setCoefficient] only; they
      are kept as one ordered table of (variable, coefficient) entries
      keyed by the variable name.  A new key is listed last: this is the
      order of [Object.keys] for every key that is not written with
      digits only, as the names [makeLP] generates are not.
    - The external solver and the number-to-text conversion of the
      runtime are parameters of the sections that use them. *)

From Stdlib Require Import List String Ascii Bool Arith ZArith QArith Qabs Lia.
From Stdlib Require Import Qround.
From Stdlib Require Import DecimalString DecimalNat.
Import ListNotations.

Local Open Scope string_scope.
Local Open Scope list_scope.
Local Open Scope nat_scope.

(** Text concatenation, as in a template literal. *)
Infix "+++" := String.append (right associativity, at level 60).

(** ** Exceptions and sequencing *)

Inductive exn : Type :=
| Error (msg : option string)
| TypeError.

Inductive result (A : Type) : Type :=
| Ok (a : A)
| Err (e : exn).

Arguments Ok {A} a.
Arguments Err {A} e.

Definition bind {A B : Type} (m : result A) (k : A -> result B) : result B :=
  match m with
  | Ok a => k a
  | Err e => Err e
  end.

Notation "x <- m ;; k" := (bind m (fun x => k))
  (at level 61, m at next level, right associativity).

(** A [for ... of] loop over [l] that threads the state [s] and stops at
    the first exception. *)
Fixpoint foldM {A S : Type} (f : S -> A -> result S) (l : list A) (s : S)
  : result S :=
  match l with
  | [] => Ok s
  | x :: l' => s' <- f s x ;; foldM f l' s'
  end.

(** [Array.prototype.map] with the index handed to the callback. *)
Fixpoint mapi_from {A B : Type} (i : nat) (f : A -> nat -> B) (l : list A)
  : list B :=
  match l with
  | [] => []
  | x :: l' => f x i :: mapi_from (S i) f l'
  end.

Definition mapi {A B : Type} (f : A -> nat -> B) (l : list A) : list B :=
  mapi_from 0 f l.

(** Template-literal rendering of an array index. *)
Definition show_nat (n : nat) : string :=
  NilEmpty.string_of_uint (Nat.to_uint n).

Definition Qltb (a b : Q) : bool := negb (Qle_bool b a).

(** JavaScript truthiness of a number (no [NaN] in the model). *)
Definition truthy (n : Q) : bool := negb (Qeq_bool n 0).

(** A count as a number. *)
Definition Qnat (k : nat) : Q := inject_Z (Z.of_nat k).

(** *** The sum of two numbers *)

Definition pow2 (e : Z) : Q :=
  match e with
  | Zneg p => 1 # (2 ^ p)
  | _ => inject_Z (2 ^ e)
  end.

(** The exponent of the leading bit of a nonzero [x]: the [k] with
    [2^k <= |x| < 2^(k+1)]. *)
Definition ilog2 (x : Q) : Z :=
  let k := (Z.log2 (Z.abs (Qnum x)) - Z.log2 (Zpos (Qden x)))%Z in
  if Qle_bool (pow2 k) (Qabs x) then k else (k - 1)%Z.

(** The nearest integer, a tie going to the even one. *)
Definition roundHalfEven (x : Q) : Z :=
  let f := Qfloor x in
  match (x - inject_Z f ?= 1 # 2)%Q with
  | Lt => f
  | Gt => (f + 1)%Z
  | Eq => if Z.even f then f else (f + 1)%Z
  end.

(** The double nearest to [x]: 53 significant bits, the last of them of
    weight at least 2^-1074, a tie going to the even significand. *)
Definition double (x : Q) : Q :=
  if Qeq_bool x 0 then 0%Q
  else let e := Z.max (ilog2 x - 52) (-1074) in
       Qred (inject_Z (roundHalfEven (x / pow2 e)) * pow2 e).

(** [a + b] on numbers. *)
Definition jsPlus (a b : Q) : Q := double (a + b).

Arguments double : simpl never.
Arguments jsPlus : simpl never.

(** *** Plain objects *)

(** The names of the members of [Object.prototype]: what a plain object
    reads under them when it has no entry of its own is a function, or
    the prototype itself under [__proto__]. *)
Definition objectPrototype : list string :=
  ["constructor"; "hasOwnProperty"; "isPrototypeOf"; "propertyIsEnumerable";
   "toLocaleString"; "toString"; "valueOf"; "__proto__";
   "__defineGetter__"; "__defineSetter__";
   "__lookupGetter__"; "__lookupSetter__"].

Definition inherited (n : string) : bool :=
  existsb (String.eqb n) objectPrototype.

Arguments inherited : simpl never.

(** Decimal digits, to tell the indices inside a name from its
    punctuation. *)
Definition is_digit (c : ascii) : bool :=
  (48 <=? nat_of_ascii c) && (nat_of_ascii c <=? 57).

Fixpoint all_digits (s : string) : bool :=
  match s with
  | EmptyString => true
  | String c rest => is_digit c && all_digits rest
  end.

(** ** Namespace [lp] *)

Module lp.

Inductive VarType : Type := continuous | integer.

Record Var (T : Type) : Type := mkVar {
  ref : nat;
  type : VarType;
  name : string;
  lowerBound : option Q;
  upperBound : option Q;
  auxData : option T
}.

Arguments mkVar {T}.
Arguments ref {T}.
Arguments type {T}.
Arguments name {T}.
Arguments lowerBound {T}.
Arguments upperBound {T}.
Arguments auxData {T}.

Definition LinExpr (T : Type) : Type := list (Var T * Q).

Record Constraint (T : Type) : Type := mkConstraint {
  cname : string;
  clowerBound : option Q;
  cupperBound : option Q;
  terms : LinExpr T
}.

Arguments mkConstraint {T}.
Arguments cname {T}.
Arguments clowerBound {T}.
Arguments cupperBound {T}.
Arguments terms {T}.

Section Algebra.
Context {T : Type}.

(** [new RealVar(name, lower, upper)], [new IntVar(...)], [new BoolVar(name)]
    at reference [r]. *)
Definition RealVar (r : nat) (n : string) (lo hi : option Q) : Var T :=
  mkVar r continuous n lo hi None.

Definition IntVar (r : nat) (n : string) (lo hi : option Q) : Var T :=
  mkVar r integer n lo hi None.

Definition BoolVar (r : nat) (n : string) : Var T :=
  IntVar r n (Some 0%Q) (Some 1%Q).

(** [v.auxData = a]. *)
Definition withAuxData (v : Var T) (a : T) : Var T :=
  mkVar (ref v) (type v) (name v) (lowerBound v) (upperBound v) (Some a).

(** [new Constraint(name, lower, upper)]. *)
Definition newConstraint (n : string) (lo hi : option Q) : Constraint T :=
  mkConstraint n lo hi [].

(** The entry [(this.keys[n], this.values[n])], if [n] is a key of the
    expression's own. *)
Definition entry (this : LinExpr T) (n : string) : option (Var T * Q) :=
  find (fun e => String.eqb (name (fst e)) n) this.

Definition sameInstance (v w : Var T) : bool := ref v =? ref w.

Definition mismatch (n : string) : exn :=
  Error (Some ("Mismatching variable named " +++ n)).

(** [this.keys[v.name] && this.keys[v.name] !== v]: without an entry of
    its own [this.keys[v.name]] is [undefined], unless the name is one
    of [Object.prototype], whose member is truthy and is not [v]. *)
Definition checkVar (this : LinExpr T) (v : Var T) : result unit :=
  match entry this (name v) with
  | Some (w, _) => if sameInstance w v then Ok tt else Err (mismatch (name v))
  | None => if inherited (name v) then Err (mismatch (name v)) else Ok tt
  end.

(** [this.keys[v.name] = v; this.values[v.name] = n]: an existing key keeps
    its position, a new key goes last. *)
Fixpoint store (this : LinExpr T) (v : Var T) (n : Q) : LinExpr T :=
  match this with
  | [] => [(v, n)]
  | (w, c) :: rest =>
      if String.eqb (name w) (name v) then (v, n) :: rest
      else (w, c) :: store rest v n
  end.

(** [setCoefficient] as a step on the receiver: the outcome and the
    receiver after the call. *)
Definition setCoefficient (v : Var T) (n : Q) (this : LinExpr T)
  : result unit * LinExpr T :=
  match checkVar this v with
  | Err e => (Err e, this)
  | Ok _ => (Ok tt, store this v n)
  end.

Definition getCoefficient (v : Var T) (this : LinExpr T) : result (option Q) :=
  _ <- checkVar this v ;;
  Ok (option_map snd (entry this (name v))).

Definition getVarCoefficients (this : LinExpr T) : list (Var T * Q) := this.

(** The receiver after a call that returned, the exception otherwise. *)
Definition set (this : LinExpr T) (v : Var T) (n : Q) : result (LinExpr T) :=
  match setCoefficient v n this with
  | (Ok _, this') => Ok this'
  | (Err e, _) => Err e
  end.

Definition setC (c : Constraint T) (v : Var T) (n : Q)
  : result (Constraint T) :=
  e <- set (terms c) v n ;;
  Ok (mkConstraint (cname c) (clowerBound c) (cupperBound c) e).

(** Views of an expression used to state its properties. *)
Definition names (this : LinExpr T) : list string :=
  map (fun e => name (fst e)) this.

Definition vars (this : LinExpr T) : list (Var T) := map fst this.

Definition isReal (v : Var T) : bool :=
  match type v with continuous => true | integer => false end.

Definition is_number (o : option Q) (n : Q) : bool :=
  match o with
  | Some x => Qeq_bool x n
  | None => false
  end.

Definition isBool (v : Var T) : bool :=
  negb (isReal v) && is_number (lowerBound v) 0 && is_number (upperBound v) 1.

Definition isInt (v : Var T) : bool := negb (isReal v) && negb (isBool v).

Definition toConstraint (v : Var T) : result (Constraint T) :=
  let r := newConstraint ("c[" +++ name v +++ "]") (lowerBound v) (upperBound v) in
  setC r v 1.

(** A [for ... of] loop over the terms [l] that calls [setCoefficient] on
    [acc] for each, with the coefficient [g] computes from the term. *)
Definition setEach (g : Var T * Q -> Q) (l : list (Var T * Q))
  (acc : LinExpr T) : result (LinExpr T) :=
  foldM (fun acc e => set acc (fst e) (g e)) l acc.

Definition saturate (objective : LinExpr T) (constraints : list (Constraint T))
  : result (LinExpr T) :=
  newObjective <-
    foldM (fun acc constraint =>
             setEach (fun _ => 0%Q) (getVarCoefficients (terms constraint)) acc)
          constraints [] ;;
  setEach snd (getVarCoefficients objective) newObjective.

(** [v] is a variable of the objective or of one of the constraints. *)
Definition occursIn (objective : LinExpr T) (constraints : list (Constraint T))
  (v : Var T) : Prop :=
  In v (vars objective)
  \/ exists c, In c constraints /\ In v (vars (terms c)).

(** No two distinct instances share a name within the model. *)
Definition oneInstancePerName (objective : LinExpr T)
  (constraints : list (Constraint T)) : Prop :=
  forall v w, occursIn objective constraints v ->
              occursIn objective constraints w ->
              name v = name w -> ref v = ref w.

(** No variable of the model carries a name of [Object.prototype]. *)
Definition noInheritedName (objective : LinExpr T)
  (constraints : list (Constraint T)) : Prop :=
  forall v, occursIn objective constraints v -> inherited (name v) = false.

(** *** The solver engine *)

Record EngineVar : Type := mkEngineVar {
  ev_name : string;
  ev_lower : option Q;   (* [None]: -Infinity *)
  ev_upper : option Q;   (* [None]: +Infinity *)
  ev_type : VarType;
  ev_objective : Q
}.

Record EngineConstraint : Type := mkEngineConstraint {
  ec_lower : option Q;
  ec_upper : option Q;
  ec_coefficients : list (string * Q)
}.

Definition engineVars (newObjective : LinExpr T) : list EngineVar :=
  map (fun e => mkEngineVar (name (fst e)) (lowerBound (fst e))
                            (upperBound (fst e)) (type (fst e)) (snd e))
      (getVarCoefficients newObjective).

Definition engineConstraints (constraints : list (Constraint T))
  : list EngineConstraint :=
  map (fun c => mkEngineConstraint (clowerBound c) (cupperBound c)
                  (map (fun e => (name (fst e), snd e))
                       (getVarCoefficients (terms c))))
      constraints.

Section Solver.

(** [engine.solve(5 * 60)]: [None] when [solution.isValid()] is false,
    otherwise [solution.getVariableValue]. *)
Variable engine_solve :
  list EngineVar -> list EngineConstraint -> option (string -> Q).

Definition minimize (objective : LinExpr T) (constraints : list (Constraint T))
  : result (option (LinExpr T)) :=
  newObjective <- saturate objective constraints ;;
  match engine_solve (engineVars newObjective)
                     (engineConstraints constraints) with
  | None => Ok None
  | Some getVariableValue =>
      r <- setEach (fun e => getVariableValue (name (fst e)))
                   (getVarCoefficients newObjective) [] ;;
      Ok (Some r)
  end.

End Solver.

(** *** Text export *)

Section TextExport.

(** The runtime's conversion of a number to text. *)
Variable show : Q -> string.

Definition termToString (e : Var T * Q) (i : nat) : string :=
  let join := if i =? 0 then "" else "+ " in
  let sign := if Qltb (snd e) 0 then "- " else join in
  let abs := Qabs (snd e) in
  let coeff := if Qeq_bool abs 1 then "" else show abs +++ " " in
  sign +++ coeff +++ name (fst e).

Definition toString (this : LinExpr T) : string :=
  String.concat " " (mapi termToString (getVarCoefficients this)).

Definition constraintToString (c : Constraint T) : string :=
  let r := toString (terms c) in
  let r := match clowerBound c with
           | Some lo => show lo +++ " <= " +++ r
           | None => r
           end in
  match cupperBound c with
  | Some hi => r +++ " <= " +++ show hi
  | None => r
  end.

Definition toLP (c : Constraint T) : string :=
  if String.eqb (cname c) "" then constraintToString c
  else cname c +++ ": " +++ constraintToString c.

Definition newline : string := String (ascii_of_nat 10) "".

Definition isSome {A : Type} (o : option A) : bool :=
  match o with Some _ => true | None => false end.

Definition exportAsLP (objective : LinExpr T) (constraints : list (Constraint T))
  : result string :=
  newObjective <- saturate objective constraints ;;
  let vars := map fst (getVarCoefficients newObjective) in
  let binVars := filter isBool vars in
  let intVars := filter isInt vars in
  let constrainedVars :=
    filter (fun v => isSome (lowerBound v) || isSome (upperBound v))
           (filter (fun v => negb (isBool v)) vars) in
  bounds <- foldM (fun acc v => c <- toConstraint v ;; Ok (acc ++ [c]))
                  constrainedVars [] ;;
  let c := bounds ++ constraints in
  let footer := "" in
  let footer :=
    if negb (List.length binVars =? 0)
    then footer +++ "bin " +++ String.concat ", " (map name binVars) +++ ";" +++ newline
    else footer in
  let footer :=
    if negb (List.length intVars =? 0)
    then footer +++ "int " +++ String.concat ", " (map name intVars) +++ ";" +++ newline
    else footer in
  Ok ("minimize: " +++ toString objective +++ ";" +++ newline
      +++ String.concat "" (map (fun c => toLP c +++ ";" +++ newline) c)
      +++ newline +++ footer).

(** *** The LP text format, as the interface describes it

    The relations below follow the description of the format, not the
    code: [exportAsLP] is compared with them. *)

(** One rendered term.  The flag tells whether the term is the first of
    its expression. *)
Inductive term_text : bool -> Var T * Q -> string -> Prop :=
| term_one_first v c :
    (c == 1)%Q -> term_text true (v, c) (name v)
| term_one_next v c :
    (c == 1)%Q -> term_text false (v, c) ("+ " +++ name v)
| term_minus_one first v c :
    (c == - (1))%Q -> term_text first (v, c) ("- " +++ name v)
| term_positive_first v c :
    (0 <= c)%Q -> ~ (c == 1)%Q ->
    term_text true (v, c) (show (Qabs c) +++ " " +++ name v)
| term_positive_next v c :
    (0 <= c)%Q -> ~ (c == 1)%Q ->
    term_text false (v, c) ("+ " +++ show (Qabs c) +++ " " +++ name v)
| term_negative first v c :
    (c < 0)%Q -> ~ (c == - (1))%Q ->
    term_text first (v, c) ("- " +++ show (Qabs c) +++ " " +++ name v).

(** The terms of an expression, successive terms one space apart. *)
Inductive terms_text : bool -> list (Var T * Q) -> string -> Prop :=
| terms_none first : terms_text first [] ""
| terms_last first x s :
    term_text first x s -> terms_text first [x] s
| terms_more first x y rest s r :
    term_text first x s -> terms_text false (y :: rest) r ->
    terms_text first (x :: y :: rest) (s +++ " " +++ r).

(** [<name>: [<lower> <=] <terms> [<= <upper>];] and the end of line; a
    constraint with the empty name has no [<name>: ]. *)
Definition constraint_line (c : Constraint T) (s : string) : Prop :=
  exists t,
    terms_text true (terms c) t
    /\ s = (if String.eqb (cname c) "" then "" else cname c +++ ": ")
           +++ match clowerBound c with
               | Some lo => show lo +++ " <= "
               | None => ""
               end
           +++ t
           +++ match cupperBound c with
               | Some hi => " <= " +++ show hi
               | None => ""
               end
           +++ ";" +++ newline.

(** [bin <names>;] or [int <names>;], absent when there is no such
    variable. *)
Definition declaration (keyword : string) (vs : list (Var T)) : string :=
  match vs with
  | [] => ""
  | _ => keyword +++ " " +++ String.concat ", " (map name vs) +++ ";" +++ newline
  end.

(** The bound [lower <= v <= upper] of a variable as a constraint. *)
Definition boundOf (v : Var T) : Constraint T :=
  mkConstraint ("c[" +++ name v +++ "]") (lowerBound v) (upperBound v)
               [(v, 1%Q)].

Definition bounded (v : Var T) : bool :=
  negb (isBool v) && (isSome (lowerBound v) || isSome (upperBound v)).

(** An expression rendered with a sign or joiner in front of its first
    term. *)
Definition leading_token (s : string) : bool :=
  String.prefix "+ " s || String.prefix "- " s.

End TextExport.
End Algebra.

(** A registry: a list of variables in which a name decides the
    instance. *)
Definition registry {T : Type} (G : list (Var T)) : Prop :=
  forall w w' : Var T, In w G -> In w' G -> name w = name w' -> w = w'.

(** Two terms of the same name and the same instance. *)
Definition alike {T : Type} (x a : Var T * Q) : Prop :=
  name (fst x) = name (fst a) /\ ref (fst x) = ref (fst a).

(** *** The meaning of a model *)

(** What an assignment of values to the variable names makes of the
    model. *)
Definition evaluate {T : Type} (value : string -> Q) (e : LinExpr T) : Q :=
  fold_right (fun x acc => (snd x * value (name (fst x)) + acc)%Q) 0%Q e.

Definition aboveLower (lo : option Q) (x : Q) : Prop :=
  match lo with Some l => (l <= x)%Q | None => True end.

Definition belowUpper (hi : option Q) (x : Q) : Prop :=
  match hi with Some h => (x <= h)%Q | None => True end.

Definition holds {T : Type} (value : string -> Q) (c : Constraint T) : Prop :=
  aboveLower (clowerBound c) (evaluate value (terms c))
  /\ belowUpper (cupperBound c) (evaluate value (terms c)).

Definition inDomain {T : Type} (value : string -> Q) (v : Var T) : Prop :=
  aboveLower (lowerBound v) (value (name v))
  /\ belowUpper (upperBound v) (value (name v))
  /\ (type v = integer -> exists z : Z, (value (name v) == inject_Z z)%Q).

(** *** Worked instances *)

Definition clashObjective : LinExpr unit := [].
Definition clashConstraints : list (Constraint unit) :=
  [mkConstraint "c1" None None [(RealVar 0 "x" None None, 1%Q)];
   mkConstraint "c2" None None [(RealVar 1 "x" None None, 1%Q)]].

(** A variable named as a member of [Object.prototype]. *)
Definition constructorVar : Var unit := RealVar 0 "constructor" None None.

Definition sharedX : Var unit := RealVar 0 "x" (Some 0%Q) None.
Definition sharedY : Var unit := BoolVar 1 "y".

Definition sharedZ : Var unit := IntVar 2 "z" None None.

Definition smallObjective : LinExpr unit := [(sharedX, (- (1))%Q); (sharedY, 1%Q)].
Definition smallConstraints : list (Constraint unit) :=
  [mkConstraint "c1" None (Some 4%Q) [(sharedY, 2%Q); (sharedX, 1%Q)]].

(** Constraints with a variable, [z], that the objective does not have. *)
Definition spareConstraints : list (Constraint unit) :=
  [mkConstraint "c1" None (Some 4%Q) [(sharedY, 2%Q); (sharedX, 1%Q)];
   mkConstraint "c2" (Some 1%Q) None [(sharedZ, 3%Q)]].

End lp.

(** ** Namespace [scheduling] *)

Module scheduling.
Import lp.

Record AuxData : Type := mkAuxData { rider : nat; t1 : nat; t2 : nat }.

Definition assert (condition : bool) (msg : option string) : result unit :=
  if condition then Ok tt else Err (Error msg).

(** [append(dest, source)]: push the entries of [source] that are truthy;
    [truthyA] tells which values of [A] are. *)
Fixpoint append {A : Type} (truthyA : A -> bool) (dest : list A)
  (source : list (option A)) : list A :=
  match source with
  | [] => dest
  | Some x :: rest =>
      if truthyA x then append truthyA (dest ++ [x]) rest
      else append truthyA dest rest
  | None :: rest => append truthyA dest rest
  end.

(** An object is truthy. *)
Definition anObject {A : Type} (_ : A) : bool := true.

(** The entry of the object's own under [key], and [r[key] = x]. *)
Definition lookup {V : Type} (r : list (string * V)) (key : string)
  : option V :=
  option_map snd (find (fun e => String.eqb (fst e) key) r).

Fixpoint assign {V : Type} (r : list (string * V)) (key : string) (x : V)
  : list (string * V) :=
  match r with
  | [] => [(key, x)]
  | (k, y) :: rest =>
      if String.eqb k key then (key, x) :: rest
      else (k, y) :: assign rest key x
  end.

Definition makeRecord {V : Type} (keys : list string) (f : string -> V)
  : list (string * V) :=
  fold_left (fun r key => assign r key (f key)) keys [].

(** [arr[i] = x] for [i] inside the array. *)
Fixpoint replace {A : Type} (i : nat) (x : A) (arr : list A) : list A :=
  match arr, i with
  | [], _ => []
  | _ :: rest, O => x :: rest
  | y :: rest, S j => y :: replace j x rest
  end.

(** [arr[i].m(...)], the callee updating the element in place; a
    [TypeError] when [arr[i]] is [undefined]. *)
Definition at_index {A : Type} (arr : list A) (i : nat) (m : A -> result A)
  : result (list A) :=
  match nth_error arr i with
  | Some x => x' <- m x ;; Ok (replace i x' arr)
  | None => Err TypeError
  end.

(** [arr[i]?.m(...)]: nothing happens when [arr[i]] is [undefined]. *)
Definition at_index_opt {A : Type} (arr : list (option A)) (i : nat)
  (m : A -> result A) : result (list (option A)) :=
  match nth_error arr i with
  | Some (Some x) => x' <- m x ;; Ok (replace i (Some x') arr)
  | _ => Ok arr
  end.

(** [r[key][i]?.m(...)] on a plain object whose own entries are arrays.
    Under a key the object does not own, [r[key]] is the member of
    [Object.prototype] of that name, which has no entry [i], so that
    nothing happens; when there is no such member [r[key]] is
    [undefined] and the access throws a [TypeError]. *)
Definition at_key {A : Type} (r : list (string * list (option A)))
  (key : string) (i : nat) (m : A -> result A)
  : result (list (string * list (option A))) :=
  match lookup r key with
  | Some arr => arr' <- at_index_opt arr i m ;; Ok (assign r key arr')
  | None => if inherited key then Ok r else Err TypeError
  end.

Record Input : Type := mkInput {
  duration : list Q;
  expected : list Q;
  expectedOfType : list (string * list Q);
  riderType : list string;
  available : list (list bool);
  guaranteed : list Q;
  minDuration : Q
}.

Definition CConstraint : Type := Constraint AuxData.

(** The objects [makeLP] builds and updates while it enumerates. *)
Record Tables : Type := mkTables {
  next_ref : nat;
  objective : LinExpr AuxData;
  timeCounted : list CConstraint;
  haveEnoughRiders : list (option CConstraint);
  haveEnoughRidersOfType : list (string * list (option CConstraint));
  disjointAllocations : list (list (option CConstraint));
  timeCoefficient : Q
}.

(** What the closures [solve] and [export] returned by [makeLP] capture. *)
Record Program : Type := mkProgram {
  p_objective : LinExpr AuxData;
  p_constraints : list CConstraint;
  p_guaranteed : list Q;
  p_expected : list Q
}.

Definition candidateName (r a b : nat) : string :=
  "a[" +++ show_nat r +++ "][" +++ show_nat a +++ ".." +++ show_nat b +++ "]".

(** [new lp.BoolVar(`a[${rider}][${t1}..${t2}]`)] with its [auxData]. *)
Definition candidateVar (r : nat) (aux : AuxData) : Var AuxData :=
  withAuxData (BoolVar r (candidateName (rider aux) (t1 aux) (t2 aux))) aux.

Definition timeName (r : nat) : string := "time[" +++ show_nat r +++ "]".

Definition candName (aux : AuxData) : string :=
  candidateName (rider aux) (t1 aux) (t2 aux).

(** The fields the loop over the covered slots leaves alone. *)
Definition sameHead (st st' : Tables) : Prop :=
  next_ref st' = next_ref st /\ objective st' = objective st
  /\ timeCounted st' = timeCounted st
  /\ timeCoefficient st' = timeCoefficient st.

(** *** The model in closed form *)

(** A row of optional constraints, the terms of each given by its index. *)
Definition optRow {X : Type} (present : X -> nat -> bool)
  (nm : X -> nat -> string) (lo hi : X -> nat -> option Q)
  (tau : nat -> LinExpr AuxData) (l : list X) : list (option CConstraint) :=
  mapi (fun x i =>
          if present x i
          then Some (mkConstraint (nm x i) (lo x i) (hi x i) (tau i))
          else None) l.

(** The entries of an array that are defined. *)
Definition defined {A : Type} (source : list (option A)) : list A :=
  flat_map (fun o => match o with Some x => [x] | None => [] end) source.

(** Slot [t] lies in the range of the candidate. *)
Definition inRange (aux : AuxData) (t : nat) : bool :=
  (t1 aux <=? t) && (t <=? t2 aux).

(** The terms a constraint has collected from the candidates [L], which
    are numbered from [ref] in the order of their creation: [sel] gives
    the coefficient of a candidate, or [None] when the constraint does
    not mention it. *)
Fixpoint selTerms (sel : AuxData -> option Q) (ref : nat) (L : list AuxData)
  : list (Var AuxData * Q) :=
  match L with
  | [] => []
  | aux :: rest =>
      match sel aux with
      | Some c => [(candidateVar ref aux, c)]
      | None => []
      end ++ selTerms sel (S ref) rest
  end.

(** While the slots [a .. s-1] of a new candidate [v] have been covered:
    what the constraint of slot [t] has gained. *)
Definition pending (v : Var AuxData) (a s t : nat) : LinExpr AuxData :=
  if (a <=? t) && (t <? s) then [(v, 1%Q)] else [].

(** The sum, over the candidates [L], of coefficient times value. *)
Fixpoint weighted (value : string -> Q) (sel : AuxData -> option Q)
  (L : list AuxData) : Q :=
  match L with
  | [] => 0%Q
  | aux :: rest =>
      (match sel aux with
       | Some c => c * value (candName aux)
       | None => 0
       end + weighted value sel rest)%Q
  end.

Section MakeLP.
Variable input : Input.

Definition numRiders : nat := List.length (guaranteed input).
Definition numTimeSlices : nat := List.length (expected input).
Definition types : list string := map fst (expectedOfType input).


(** Reads of the input arrays.  The assertions of [makeLP] put every index
    the loops use inside its array; [undefined] as a key reads as the
    text "undefined", as a condition it is false. *)
Definition availableAt (t r : nat) : bool :=
  nth r (nth t (available input) []) false.
Definition durationAt (t : nat) : Q := nth t (duration input) 0%Q.
Definition riderTypeAt (r : nat) : string := nth r (riderType input) "undefined".

(** Body of [for (let t = t1; t <= t2; t += 1)]. *)
Definition cover (r : nat) (v : Var AuxData) (st : Tables) (t : nat)
  : result Tables :=
  her <- at_index_opt (haveEnoughRiders st) t (fun c => setC c v 1) ;;
  hert <- at_key (haveEnoughRidersOfType st) (riderTypeAt r) t
            (fun c => setC c v 1) ;;
  dis <- at_index (disjointAllocations st) r
            (fun row => at_index_opt row t (fun c => setC c v 1)) ;;
  Ok (mkTables (next_ref st) (objective st) (timeCounted st) her hert dis
               (timeCoefficient st)).

(** Body of [if (d >= minDuration)]. *)
Definition candidate (r a b : nat) (d : Q) (st : Tables) : result Tables :=
  let v := candidateVar (next_ref st) (mkAuxData r a b) in
  obj <- set (objective st) v 1 ;;
  tc <- at_index (timeCounted st) r (fun c => setC c v (- d)%Q) ;;
  st' <- foldM (cover r v) (seq a (S b - a))
           (mkTables (S (next_ref st)) obj tc (haveEnoughRiders st)
                     (haveEnoughRidersOfType st) (disjointAllocations st)
                     (timeCoefficient st)) ;;
  Ok (mkTables (next_ref st') (objective st') (timeCounted st')
               (haveEnoughRiders st') (haveEnoughRidersOfType st')
               (disjointAllocations st') (timeCoefficient st' + 1)%Q).

(** [for (let t2 = t1; t2 < numTimeSlices && available[t2][rider]; t2 += 1)]
    over the slots [t1, t1+1, ..., numTimeSlices-1] still ahead. *)
Fixpoint extend (r a : nat) (slots : list nat) (d : Q) (st : Tables)
  : result Tables :=
  match slots with
  | [] => Ok st
  | b :: rest =>
      if availableAt b r then
        let d := jsPlus d (durationAt b) in
        st' <- (if Qle_bool (minDuration input) d
                then candidate r a b d st else Ok st) ;;
        extend r a rest d st'
      else Ok st
  end.

Definition fromStart (r : nat) (st : Tables) (a : nat) : result Tables :=
  extend r a (seq a (numTimeSlices - a)) 0%Q st.

Definition forRider (st : Tables) (r : nat) : result Tables :=
  foldM (fromStart r) (seq 0 numTimeSlices) st.

(** [new lp.RealVar(`time[${rider}]`, guaranteed[rider])]. *)
Definition timeVarOf (ref r : nat) : Var AuxData :=
  RealVar ref (timeName r) (Some (nth r (guaranteed input) 0%Q)) None.

(** Body of the second loop over the riders. *)
Definition timeVar (st : Tables) (r : nat) : result Tables :=
  let v := timeVarOf (next_ref st) r in
  obj <- set (objective st) v (timeCoefficient st) ;;
  tc <- at_index (timeCounted st) r (fun c => setC c v 1) ;;
  Ok (mkTables (S (next_ref st)) obj tc (haveEnoughRiders st)
               (haveEnoughRidersOfType st) (disjointAllocations st)
               (timeCoefficient st)).

Definition validate : result unit :=
  _ <- assert (List.length (duration input) =? numTimeSlices) None ;;
  _ <- assert (List.length (expected input) =? numTimeSlices) None ;;
  _ <- assert (forallb (fun type =>
                 match lookup (expectedOfType input) type with
                 | Some counts => List.length counts =? numTimeSlices
                 | None => false
                 end) types) None ;;
  _ <- assert (List.length (riderType input) =? numRiders) None ;;
  _ <- assert (List.length (available input) =? numTimeSlices) None ;;
  _ <- assert (forallb (fun a => List.length a =? numRiders) (available input))
              None ;;
  _ <- assert (List.length (guaranteed input) =? numRiders) None ;;
  _ <- assert (forallb (fun d => Qle_bool 0 d) (duration input)) None ;;
  _ <- assert (forallb (fun count =>
                 Qle_bool 0 count
                 && Qle_bool count (inject_Z (Z.of_nat numRiders)))
               (expected input)) None ;;
  assert (forallb (fun type =>
            match lookup (expectedOfType input) type with
            | Some _ => true
            | None => inherited type
            end) (riderType input)) None.

Definition initial : Tables :=
  mkTables 0 []
    (mapi (fun _ r =>
             newConstraint ("timeCounted[" +++ show_nat r +++ "]") (Some 0%Q) None)
          (guaranteed input))
    (mapi (fun count t =>
             if truthy count
             then Some (newConstraint ("enough[" +++ show_nat t +++ "]")
                                      (Some count) None)
             else None)
          (expected input))
    (makeRecord types (fun type =>
       mapi (fun count t =>
               if truthy count
               then Some (newConstraint
                            ("enough[" +++ type +++ "][" +++ show_nat t +++ "]")
                            (Some count) None)
               else None)
            (match lookup (expectedOfType input) type with
             | Some counts => counts
             | None => []
             end)))
    (mapi (fun _ r =>
             mapi (fun _ t =>
                     if availableAt t r
                     then Some (newConstraint
                                  ("disjoint[" +++ show_nat r +++ "]["
                                   +++ show_nat t +++ "]")
                                  None (Some 1%Q))
                     else None)
                  (expected input))
          (guaranteed input))
    0%Q.

Definition assemble (st : Tables) : list CConstraint :=
  let constraints := timeCounted st in
  let constraints := append anObject constraints (haveEnoughRiders st) in
  let constraints :=
    fold_left (fun cs type =>
                 append anObject cs
                        (match lookup (haveEnoughRidersOfType st) type with
                         | Some arr => arr
                         | None => []
                         end))
              types constraints in
  fold_left (fun cs a => append anObject cs a) (disjointAllocations st)
            constraints.

Definition makeLP : result Program :=
  _ <- validate ;;
  st <- foldM forRider (seq 0 numRiders) initial ;;
  st <- foldM timeVar (seq 0 numRiders) st ;;
  Ok (mkProgram (objective st) (assemble st) (guaranteed input)
                (expected input)).

(** *** The candidates, as the data model describes them *)

(** [d] after the slots [a..b]: the durations added one by one to 0, in
    the order of the slots, each sum rounded as the runtime rounds it. *)
Definition totalDuration (a b : nat) : Q :=
  fold_left jsPlus (map durationAt (seq a (S b - a))) 0%Q.

(** A shift candidate: a range inside the day over which the rider is
    available throughout and whose durations, so added up, reach
    [minDuration]. *)
Definition feasible (aux : AuxData) : Prop :=
  rider aux < numRiders
  /\ t1 aux <= t2 aux < numTimeSlices
  /\ (forall t, t1 aux <= t <= t2 aux -> availableAt t (rider aux) = true)
  /\ (minDuration input <= totalDuration (t1 aux) (t2 aux))%Q.

(** The input breaks one of the shape rules. *)
Definition shapeViolation : Prop :=
  List.length (duration input) <> numTimeSlices
  \/ (exists type counts, lookup (expectedOfType input) type = Some counts
                          /\ List.length counts <> numTimeSlices)
  \/ List.length (riderType input) <> numRiders
  \/ List.length (available input) <> numTimeSlices
  \/ (exists row, In row (available input) /\ List.length row <> numRiders)
  \/ (exists d, In d (duration input) /\ (d < 0)%Q)
  \/ (exists count, In count (expected input)
                    /\ ((count < 0)%Q \/ (Qnat numRiders < count)%Q))
  \/ (exists type, In type (riderType input)
                   /\ lookup (expectedOfType input) type = None
                   /\ inherited type = false).

(** *** The enumeration, apart from the tables it fills *)

(** The ranges for which [extend] reaches the body of
    [if (d >= minDuration)], in the order it reaches them. *)
Fixpoint enumExtend (r a : nat) (slots : list nat) (d : Q) : list AuxData :=
  match slots with
  | [] => []
  | b :: rest =>
      if availableAt b r then
        let d := jsPlus d (durationAt b) in
        (if Qle_bool (minDuration input) d then [mkAuxData r a b] else [])
        ++ enumExtend r a rest d
      else []
  end.

Definition enumStart (r a : nat) : list AuxData :=
  enumExtend r a (seq a (numTimeSlices - a)) 0%Q.

Definition enumRider (r : nat) : list AuxData :=
  flat_map (enumStart r) (seq 0 numTimeSlices).

Definition enumAll : list AuxData := flat_map enumRider (seq 0 numRiders).

(** The terms of the objective: the candidates in the order of their
    creation, then the time variables. *)
Definition candidateTerms (ref : nat) (l : list AuxData)
  : list (Var AuxData * Q) :=
  mapi_from ref (fun aux i => (candidateVar i aux, 1%Q)) l.

Definition timeTerms (ref : nat) (K : Q) (k : nat) : list (Var AuxData * Q) :=
  map (fun r => (timeVarOf (ref + r) r, K)) (seq 0 k).

(** *** Invariants of the tables *)

Definition within (G : list (Var AuxData)) (c : CConstraint) : Prop :=
  incl (vars (terms c)) G.

Definition owithin (G : list (Var AuxData)) (c : option CConstraint) : Prop :=
  match c with
  | Some c => within G c
  | None => True
  end.

Definition Within (G : list (Var AuxData)) (st : Tables) : Prop :=
  Forall (within G) (timeCounted st)
  /\ Forall (owithin G) (haveEnoughRiders st)
  /\ Forall (fun kv => Forall (owithin G) (snd kv)) (haveEnoughRidersOfType st)
  /\ Forall (Forall (owithin G)) (disjointAllocations st).

Definition Shape (st : Tables) : Prop :=
  List.length (timeCounted st) = numRiders
  /\ List.length (disjointAllocations st) = numRiders
  /\ forall r, r < numRiders ->
       lookup (haveEnoughRidersOfType st) (riderTypeAt r) <> None
       \/ inherited (riderTypeAt r) = true.

(** After the candidates [L], in this order, and nothing else. *)
Definition afterCandidates (L : list AuxData) (st : Tables) : Prop :=
  Shape st
  /\ Within (vars (objective st)) st
  /\ objective st = candidateTerms 0 L
  /\ next_ref st = List.length L
  /\ timeCoefficient st = Qnat (List.length L).

(** After every candidate and the time variables of the riders below [k]. *)
Definition afterTimes (k : nat) (st : Tables) : Prop :=
  Shape st
  /\ Within (vars (objective st)) st
  /\ objective st
     = candidateTerms 0 enumAll
       ++ timeTerms (List.length enumAll)
                    (Qnat (List.length enumAll)) k
  /\ next_ref st = List.length enumAll + k
  /\ timeCoefficient st = Qnat (List.length enumAll).

(** *** The tables and the constraints in closed form *)

Definition countsOf (type : string) : list Q :=
  match lookup (expectedOfType input) type with
  | Some counts => counts
  | None => []
  end.

Definition timeCountedRow (tau : nat -> LinExpr AuxData) : list CConstraint :=
  mapi (fun _ r =>
          mkConstraint ("timeCounted[" +++ show_nat r +++ "]") (Some 0%Q) None
                       (tau r))
       (guaranteed input).

Definition enoughRow (tau : nat -> LinExpr AuxData)
  : list (option CConstraint) :=
  optRow (fun count _ => truthy count)
         (fun _ t => "enough[" +++ show_nat t +++ "]")
         (fun count _ => Some count) (fun _ _ => None)
         tau (expected input).

Definition enoughOfTypeRow (type : string) (tau : nat -> LinExpr AuxData)
  : list (option CConstraint) :=
  optRow (fun count _ => truthy count)
         (fun _ t => "enough[" +++ type +++ "][" +++ show_nat t +++ "]")
         (fun count _ => Some count) (fun _ _ => None)
         tau (countsOf type).

Definition disjointRow (r : nat) (tau : nat -> LinExpr AuxData)
  : list (option CConstraint) :=
  optRow (fun _ t => availableAt t r)
         (fun _ t => "disjoint[" +++ show_nat r +++ "][" +++ show_nat t +++ "]")
         (fun _ _ => None) (fun _ _ => Some 1%Q)
         tau (expected input).

Definition disjointRows (tau : nat -> nat -> LinExpr AuxData)
  : list (list (option CConstraint)) :=
  mapi (fun _ r => disjointRow r (tau r)) (guaranteed input).

(** The coefficient of a candidate in each constraint. *)
Definition selTimeCounted (r : nat) (aux : AuxData) : option Q :=
  if rider aux =? r
  then Some (- totalDuration (t1 aux) (t2 aux))%Q else None.

Definition selEnough (t : nat) (aux : AuxData) : option Q :=
  if inRange aux t then Some 1%Q else None.

Definition selEnoughOfType (type : string) (t : nat) (aux : AuxData)
  : option Q :=
  if String.eqb (riderTypeAt (rider aux)) type && inRange aux t
  then Some 1%Q else None.

Definition selDisjoint (r t : nat) (aux : AuxData) : option Q :=
  if (rider aux =? r) && inRange aux t then Some 1%Q else None.

(** The tables hold the given terms. *)
Definition Filled (tTC tE : nat -> LinExpr AuxData)
  (tET : string -> nat -> LinExpr AuxData)
  (tD : nat -> nat -> LinExpr AuxData) (st : Tables) : Prop :=
  timeCounted st = timeCountedRow tTC
  /\ haveEnoughRiders st = enoughRow tE
  /\ (forall type, In type types ->
        lookup (haveEnoughRidersOfType st) type
        = Some (enoughOfTypeRow type (tET type)))
  /\ disjointAllocations st = disjointRows tD
  /\ (forall type, ~ In type types ->
        lookup (haveEnoughRidersOfType st) type = None).

(** The terms of the tables after the candidates [L]. *)
Definition filledAfter (L : list AuxData) (st : Tables) : Prop :=
  Filled (fun r => selTerms (selTimeCounted r) 0 L)
         (fun t => selTerms (selEnough t) 0 L)
         (fun type t => selTerms (selEnoughOfType type t) 0 L)
         (fun r t => selTerms (selDisjoint r t) 0 L)
         st.

(** The tables after the candidates [L], in full. *)
Definition built (L : list AuxData) (st : Tables) : Prop :=
  afterCandidates L st /\ filledAfter L st.

(** The tables after every candidate and the time variables of the riders
    below [k], in full. *)
Definition builtTimes (k : nat) (st : Tables) : Prop :=
  afterTimes k st
  /\ Filled (fun r => selTerms (selTimeCounted r) 0 enumAll
                      ++ if r <? k
                         then [(timeVarOf (List.length enumAll + r) r, 1%Q)]
                         else [])
            (fun t => selTerms (selEnough t) 0 enumAll)
            (fun type t => selTerms (selEnoughOfType type t) 0 enumAll)
            (fun r t => selTerms (selDisjoint r t) 0 enumAll)
            st.

(** The constraints of the model over the candidates [L]. *)
Definition modelConstraints (L : list AuxData) : list CConstraint :=
  timeCountedRow
    (fun r => selTerms (selTimeCounted r) 0 L
              ++ [(timeVarOf (List.length L + r) r, 1%Q)])
  ++ defined (enoughRow (fun t => selTerms (selEnough t) 0 L))
  ++ flat_map (fun type =>
                 defined (enoughOfTypeRow type
                            (fun t => selTerms (selEnoughOfType type t) 0 L)))
              types
  ++ flat_map defined
              (disjointRows (fun r t => selTerms (selDisjoint r t) 0 L)).

(** The inequalities of the model over the candidates [C], as the header
    of the module writes them: for every rider the counted time is at
    least the duration of the assigned ranges; every slot of nonzero
    demand has enough assigned riders, in general and of every type;
    the ranges assigned to a rider that hold a slot at which the rider is
    available are at most one. *)
Definition meetsModel (C : list AuxData) (value : string -> Q) : Prop :=
  (forall r, r < numRiders ->
     (0 <= weighted value (selTimeCounted r) C + value (timeName r))%Q)
  /\ (forall t count,
        nth_error (expected input) t = Some count -> truthy count = true ->
        (count <= weighted value (selEnough t) C)%Q)
  /\ (forall type t count,
        In type types ->
        nth_error (countsOf type) t = Some count -> truthy count = true ->
        (count <= weighted value (selEnoughOfType type t) C)%Q)
  /\ (forall r t,
        r < numRiders -> t < numTimeSlices -> availableAt t r = true ->
        (weighted value (selDisjoint r t) C <= 1)%Q).

End MakeLP.

(** *** The closures returned by [makeLP] *)

(** A JavaScript array with holes: [arr[i] = x] past the end extends it. *)
Definition jsArraySet {A : Type} (arr : list (option A)) (i : nat) (x : A)
  : list (option A) :=
  if i <? List.length arr then replace i (Some x) arr
  else arr ++ repeat None (i - List.length arr) ++ [Some x].

Definition Grid : Type := list (list (option bool)).

Definition mark (assignment : Grid) (e : Var AuxData * Q) : result Grid :=
  match auxData (fst e) with
  | Some aux =>
      if Qltb (1 # 2) (snd e) then
        foldM (fun g t =>
                 at_index g (rider aux)
                          (fun row => Ok (jsArraySet row t true)))
              (seq (t1 aux) (S (t2 aux) - t1 aux)) assignment
      else Ok assignment
  | None => Ok assignment
  end.

Definition decode (p : Program) (solution : LinExpr AuxData) : result Grid :=
  let assignment :=
    map (fun _ => map (fun _ => Some false) (p_expected p)) (p_guaranteed p) in
  foldM mark (getVarCoefficients solution) assignment.

Section Closures.
Variable engine_solve :
  list EngineVar -> list EngineConstraint -> option (string -> Q).
Variable show : Q -> string.

Definition solve (p : Program) : result (option Grid) :=
  solution <- minimize engine_solve (p_objective p) (p_constraints p) ;;
  match solution with
  | None => Ok None
  | Some solution => g <- decode p solution ;; Ok (Some g)
  end.

Definition export (p : Program) : result string :=
  exportAsLP show (p_objective p) (p_constraints p).

End Closures.

(** *** Reading a grid and a solution *)

(** [grid[r][t]], [None] when it is [undefined]. *)
Definition cell (g : Grid) (r t : nat) : option bool :=
  match nth_error g r with
  | Some row =>
      match nth_error row t with
      | Some (Some b) => Some b
      | _ => None
      end
  | None => None
  end.

(** A grid of [rows] rows of [cols] entries each. *)
Definition rect (rows cols : nat) (g : Grid) : Prop :=
  List.length g = rows /\ Forall (fun row => List.length row = cols) g.

(** The term [e] is a candidate set above one half whose range covers
    slot [t] of rider [r]. *)
Definition covers (e : Var AuxData * Q) (r t : nat) : bool :=
  match auxData (fst e) with
  | Some aux =>
      Qltb (1 # 2) (snd e)
      && (rider aux =? r) && (t1 aux <=? t) && (t <=? t2 aux)
  | None => false
  end.

(** [grid[r][t]] is [true]. *)
Definition cellTrue (g : Grid) (r t : nat) : bool :=
  match cell g r t with
  | Some true => true
  | _ => false
  end.

(** The number of riders, among those [P] selects, that the grid assigns
    to slot [t]. *)
Definition assignedWhere (P : nat -> bool) (g : Grid) (t : nat) : nat :=
  List.length (filter (fun r => P r && cellTrue g r t)
                      (seq 0 (List.length g))).

(** The sum of [f] over a list of indices. *)
Fixpoint sumOver (f : nat -> Q) (l : list nat) : Q :=
  match l with
  | [] => 0%Q
  | r :: rest => (f r + sumOver f rest)%Q
  end.

(** The ranges of the candidates of [e] lie inside the grid. *)
Definition inGrid (rows cols : nat) (e : Var AuxData * Q) : Prop :=
  forall aux, auxData (fst e) = Some aux -> rider aux < rows /\ t2 aux < cols.

(** The ranges of the candidate variables of an expression. *)
Definition candidatesOf (e : LinExpr AuxData) : list AuxData :=
  flat_map (fun x => match auxData (fst x) with
                     | Some aux => [aux]
                     | None => []
                     end) e.

(** The assignment meets every constraint and every variable domain. *)
Definition achievable (value : string -> Q) (p : Program) : Prop :=
  Forall (holds value) (p_constraints p)
  /\ Forall (inDomain value) (vars (p_objective p)).

(** The candidate terms of the objective, each of weight 1. *)
Definition candidateSum (value : string -> Q) (e : LinExpr AuxData) : Q :=
  evaluate value (filter (fun x => isSome (auxData (fst x))) e).

(** *** Worked instances *)

Definition justAbove : list EngineVar -> list EngineConstraint
                       -> option (string -> Q) :=
  fun _ _ => Some (fun _ => (500001 # 1000000)%Q).

Definition exactlyHalf : list EngineVar -> list EngineConstraint
                         -> option (string -> Q) :=
  fun _ _ => Some (fun _ => (1 # 2)%Q).

Definition noSolution : list EngineVar -> list EngineConstraint
                        -> option (string -> Q) :=
  fun _ _ => None.

Definition show_int (q : Q) : string :=
  match Qnum q with
  | Z0 => "0"
  | Zpos p => show_nat (Pos.to_nat p)
  | Zneg p => "-" +++ show_nat (Pos.to_nat p)
  end.

Definition oneSlot : Input :=
  mkInput [1%Q] [1%Q] [("bike", [0%Q])] ["bike"] [[true]] [0%Q] 1%Q.

Definition negativeDuration : Input :=
  mkInput [(- (1))%Q] [1%Q] [("bike", [0%Q])] ["bike"] [[true]] [0%Q] 1%Q.

(** Ten slots of the double nearest to 0.1, and three of the double
    nearest to 1/3, each with a minimum duration of 1. *)
Definition tenTenths : Input :=
  mkInput (repeat (double (1 # 10)) 10) (repeat 0%Q 10)
          [("bike", repeat 0%Q 10)] ["bike"] (repeat [true] 10) [0%Q] 1%Q.

Definition threeThirds : Input :=
  mkInput (repeat (double (1 # 3)) 3) (repeat 0%Q 3)
          [("bike", repeat 0%Q 3)] ["bike"] (repeat [true] 3) [0%Q] 1%Q.

(** A rider whose type, [constructor], has no entry in [expectedOfType]. *)
Definition constructorRider : Input :=
  mkInput [1%Q] [1%Q] [("bike", [0%Q])] ["constructor"] [[true]] [0%Q] 1%Q.

Definition allOnes : string -> Q := fun _ => 1%Q.

(** [makeLP] returns a program with [n] candidates, in which every other
    term of the objective has the coefficient [n]. *)
Definition weightIs (input : Input) (n : nat) : bool :=
  match makeLP input with
  | Ok p =>
      (List.length (candidatesOf (p_objective p)) =? n)
      && forallb (fun x => isSome (auxData (fst x)) || Qeq_bool (snd x) (Qnat n))
                 (p_objective p)
  | Err _ => false
  end.

(** The input of the example driver: 24 slots of one hour, four riders. *)
Definition exampleDay : Input :=
  let y := true in
  let n := false in
  mkInput
    (repeat 1%Q 24)
    [0; 0; 0; 0; 0; 0; 0; 0; 0; 0; 0; 0; 2; 2; 1; 0; 0; 0; 2; 3; 4; 4; 2; 0]%Q
    [("bike", repeat 0%Q 24);
     ("scooter",
      [0; 0; 0; 0; 0; 0; 0; 0; 0; 0; 0; 0; 0; 0; 0; 0; 0; 0; 1; 2; 2; 2; 1; 0]%Q)]
    ["bike"; "bike"; "scooter"; "scooter"]
    [[y; y; n; n]; [y; y; n; n]; [y; y; n; n]; [y; y; n; n];
     [y; y; n; n]; [y; y; n; n]; [y; y; n; n]; [y; y; n; n];
     [y; y; n; n]; [y; y; n; n]; [y; y; n; n]; [y; y; n; n];
     [y; y; n; n]; [y; y; y; n]; [y; n; y; n]; [y; n; n; n];
     [y; n; n; n]; [y; n; n; n]; [y; n; n; y]; [y; n; y; y];
     [y; y; y; y]; [y; y; y; y]; [y; n; y; n]; [y; n; y; n]]
    [6; 4; 4; 0]%Q
    2%Q.

End scheduling.

(** * Properties *)

Import lp.

Ltac inv H := inversion H; subst; clear H.

(** Split a hypothesis [x <- m ;; k = Ok r] on the outcome of [m]. *)
Ltac bind_ok H x Hx :=
  match type of H with
  | bind ?m _ = Ok _ =>
      destruct m as [x|] eqn:Hx; [cbn [bind] in H | discriminate H]
  end.

Lemma foldM_app {A S : Type} (f : S -> A -> result S) (l1 l2 : list A) (s : S) :
  foldM f (l1 ++ l2) s = (s' <- foldM f l1 s ;; foldM f l2 s').
Proof.
  revert s; induction l1 as [|x l1 IH]; intros s; cbn; [reflexivity|].
  destruct (f s x); cbn; auto.
Qed.

Lemma foldM_flat_map {A B S : Type} (f : S -> B -> result S) (h : A -> list B)
      (l : list A) (s : S) :
  foldM (fun acc x => foldM f (h x) acc) l s = foldM f (flat_map h l) s.
Proof.
  revert s; induction l as [|x l IH]; intros s; cbn; [reflexivity|].
  rewrite foldM_app. destruct (foldM f (h x) s); cbn; auto.
Qed.

(** A loop whose body keeps an invariant, and returns whenever the
    invariant holds, returns and keeps it. *)
Lemma foldM_invariant {A S : Type} (P : S -> Prop) (D : A -> Prop)
      (f : S -> A -> result S) (l : list A) (s : S) :
  (forall s x, P s -> D x -> exists s', f s x = Ok s' /\ P s') ->
  Forall D l -> P s -> exists s', foldM f l s = Ok s' /\ P s'.
Proof.
  intros step Hl; revert s; induction Hl as [|x l Hx Hl IH]; intros s Hs; cbn.
  - eauto.
  - destruct (step s x Hs Hx) as (s1 & -> & Hs1); cbn. auto.
Qed.

Section AlgebraFacts.
Context {T : Type}.
Implicit Types (e acc : LinExpr T) (v w : Var T) (c : Q) (n : string).

Lemma entry_Some e n w c :
  entry e n = Some (w, c) -> In (w, c) e /\ name w = n.
Proof.
  unfold entry; intros H. apply find_some in H as [Hin Heq].
  split; [assumption|]. now apply String.eqb_eq in Heq.
Qed.

Lemma entry_None e n : entry e n = None <-> ~ In n (names e).
Proof.
  unfold entry, names; split.
  - intros H Hin. apply in_map_iff in Hin as (x & Hx & Hin).
    pose proof (find_none _ _ H x Hin) as Hn; cbn in Hn.
    rewrite Hx, String.eqb_refl in Hn; discriminate.
  - intros H. destruct (find _ e) as [x|] eqn:Hf; [|reflexivity].
    apply find_some in Hf as [Hin Heq]. apply String.eqb_eq in Heq.
    exfalso; apply H. apply in_map_iff; eauto.
Qed.

Lemma store_fresh e v c :
  ~ In (name v) (names e) -> store e v c = e ++ [(v, c)].
Proof.
  induction e as [|[w d] e IH]; cbn; intros H; [reflexivity|].
  destruct (String.eqb_spec (name w) (name v)) as [Heq|Hne].
  - exfalso; apply H; left; exact Heq.
  - f_equal. apply IH. intros Hin; apply H; right; exact Hin.
Qed.

Lemma store_In e v c x : In x (store e v c) -> x = (v, c) \/ In x e.
Proof.
  induction e as [|[w d] e IH]; cbn.
  - intros [<-|[]]; auto.
  - destruct (String.eqb (name w) (name v)); cbn.
    + intros [<-|H]; auto.
    + intros [<-|H]; auto. destruct (IH H); auto.
Qed.

Lemma store_In_new e v c : In (v, c) (store e v c).
Proof.
  induction e as [|[w d] e IH]; cbn; [auto|].
  destruct (String.eqb (name w) (name v)); cbn; auto.
Qed.

Lemma store_In_old e v c x :
  In x e -> name (fst x) <> name v -> In x (store e v c).
Proof.
  induction e as [|[w d] e IH]; cbn; [tauto|].
  intros [<-|H] Hne; cbn in *.
  - destruct (String.eqb_spec (name w) (name v)); [contradiction|now left].
  - destruct (String.eqb (name w) (name v)); cbn; auto.
Qed.

Lemma store_names e v c n :
  In n (names (store e v c)) <-> In n (names e) \/ n = name v.
Proof.
  unfold names; induction e as [|[w d] e IH]; cbn.
  - intuition.
  - destruct (String.eqb_spec (name w) (name v)) as [Heq|Hne]; cbn.
    + rewrite Heq; intuition.
    + rewrite IH; intuition.
Qed.

Lemma store_NoDup e v c : NoDup (names e) -> NoDup (names (store e v c)).
Proof.
  induction e as [|[w d] e IH]; cbn; intros H.
  - constructor; [intros []|constructor].
  - inv H. destruct (String.eqb_spec (name w) (name v)) as [Heq|Hne]; cbn.
    + constructor; [rewrite <- Heq|]; assumption.
    + constructor; [|auto]. fold (names (store e v c)).
      rewrite store_names. intros [Hin|Heq]; [contradiction|congruence].
Qed.

Lemma set_Ok e v c e' : set e v c = Ok e' -> e' = store e v c.
Proof.
  unfold set, setCoefficient. destruct (checkVar e v); intros H; now inv H.
Qed.

(** [setCoefficient] returns when every entry under the name of [v]
    holds the instance [v] and the name is none of [Object.prototype]. *)
Lemma set_returns e v c :
  inherited (name v) = false ->
  (forall w d, In (w, d) e -> name w = name v -> ref w = ref v) ->
  set e v c = Ok (store e v c).
Proof.
  intros Hp H. unfold set, setCoefficient, checkVar.
  destruct (entry e (name v)) as [[w d]|] eqn:He; [|now rewrite Hp].
  apply entry_Some in He as [Hin Hn]. unfold sameInstance.
  rewrite (H w d Hin Hn), Nat.eqb_refl. reflexivity.
Qed.

(** A call that returns leaves no name of [Object.prototype] in an
    expression that had none. *)
Lemma set_proper e v c e' :
  set e v c = Ok e' ->
  (forall n, In n (names e) -> inherited n = false) ->
  forall n, In n (names e') -> inherited n = false.
Proof.
  intros H He n Hn. pose proof (set_Ok _ _ _ _ H) as ->.
  apply store_names in Hn as [Hn| ->]; [auto|].
  unfold set, setCoefficient, checkVar in H.
  destruct (entry e (name v)) as [[w d]|] eqn:E.
  - apply entry_Some in E as [Hin <-]. apply He.
    apply in_map_iff. exists (w, d); auto.
  - destruct (inherited (name v)); [discriminate|reflexivity].
Qed.

Lemma setEach_keeps g l acc acc' :
  setEach g l acc = Ok acc' ->
  forall x, In x acc -> ~ In (name (fst x)) (names l) -> In x acc'.
Proof.
  unfold setEach. revert acc; induction l as [|u l IH]; cbn; intros acc Hf x Hx Hfresh.
  - now inv Hf.
  - bind_ok Hf acc2 H2. apply set_Ok in H2; subst acc2.
    apply (IH _ Hf); [|tauto]. apply store_In_old; [assumption|].
    intros Heq; apply Hfresh; left; auto.
Qed.

Lemma setEach_Ok_inv g l acc acc' :
  setEach g l acc = Ok acc' ->
  NoDup (names acc) ->
  NoDup (names acc')
  /\ (forall n, In n (names acc') <-> In n (names acc) \/ In n (names l))
  /\ (forall x, In x acc' ->
                In x acc \/ exists y, In y l /\ x = (fst y, g y))
  /\ (forall x, In x acc -> ~ In (name (fst x)) (names l) -> In x acc').
Proof.
  unfold setEach. revert acc; induction l as [|y l IH]; cbn; intros acc H Hnd.
  - inv H. repeat split; auto; tauto.
  - bind_ok H acc1 H1. apply set_Ok in H1; subst acc1.
    destruct (IH _ H (store_NoDup _ _ _ Hnd)) as (Hn & Hnames & Hent & Hkeep).
    repeat split; [assumption| | | |].
    + intros Hin. apply Hnames in Hin as [Hin|Hin]; [|auto].
      apply store_names in Hin as [Hin| ->]; auto.
    + intros [Hin|[<-|Hin]]; apply Hnames; rewrite ?store_names; auto.
    + intros x Hin. apply Hent in Hin as [Hin|(z & Hz & ->)]; [|eauto].
      apply store_In in Hin as [-> |Hin]; eauto.
    + intros x Hin Hx. apply Hkeep; [|tauto].
      apply store_In_old; [assumption|]. intros Heq; apply Hx; left; auto.
Qed.

(** The last coefficient set under a name is the one that stays. *)
Lemma setEach_overlay g l acc acc' :
  setEach g l acc = Ok acc' -> NoDup (names l) ->
  forall y, In y l -> In (fst y, g y) acc'.
Proof.
  unfold setEach. revert acc; induction l as [|z l IH]; cbn; intros acc H Hnd y Hy;
    [contradiction|].
  bind_ok H acc1 H1. apply set_Ok in H1; subst acc1. inv Hnd.
  destruct Hy as [-> |Hy]; [|eauto].
  apply (setEach_keeps _ _ _ _ H); [apply store_In_new | assumption].
Qed.

Lemma setEach_proper g l acc acc' :
  setEach g l acc = Ok acc' ->
  (forall n, In n (names acc) -> inherited n = false) ->
  forall n, In n (names acc') -> inherited n = false.
Proof.
  unfold setEach. revert acc; induction l as [|y l IH]; cbn; intros acc H Hacc.
  - now inv H.
  - bind_ok H acc1 H1. apply (IH _ H). exact (set_proper _ _ _ _ H1 Hacc).
Qed.

(** The loop returns when equal names are held by equal instances and no
    name is one of [Object.prototype]. *)
Lemma setEach_returns g l acc :
  (forall v, In v (vars l) -> inherited (name v) = false) ->
  (forall v w, In v (vars acc ++ vars l) -> In w (vars acc ++ vars l) ->
               name v = name w -> ref v = ref w) ->
  exists acc', setEach g l acc = Ok acc'.
Proof.
  unfold setEach. revert acc; induction l as [|y l IH]; cbn; intros acc Hp H;
    [eauto|].
  rewrite (set_returns acc (fst y) (g y)); cbn.
  - apply IH; [intros v Hv; apply Hp; now right|]. intros v w Hv Hw. apply H.
    + apply in_app_iff in Hv as [Hv|Hv]; [|apply in_app_iff; right; right; exact Hv].
      apply in_map_iff in Hv as (x & <- & Hx).
      apply store_In in Hx as [-> |Hx]; apply in_app_iff;
        [right; left; reflexivity | left; apply in_map_iff; eauto].
    + apply in_app_iff in Hw as [Hw|Hw]; [|apply in_app_iff; right; right; exact Hw].
      apply in_map_iff in Hw as (x & <- & Hx).
      apply store_In in Hx as [-> |Hx]; apply in_app_iff;
        [right; left; reflexivity | left; apply in_map_iff; eauto].
  - apply Hp. now left.
  - intros w d Hin Hn. apply H; [| |assumption].
    + apply in_app_iff; left. apply in_map_iff. exists (w, d); auto.
    + apply in_app_iff; right; left; reflexivity.
Qed.

(** On fresh, pairwise distinct names, none of [Object.prototype], the
    loop appends the terms in order. *)
Lemma setEach_fresh g l acc :
  (forall n, In n (names l) -> inherited n = false) ->
  NoDup (names acc ++ names l) ->
  setEach g l acc = Ok (acc ++ map (fun y => (fst y, g y)) l).
Proof.
  unfold setEach. revert acc; induction l as [|y l IH]; cbn; intros acc Hp H.
  - now rewrite app_nil_r.
  - assert (Hf : ~ In (name (fst y)) (names acc)).
    { intros Hin. apply NoDup_remove_2 in H. apply H, in_app_iff; auto. }
    assert (Hs : set acc (fst y) (g y) = Ok (acc ++ [(fst y, g y)])).
    { unfold set, setCoefficient, checkVar.
      rewrite (proj2 (entry_None acc (name (fst y))) Hf).
      rewrite (Hp (name (fst y)) (or_introl eq_refl)).
      now rewrite store_fresh by assumption. }
    rewrite Hs; cbn [bind]. rewrite IH.
    + now rewrite <- app_assoc.
    + intros n Hn. apply Hp. now right.
    + unfold names in *. rewrite map_app; cbn. rewrite <- app_assoc. exact H.
Qed.

End AlgebraFacts.

(** ** [LinExpr.setCoefficient] *)

Section SetCoefficient.
Context {T : Type}.
Implicit Types (this : LinExpr T) (v w : Var T) (c : Q) (n : string).

Lemma entry_store_same this v c : entry (store this v c) (name v) = Some (v, c).
Proof.
  unfold entry; induction this as [|[w d] this IH]; cbn.
  - now rewrite String.eqb_refl.
  - destruct (String.eqb (name w) (name v)) eqn:E; cbn.
    + now rewrite String.eqb_refl.
    + now rewrite E.
Qed.

Lemma entry_store_other this v c n :
  n <> name v -> entry (store this v c) n = entry this n.
Proof.
  intros Hn; unfold entry; induction this as [|[w d] this IH]; cbn.
  - destruct (String.eqb_spec (name v) n); [congruence|reflexivity].
  - destruct (String.eqb_spec (name w) (name v)) as [E|E]; cbn.
    + destruct (String.eqb_spec (name v) n); [congruence|].
      destruct (String.eqb_spec (name w) n); [congruence|reflexivity].
    + destruct (String.eqb (name w) n); [reflexivity|exact IH].
Qed.

(** X18.  The outcomes of [setCoefficient(v, c)], on any expression.  It
    throws the mismatching-variable error, and leaves the expression as
    it was, in two cases: another instance holds the name of [v]; or the
    expression has no entry under the name of [v] and the name is one of
    [Object.prototype].  Otherwise it returns, the name of [v] then
    holds [v] with coefficient [c] and every other name is as before; a
    second call replaces the coefficient of the first. *)
Theorem setCoefficient_collision_or_overwrite this v c :
  (forall w d, entry this (name v) = Some (w, d) -> ref w <> ref v ->
     setCoefficient v c this = (Err (mismatch (name v)), this))
  /\ (entry this (name v) = None -> inherited (name v) = true ->
      setCoefficient v c this = (Err (mismatch (name v)), this))
  /\ ((entry this (name v) = None /\ inherited (name v) = false
       \/ exists w d, entry this (name v) = Some (w, d) /\ ref w = ref v) ->
      exists this',
        setCoefficient v c this = (Ok tt, this')
        /\ entry this' (name v) = Some (v, c)
        /\ forall n, n <> name v -> entry this' n = entry this n)
  /\ (forall c1 c2 this1,
        setCoefficient v c1 this = (Ok tt, this1) ->
        exists this2,
          setCoefficient v c2 this1 = (Ok tt, this2)
          /\ getCoefficient v this2 = Ok (Some c2)).
Proof.
  split; [|split; [|split]].
  - intros w d He Hr. unfold setCoefficient, checkVar, sameInstance.
    rewrite He. apply Nat.eqb_neq in Hr. now rewrite Hr.
  - intros He Hp. unfold setCoefficient, checkVar. now rewrite He, Hp.
  - intros H. exists (store this v c). split; [|split].
    + unfold setCoefficient, checkVar, sameInstance.
      destruct H as [[-> ->]|(w & d & -> & ->)]; [reflexivity|].
      now rewrite Nat.eqb_refl.
    + apply entry_store_same.
    + intros n Hn. now apply entry_store_other.
  - intros c1 c2 this1 H1.
    assert (this1 = store this v c1) as ->.
    { unfold setCoefficient in H1. destruct (checkVar this v); now inv H1. }
    exists (store (store this v c1) v c2). split.
    + unfold setCoefficient, checkVar, sameInstance.
      now rewrite entry_store_same, Nat.eqb_refl.
    + unfold getCoefficient, checkVar, sameInstance.
      now rewrite entry_store_same, Nat.eqb_refl.
Qed.

End SetCoefficient.

(** C9, at the empty expression and a variable named [constructor].  No
    instance occupies the name, so the variable is to be registered; but
    [checkVar] reads [keys["constructor"]], the member the empty table
    inherits, as another variable of the name, and the call throws the
    mismatching-variable error and registers nothing. *)
Lemma setCoefficient_inherited_name :
  entry (@nil (Var unit * Q)) (name constructorVar) = None
  /\ setCoefficient constructorVar 1%Q []
     = (Err (mismatch "constructor"), [])
  /\ ~ exists this', setCoefficient constructorVar 1%Q [] = (Ok tt, this').
Proof.
  split; [reflexivity|]. split; [reflexivity|].
  intros (this' & H). discriminate H.
Qed.

Lemma setCoefficient_collision_or_overwrite_witness :
  setCoefficient (RealVar 1 "x" None None) 5%Q [(@RealVar unit 0 "x" None None, 2%Q)]
  = (Err (mismatch "x"), [(RealVar 0 "x" None None, 2%Q)])
  /\ setCoefficient (@RealVar unit 0 "toString" None None) 5%Q []
     = (Err (mismatch "toString"), [])
  /\ (exists this',
        setCoefficient (RealVar 0 "x" None None) 5%Q
                       [(@RealVar unit 0 "x" None None, 2%Q)] = (Ok tt, this')
        /\ entry this' "x" = Some (RealVar 0 "x" None None, 5%Q))
  /\ (exists this',
        setCoefficient (@RealVar unit 0 "y" None None) 5%Q [] = (Ok tt, this')
        /\ entry this' "y" = Some (RealVar 0 "y" None None, 5%Q)).
Proof.
  split; [|split; [|split]].
  - apply (proj1 (setCoefficient_collision_or_overwrite
                    [(@RealVar unit 0 "x" None None, 2%Q)]
                    (RealVar 1 "x" None None) 5%Q)
                 (RealVar 0 "x" None None) 2%Q).
    + reflexivity.
    + cbn; lia.
  - apply (proj1 (proj2 (setCoefficient_collision_or_overwrite
                    [] (@RealVar unit 0 "toString" None None) 5%Q)));
      reflexivity.
  - destruct (proj1 (proj2 (proj2 (setCoefficient_collision_or_overwrite
                    [(@RealVar unit 0 "x" None None, 2%Q)]
                    (RealVar 0 "x" None None) 5%Q))))
      as (this' & H1 & H2 & _).
    + right. exists (RealVar 0 "x" None None), 2%Q. split; reflexivity.
    + exists this'. split; assumption.
  - destruct (proj1 (proj2 (proj2 (setCoefficient_collision_or_overwrite
                    [] (@RealVar unit 0 "y" None None) 5%Q))))
      as (this' & H1 & H2 & _).
    + left. split; reflexivity.
    + exists this'. split; assumption.
Defined.

(** ** [saturate] *)

Section Saturate.
Context {T : Type}.
Implicit Types (objective : LinExpr T) (constraints : list (Constraint T)).

Lemma saturate_unfold objective constraints :
  saturate objective constraints =
  (acc <- setEach (fun _ => 0%Q) (flat_map terms constraints) [] ;;
   setEach snd objective acc).
Proof.
  unfold saturate, setEach, getVarCoefficients.
  now rewrite (foldM_flat_map (fun acc (e : Var T * Q) => set acc (fst e) 0%Q) terms).
Qed.

Lemma in_flat_terms constraints (x : Var T * Q) :
  In x (flat_map terms constraints) <->
  exists c, In c constraints /\ In x (terms c).
Proof. apply in_flat_map. Qed.

Lemma in_names_flat_terms constraints n :
  In n (names (flat_map terms constraints)) <->
  exists c, In c constraints /\ In n (names (terms c)).
Proof.
  unfold names; rewrite in_map_iff; split.
  - intros (x & <- & Hx). apply in_flat_terms in Hx as (c & Hc & Hx).
    exists c; split; [assumption|]. apply in_map_iff; eauto.
  - intros (c & Hc & Hn). apply in_map_iff in Hn as (x & <- & Hx).
    exists x; split; [reflexivity|]. apply in_flat_terms; eauto.
Qed.

Lemma in_vars_flat_terms constraints (v : Var T) :
  In v (vars (flat_map terms constraints)) <->
  exists c, In c constraints /\ In v (vars (terms c)).
Proof.
  unfold vars; rewrite in_map_iff; split.
  - intros (x & <- & Hx). apply in_flat_terms in Hx as (c & Hc & Hx).
    exists c; split; [assumption|]. apply in_map_iff; eauto.
  - intros (c & Hc & Hn). apply in_map_iff in Hn as (x & <- & Hx).
    exists x; split; [reflexivity|]. apply in_flat_terms; eauto.
Qed.

Lemma saturate_proper objective constraints (newObjective : LinExpr T) :
  saturate objective constraints = Ok newObjective ->
  forall n, In n (names newObjective) -> inherited n = false.
Proof.
  rewrite saturate_unfold. intros H. bind_ok H acc Hacc.
  apply (setEach_proper _ _ _ _ H). apply (setEach_proper _ _ _ _ Hacc).
  intros n [].
Qed.

(** What [saturate] returns, on a model with one instance per name and
    no name of [Object.prototype]. *)
Lemma saturate_returns objective constraints :
  NoDup (names objective) ->
  oneInstancePerName objective constraints ->
  noInheritedName objective constraints ->
  exists newObjective,
    saturate objective constraints = Ok newObjective
    /\ NoDup (names newObjective)
    /\ (forall n, In n (names newObjective) <->
                  In n (names objective)
                  \/ exists c, In c constraints /\ In n (names (terms c)))
    /\ (forall v, In v (vars newObjective) ->
                  occursIn objective constraints v)
    /\ (forall v c, In (v, c) objective -> In (v, c) newObjective)
    /\ (forall v c, In (v, c) newObjective ->
                    ~ In (name v) (names objective) -> c = 0%Q).
Proof.
  intros Hnd Hone Hown. rewrite saturate_unfold.
  destruct (setEach_returns (fun _ => 0%Q) (flat_map terms constraints) [])
    as (acc & Hacc).
  { intros v Hv. apply Hown. right. now apply in_vars_flat_terms. }
  { cbn. intros v w Hv Hw. apply Hone; right; now apply in_vars_flat_terms. }
  rewrite Hacc; cbn [bind].
  destruct (setEach_Ok_inv _ _ _ _ Hacc (NoDup_nil _))
    as (Hnd1 & Hnames1 & Hent1 & _).
  assert (Hocc1 : forall v, In v (vars acc) -> occursIn objective constraints v).
  { intros v Hv. apply in_map_iff in Hv as (x & <- & Hx).
    apply Hent1 in Hx as [[]|(y & Hy & ->)]. right; cbn.
    apply in_vars_flat_terms, in_map_iff; eauto. }
  destruct (setEach_returns snd objective acc) as (acc' & Hacc').
  { intros v Hv. apply Hown. now left. }
  { intros v w Hv Hw. apply Hone.
    - apply in_app_iff in Hv as [Hv|Hv]; [auto|now left].
    - apply in_app_iff in Hw as [Hw|Hw]; [auto|now left]. }
  exists acc'. split; [assumption|].
  destruct (setEach_Ok_inv _ _ _ _ Hacc' Hnd1) as (Hnd2 & Hnames2 & Hent2 & _).
  split; [assumption|]. split; [|split; [|split]].
  - intros n. rewrite Hnames2, Hnames1, in_names_flat_terms. cbn. tauto.
  - intros v Hv. apply in_map_iff in Hv as (x & <- & Hx).
    apply Hent2 in Hx as [Hx|(y & Hy & ->)].
    + apply Hocc1, in_map_iff; eauto.
    + left; apply in_map_iff; exists y; auto.
  - intros v c Hin. apply (setEach_overlay _ _ _ _ Hacc' Hnd (v, c) Hin).
  - intros v c Hin Hfresh. apply Hent2 in Hin as [Hin|(y & Hy & Heq)].
    + apply Hent1 in Hin as [[]|(y & Hy & Heq)]. now inv Heq.
    + exfalso; apply Hfresh. inv Heq. apply in_map_iff; eauto.
Qed.

End Saturate.

(** C7, as stated, at two constraints that hold distinct instances under
    one name: [saturate] throws, it returns no expression. *)
Lemma saturate_name_clash :
  saturate clashObjective clashConstraints = Err (mismatch "x")
  /\ ~ exists newObjective,
         saturate clashObjective clashConstraints = Ok newObjective.
Proof.
  split; [reflexivity|]. intros (e & H). discriminate H.
Qed.

(** C7, amended.  On an objective and a constraint list in which no two
    distinct instances share a name and no variable carries a name of
    [Object.prototype], [saturate] returns a new expression whose names
    are exactly those of the constraints and of the objective, every
    variable of which is one of theirs; a variable not named in the
    objective has coefficient 0 and every term of the objective keeps
    its coefficient. *)
Theorem saturate_union {T : Type} (objective : LinExpr T)
        (constraints : list (Constraint T)) :
  NoDup (names objective) ->
  oneInstancePerName objective constraints ->
  noInheritedName objective constraints ->
  exists newObjective,
    saturate objective constraints = Ok newObjective
    /\ (forall n, In n (names newObjective) <->
                  In n (names objective)
                  \/ exists c, In c constraints /\ In n (names (terms c)))
    /\ (forall v, In v (vars newObjective) ->
                  occursIn objective constraints v)
    /\ (forall v c, In (v, c) newObjective ->
                    ~ In (name v) (names objective) -> c = 0%Q)
    /\ (forall v c, In (v, c) objective -> In (v, c) newObjective).
Proof.
  intros Hnd Hone Hown.
  destruct (saturate_returns objective constraints Hnd Hone Hown)
    as (e & H & _ & Hn & Ho & Hk & Hz).
  exists e; repeat split; auto; apply Hn.
Qed.

Lemma names_vars {T : Type} (e : LinExpr T) : names e = map name (vars e).
Proof. unfold names, vars. now rewrite map_map. Qed.

(** ** [exportAsLP] *)

Lemma append_assoc (a b c : string) : (a +++ b) +++ c = a +++ b +++ c.
Proof. induction a as [|x a IH]; cbn; [reflexivity|now rewrite IH]. Qed.

Lemma append_nil_r (a : string) : a +++ "" = a.
Proof. induction a as [|x a IH]; cbn; [reflexivity|now rewrite IH]. Qed.

Lemma append_nil_l (a : string) : "" +++ a = a.
Proof. reflexivity. Qed.

Ltac flatten_text :=
  repeat (rewrite append_assoc || rewrite append_nil_r || rewrite append_nil_l).

Section ExportFacts.
Context {T : Type}.
Variable show : Q -> string.

Lemma termToString_text (x : Var T * Q) (i : nat) :
  term_text show (i =? 0) x (termToString show x i).
Proof.
  destruct x as [v c]. unfold termToString, Qltb; cbn [fst snd].
  destruct (Qle_bool 0 c) eqn:Hle; cbn [negb].
  - apply Qle_bool_iff in Hle.
    destruct (Qeq_bool (Qabs c) 1) eqn:Heq.
    + apply Qeq_bool_iff in Heq. rewrite (Qabs_pos c Hle) in Heq.
      destruct (i =? 0); cbn; now constructor.
    + apply Qeq_bool_neq in Heq. rewrite (Qabs_pos c Hle) in Heq.
      destruct (i =? 0); cbn [String.append]; rewrite ?append_assoc;
        now constructor.
  - assert (Hlt : (c < 0)%Q).
    { apply Qnot_le_lt. intros H. apply Qle_bool_iff in H. congruence. }
    destruct (Qeq_bool (Qabs c) 1) eqn:Heq.
    + apply Qeq_bool_iff in Heq.
      rewrite (Qabs_neg c (Qlt_le_weak _ _ Hlt)) in Heq.
      cbn. apply term_minus_one. rewrite <- Heq. symmetry; apply Qopp_involutive.
    + apply Qeq_bool_neq in Heq. rewrite ?append_assoc.
      apply term_negative; [assumption|].
      intros H. apply Heq. rewrite (Qabs_neg c (Qlt_le_weak _ _ Hlt)), H.
      reflexivity.
Qed.

Lemma mapi_from_terms_text (e : LinExpr T) (i : nat) :
  terms_text show (i =? 0) e
             (String.concat " " (mapi_from i (termToString show) e)).
Proof.
  revert i; induction e as [|x e IH]; intros i; cbn.
  - constructor.
  - destruct e as [|y e].
    + cbn. constructor. apply termToString_text.
    + specialize (IH (S i)). cbn in IH |- *.
      constructor; [apply termToString_text | exact IH].
Qed.

Lemma toString_text (e : LinExpr T) : terms_text show true e (toString show e).
Proof. apply (mapi_from_terms_text e 0). Qed.

Lemma toLP_line (c : Constraint T) :
  constraint_line show c (toLP show c +++ ";" +++ newline).
Proof.
  exists (toString show (terms c)). split; [apply toString_text|].
  unfold toLP, constraintToString.
  destruct (String.eqb (cname c) ""), (clowerBound c), (cupperBound c);
    flatten_text; reflexivity.
Qed.

(** [toConstraint] sets the variable in a new constraint: it throws for a
    name of [Object.prototype] and returns the bound otherwise. *)
Lemma toConstraint_outcome (v : Var T) :
  toConstraint v
  = if inherited (name v) then Err (mismatch (name v)) else Ok (boundOf v).
Proof.
  unfold toConstraint, setC, set, setCoefficient, checkVar, newConstraint.
  cbn [terms entry find]. now destruct (inherited (name v)).
Qed.

Lemma bounds_loop (l : list (Var T)) (acc : list (Constraint T)) :
  (forall v, In v l -> inherited (name v) = false) ->
  foldM (fun acc v => c <- toConstraint v ;; Ok (acc ++ [c])) l acc
  = Ok (acc ++ map boundOf l).
Proof.
  revert acc; induction l as [|v l IH]; intros acc Hl; cbn [foldM map].
  - now rewrite app_nil_r.
  - rewrite toConstraint_outcome, (Hl v (or_introl eq_refl)); cbn [bind].
    rewrite IH by (intros w Hw; apply Hl; now right).
    now rewrite <- app_assoc.
Qed.

Lemma footer_declarations (bins ints : list (Var T)) :
  (let footer := "" in
   let footer :=
     if negb (List.length bins =? 0)
     then footer +++ "bin " +++ String.concat ", " (map name bins) +++ ";" +++ newline
     else footer in
   if negb (List.length ints =? 0)
   then footer +++ "int " +++ String.concat ", " (map name ints) +++ ";" +++ newline
   else footer)
  = declaration "bin" bins +++ declaration "int" ints.
Proof.
  destruct bins, ints; cbn [List.length Nat.eqb negb declaration];
    flatten_text; reflexivity.
Qed.

(** C8, amended.  Whenever [saturate] returns (no two distinct instances
    share a name), [exportAsLP] returns exactly: the line
    [minimize: <terms>;] of the given objective; one line per constraint,
    first the bound constraint [c[<name>]] generated for each bounded
    non-boolean variable of the saturated objective, then the given
    constraints, each [<name>: [<lower> <=] <terms> [<= <upper>];] with
    the name part left out for an empty name; an empty line; the [bin]
    and [int] declarations of the boolean and integer variables, each
    only when there is one.  In the terms a coefficient 1 is left out,
    -1 is a bare minus, successive terms are joined by [+ ] or [- ], and
    the first term has no [+ ] in front of it but keeps its [- ] when it
    is negative. *)
Theorem exportAsLP_format (objective : LinExpr T)
        (constraints : list (Constraint T)) (newObjective : LinExpr T) :
  saturate objective constraints = Ok newObjective ->
  exists text o lines,
    exportAsLP show objective constraints = Ok text
    /\ terms_text show true objective o
    /\ Forall2 (constraint_line show)
               (map boundOf (filter bounded (vars newObjective)) ++ constraints)
               lines
    /\ text = "minimize: " +++ o +++ ";" +++ newline
              +++ String.concat "" lines
              +++ newline
              +++ declaration "bin" (filter isBool (vars newObjective))
              +++ declaration "int" (filter isInt (vars newObjective)).
Proof.
  intros Hsat. unfold exportAsLP. rewrite Hsat; cbn [bind].
  unfold getVarCoefficients. fold (vars newObjective).
  rewrite bounds_loop; cbn [bind app].
  2:{ intros v Hv. apply filter_In in Hv as (Hv & _).
      apply filter_In in Hv as (Hv & _).
      apply (saturate_proper _ _ _ Hsat). rewrite names_vars.
      now apply in_map. }
  assert (Hf : filter (fun v : Var T => isSome (lowerBound v) || isSome (upperBound v))
                      (filter (fun v => negb (isBool v)) (vars newObjective))
               = filter bounded (vars newObjective)).
  { induction (vars newObjective) as [|v l IH]; cbn; [reflexivity|].
    unfold bounded at 1. destruct (isBool v); cbn; [exact IH|].
    destruct (isSome (lowerBound v) || isSome (upperBound v)); cbn; now rewrite IH. }
  rewrite Hf.
  eexists _, (toString show objective),
    (map (fun c => toLP show c +++ ";" +++ newline)
         (map boundOf (filter bounded (vars newObjective)) ++ constraints)).
  split; [reflexivity|]. split; [apply toString_text|]. split.
  - induction (map boundOf (filter bounded (vars newObjective)) ++ constraints)
      as [|c l IH]; cbn; constructor; [apply toLP_line | exact IH].
  - rewrite footer_declarations. reflexivity.
Qed.

End ExportFacts.

(** ** Names of the variables [makeLP] creates *)

Import scheduling.

Lemma uint_all_digits (d : Decimal.uint) :
  all_digits (NilEmpty.string_of_uint d) = true.
Proof. induction d; cbn; auto. Qed.

Lemma show_nat_digits (n : nat) : all_digits (show_nat n) = true.
Proof. apply uint_all_digits. Qed.

Lemma show_nat_inj (n m : nat) : show_nat n = show_nat m -> n = m.
Proof.
  unfold show_nat; intros H.
  assert (Hu : Nat.to_uint n = Nat.to_uint m).
  { apply (f_equal NilEmpty.uint_of_string) in H.
    rewrite !NilEmpty.usu in H. now inv H. }
  apply (f_equal Nat.of_uint) in Hu. now rewrite !Unsigned.of_to in Hu.
Qed.

(** Two texts made of digits and followed by punctuation agree only when
    the digits and what follows agree. *)
Lemma digits_split (s1 s2 : string) (c1 c2 : ascii) (r1 r2 : string) :
  all_digits s1 = true -> all_digits s2 = true ->
  is_digit c1 = false -> is_digit c2 = false ->
  s1 +++ String c1 r1 = s2 +++ String c2 r2 ->
  s1 = s2 /\ c1 = c2 /\ r1 = r2.
Proof.
  revert s2; induction s1 as [|x s1 IH]; intros [|y s2] H1 H2 Hc1 Hc2 H; cbn in *.
  - injection H as -> ->. auto.
  - injection H as -> _. apply andb_prop in H2 as [H2 _]. congruence.
  - injection H as -> _. apply andb_prop in H1 as [H1 _]. congruence.
  - injection H as -> H. apply andb_prop in H1 as [_ H1].
    apply andb_prop in H2 as [_ H2].
    destruct (IH s2 H1 H2 Hc1 Hc2 H) as (-> & -> & ->). auto.
Qed.

Ltac split_digits H Hd :=
  apply digits_split in H as (Hd & _ & H);
  [apply show_nat_inj in Hd | apply show_nat_digits | apply show_nat_digits
   | reflexivity | reflexivity].

Lemma candidateName_inj (r a b r' a' b' : nat) :
  candidateName r a b = candidateName r' a' b' -> r = r' /\ a = a' /\ b = b'.
Proof.
  unfold candidateName; cbn [String.append]; intros H.
  injection H as H. split_digits H Hr.
  injection H as H. split_digits H Ha.
  injection H as H. split_digits H Hb.
  auto.
Qed.

Lemma timeName_inj (r r' : nat) : timeName r = timeName r' -> r = r'.
Proof.
  unfold timeName; cbn [String.append]; intros H.
  injection H as H. split_digits H Hr. exact Hr.
Qed.

Lemma timeName_not_candidate (r r' a b : nat) :
  timeName r <> candidateName r' a b.
Proof. unfold timeName, candidateName; cbn [String.append]; discriminate. Qed.

(** The names [makeLP] generates are none of [Object.prototype]. *)
Lemma candidateName_own (r a b : nat) : inherited (candidateName r a b) = false.
Proof. reflexivity. Qed.

Lemma timeName_own (r : nat) : inherited (timeName r) = false.
Proof. reflexivity. Qed.

(** ** Updates inside arrays and tables *)

Lemma replace_length {A : Type} (i : nat) (x : A) (arr : list A) :
  List.length (replace i x arr) = List.length arr.
Proof.
  revert i; induction arr as [|y arr IH]; intros [|i]; cbn; auto.
Qed.

Lemma replace_Forall {A : Type} (P : A -> Prop) (i : nat) (x : A) (arr : list A) :
  Forall P arr -> P x -> Forall P (replace i x arr).
Proof.
  intros H Hx; revert i; induction H as [|y arr Hy H IH]; intros [|i]; cbn;
    auto.
Qed.

Lemma replace_nth_error {A : Type} (i j : nat) (x : A) (arr : list A) :
  nth_error (replace i x arr) j =
  if (j =? i) && (i <? List.length arr) then Some x else nth_error arr j.
Proof.
  revert i j; induction arr as [|y arr IH]; intros [|i] [|j]; cbn;
    rewrite ?andb_false_r; auto.
Qed.

Section Containers.
Context {A : Type}.

Lemma at_index_keeps (P : A -> Prop) (arr : list A) (i : nat)
      (m : A -> result A) :
  Forall P arr -> i < List.length arr ->
  (forall x, P x -> exists x', m x = Ok x' /\ P x') ->
  exists arr', at_index arr i m = Ok arr'
               /\ Forall P arr' /\ List.length arr' = List.length arr.
Proof.
  intros HP Hi Hm. unfold at_index.
  destruct (nth_error arr i) as [x|] eqn:Hx.
  - assert (Px : P x).
    { rewrite Forall_forall in HP. apply HP. eapply nth_error_In; eauto. }
    destruct (Hm x Px) as (x' & -> & Px'); cbn.
    eexists; split; [reflexivity|]. split.
    + now apply replace_Forall.
    + apply replace_length.
  - apply nth_error_None in Hx. lia.
Qed.

Lemma at_index_opt_keeps (P : option A -> Prop) (arr : list (option A))
      (i : nat) (m : A -> result A) :
  Forall P arr ->
  (forall x, P (Some x) -> exists x', m x = Ok x' /\ P (Some x')) ->
  exists arr', at_index_opt arr i m = Ok arr'
               /\ Forall P arr' /\ List.length arr' = List.length arr.
Proof.
  intros HP Hm. unfold at_index_opt.
  destruct (nth_error arr i) as [[x|]|] eqn:Hx; eauto.
  assert (Px : P (Some x)).
  { rewrite Forall_forall in HP. apply HP. eapply nth_error_In; eauto. }
  destruct (Hm x Px) as (x' & -> & Px'); cbn.
  eexists; split; [reflexivity|]. split.
  - now apply replace_Forall.
  - apply replace_length.
Qed.

Lemma lookup_Some (r : list (string * A)) (key : string) (x : A) :
  lookup r key = Some x -> In (key, x) r.
Proof.
  unfold lookup. destruct (find _ r) as [[k y]|] eqn:Hf; cbn; [|discriminate].
  intros H; inv H. apply find_some in Hf as [Hin Hk]; cbn in Hk.
  apply String.eqb_eq in Hk; now subst.
Qed.

Lemma lookup_None (r : list (string * A)) (key : string) :
  lookup r key = None <-> ~ In key (map fst r).
Proof.
  unfold lookup; split.
  - destruct (find _ r) as [e|] eqn:Hf; cbn; [discriminate|]. intros _ Hin.
    apply in_map_iff in Hin as (e & <- & Hin).
    pose proof (find_none _ _ Hf e Hin) as Hn; cbn in Hn.
    now rewrite String.eqb_refl in Hn.
  - intros H. destruct (find _ r) as [e|] eqn:Hf; cbn; [|reflexivity].
    apply find_some in Hf as [Hin Hk]. apply String.eqb_eq in Hk.
    exfalso; apply H, in_map_iff; eauto.
Qed.

Lemma assign_keys (r : list (string * A)) (key : string) (x : A) (k : string) :
  In k (map fst (assign r key x)) <-> In k (map fst r) \/ k = key.
Proof.
  induction r as [|[k' y] r IH]; cbn.
  - intuition.
  - destruct (String.eqb_spec k' key) as [->|Hne]; cbn.
    + intuition.
    + rewrite IH; intuition.
Qed.

Lemma assign_Forall (P : string * A -> Prop) (r : list (string * A))
      (key : string) (x : A) :
  Forall P r -> P (key, x) -> Forall P (assign r key x).
Proof.
  intros H Hx; induction H as [|[k y] r Hy H IH]; cbn; auto.
  destruct (String.eqb k key); auto.
Qed.

Lemma append_Forall (P : A -> Prop) (truthyA : A -> bool) (dest : list A)
      (source : list (option A)) :
  Forall P dest ->
  Forall (fun o => match o with Some x => P x | None => True end) source ->
  Forall P (append truthyA dest source).
Proof.
  intros Hd Hs; revert dest Hd; induction Hs as [|[x|] source Hx Hs IH];
    intros dest Hd; cbn; auto.
  destruct (truthyA x); apply IH; auto. apply Forall_app; auto.
Qed.

Lemma mapi_from_length {B : Type} (f : A -> nat -> B) (l : list A) (i : nat) :
  List.length (mapi_from i f l) = List.length l.
Proof. revert i; induction l; intros i; cbn; auto. Qed.

Lemma mapi_from_Forall {B : Type} (P : B -> Prop) (f : A -> nat -> B)
      (l : list A) (i : nat) :
  (forall x j, P (f x j)) -> Forall P (mapi_from i f l).
Proof. intros H; revert i; induction l; intros i; cbn; auto. Qed.

Lemma mapi_from_app {B : Type} (f : A -> nat -> B) (l1 l2 : list A) (i : nat) :
  mapi_from i f (l1 ++ l2)
  = mapi_from i f l1 ++ mapi_from (i + List.length l1) f l2.
Proof.
  revert i; induction l1 as [|x l1 IH]; intros i; cbn.
  - now rewrite Nat.add_0_r.
  - rewrite IH. do 3 f_equal. lia.
Qed.

End Containers.

Lemma at_key_keeps {A : Type} (P : option A -> Prop)
      (r : list (string * list (option A))) (key : string) (i : nat)
      (m : A -> result A) :
  Forall (fun kv => Forall P (snd kv)) r ->
  lookup r key <> None \/ inherited key = true ->
  (forall x, P (Some x) -> exists x', m x = Ok x' /\ P (Some x')) ->
  exists r', at_key r key i m = Ok r'
             /\ Forall (fun kv => Forall P (snd kv)) r'
             /\ forall k, lookup r' k = None <-> lookup r k = None.
Proof.
  intros HP Hk Hm. unfold at_key.
  destruct (lookup r key) as [arr|] eqn:Hx.
  - assert (Parr : Forall P arr).
    { rewrite Forall_forall in HP. apply (HP (key, arr)). now apply lookup_Some. }
    destruct (at_index_opt_keeps P arr i m Parr Hm) as (arr' & -> & Parr' & _).
    cbn [bind]. eexists; split; [reflexivity|]. split.
    + now apply assign_Forall.
    + intros k. rewrite !lookup_None, assign_keys.
      assert (In key (map fst r)).
      { apply lookup_Some in Hx. apply in_map_iff. exists (key, arr); auto. }
      split; [tauto|]. intros Hn [Hin| ->]; tauto.
  - destruct Hk as [Hk|Hk]; [congruence|]. rewrite Hk.
    exists r. repeat split; auto.
Qed.


(** ** The tables of [makeLP] *)

Lemma NoDup_map_inj {A B : Type} (f : A -> B) (l : list A) :
  NoDup (map f l) -> forall x y, In x l -> In y l -> f x = f y -> x = y.
Proof.
  induction l as [|z l IH]; cbn; intros H x y Hx Hy Hf; [contradiction|].
  inv H. destruct Hx as [<-|Hx], Hy as [<-|Hy]; auto.
  - exfalso; apply H2. rewrite Hf. now apply in_map.
  - exfalso; apply H2. rewrite <- Hf. now apply in_map.
Qed.

Section MakeLPFacts.
Variable input : Input.

Local Abbreviation R := (numRiders input).
Local Abbreviation slots := (numTimeSlices input).

Lemma registry_of_objective (e : LinExpr AuxData) :
  NoDup (names e) -> registry (vars e).
Proof. unfold registry. rewrite names_vars. apply NoDup_map_inj. Qed.

Lemma setC_keeps (G : list (Var AuxData)) (c : CConstraint)
      (v : Var AuxData) (n : Q) :
  registry G -> In v G -> inherited (name v) = false -> within G c ->
  exists c', setC c v n = Ok c' /\ within G c'.
Proof.
  intros HG Hv Hp Hc. unfold setC. rewrite set_returns; cbn.
  - eexists; split; [reflexivity|]. unfold within; cbn.
    intros x Hx. apply in_map_iff in Hx as (y & <- & Hy).
    apply store_In in Hy as [-> |Hy]; [assumption|].
    apply Hc, in_map_iff; eauto.
  - exact Hp.
  - intros w d Hin Hn. f_equal. apply HG; auto.
    apply Hc, in_map_iff. exists (w, d); auto.
Qed.

Lemma setC_keeps_opt (G : list (Var AuxData)) (v : Var AuxData) (n : Q) :
  registry G -> In v G -> inherited (name v) = false ->
  forall c, owithin G (Some c) ->
            exists c', setC c v n = Ok c' /\ owithin G (Some c').
Proof. intros HG Hv Hp c Hc. now apply setC_keeps. Qed.

Lemma Within_mono (G G' : list (Var AuxData)) (st : Tables) :
  incl G G' -> Within G st -> Within G' st.
Proof.
  intros Hi (H1 & H2 & H3 & H4).
  assert (Hw : forall c, within G c -> within G' c).
  { intros c Hc x Hx. apply Hi, Hc, Hx. }
  assert (Ho : forall c, owithin G c -> owithin G' c).
  { intros [c|]; cbn; auto. }
  repeat split.
  - eapply Forall_impl; [exact Hw|exact H1].
  - eapply Forall_impl; [exact Ho|exact H2].
  - eapply Forall_impl; [|exact H3]. intros kv Hkv.
    eapply Forall_impl; [exact Ho|exact Hkv].
  - eapply Forall_impl; [|exact H4]. intros row Hrow.
    eapply Forall_impl; [exact Ho|exact Hrow].
Qed.

Lemma cover_keeps (G : list (Var AuxData)) (r : nat) (v : Var AuxData)
      (st : Tables) (t : nat) :
  registry G -> In v G -> inherited (name v) = false -> r < R ->
  Shape input st -> Within G st ->
  exists st', cover input r v st t = Ok st'
              /\ Shape input st' /\ Within G st' /\ sameHead st st'.
Proof.
  intros HG Hv Hp Hr (S1 & S2 & S3) (W1 & W2 & W3 & W4). unfold cover.
  destruct (at_index_opt_keeps (owithin G) (haveEnoughRiders st) t
              (fun c => setC c v 1%Q) W2 (setC_keeps_opt G v 1%Q HG Hv Hp))
    as (her & -> & Hher & _); cbn [bind].
  destruct (at_key_keeps (owithin G) (haveEnoughRidersOfType st)
              (riderTypeAt input r) t (fun c => setC c v 1%Q) W3
              (S3 r Hr) (setC_keeps_opt G v 1%Q HG Hv Hp))
    as (hert & -> & Hhert & Hkeys); cbn [bind].
  destruct (at_index_keeps (Forall (owithin G)) (disjointAllocations st) r
              (fun row => at_index_opt row t (fun c => setC c v 1%Q)) W4)
    as (dis & -> & Hdis & Hlen); cbn [bind].
  { lia. }
  { intros arr Harr.
    destruct (at_index_opt_keeps (owithin G) arr t (fun c => setC c v 1%Q)
                Harr (setC_keeps_opt G v 1%Q HG Hv Hp)) as (arr' & E & H' & _).
    eauto. }
  eexists; split; [reflexivity|]. repeat split; cbn; auto; try lia.
  intros r' Hr'. destruct (S3 r' Hr') as [Hn|Hn]; [left|now right].
  intros Hn'. apply Hkeys in Hn'. exact (Hn Hn').
Qed.

Lemma candidate_keeps (r a b : nat) (d : Q) (st : Tables) :
  let v := candidateVar (next_ref st) (mkAuxData r a b) in
  r < R ->
  Shape input st -> Within (vars (objective st)) st ->
  NoDup (names (objective st) ++ [name v]) ->
  exists st', candidate input r a b d st = Ok st'
              /\ Shape input st'
              /\ Within (vars (objective st')) st'
              /\ objective st' = objective st ++ [(v, 1%Q)]
              /\ next_ref st' = S (next_ref st)
              /\ timeCoefficient st' = (timeCoefficient st + 1)%Q.
Proof.
  intros v Hr HS HW Hnd. unfold candidate. fold v.
  assert (Hfresh : ~ In (name v) (names (objective st))).
  { intros Hin. apply NoDup_remove_2 in Hnd. apply Hnd.
    rewrite app_nil_r. exact Hin. }
  assert (Hp : inherited (name v) = false) by apply candidateName_own.
  assert (Hset : set (objective st) v 1%Q = Ok (objective st ++ [(v, 1%Q)])).
  { rewrite set_returns, store_fresh; auto.
    intros w c Hin Hn. exfalso; apply Hfresh. rewrite <- Hn.
    apply in_map_iff. exists (w, c); auto. }
  rewrite Hset; cbn [bind].
  set (G := vars (objective st ++ [(v, 1%Q)])).
  assert (HG : registry G).
  { apply registry_of_objective. unfold names in *. rewrite map_app. exact Hnd. }
  assert (Hv : In v G).
  { unfold G, vars. rewrite map_app. apply in_app_iff; right; now left. }
  assert (HW' : Within G st).
  { eapply Within_mono; [|exact HW]. unfold G, vars. rewrite map_app.
    apply incl_appl, incl_refl. }
  destruct HS as (S1 & S2 & S3). destruct HW' as (W1 & W2 & W3 & W4).
  destruct (at_index_keeps (within G) (timeCounted st) r
              (fun c => setC c v (- d)%Q) W1) as (tc & -> & Htc & Hlen);
    cbn [bind].
  { lia. }
  { intros c Hc. now apply setC_keeps. }
  match goal with
  | |- context [foldM ?f ?l ?s] =>
      destruct (foldM_invariant
                  (fun st' => Shape input st' /\ Within G st' /\ sameHead s st')
                  (fun _ => True) f l s) as (st' & -> & HS' & HW' & Hh)
  end.
  { intros s x (HS0 & HW0 & Hh0) _.
    destruct (cover_keeps G r v s x HG Hv Hp Hr HS0 HW0)
      as (s' & E & HS1 & HW1 & Hh1).
    exists s'. repeat split; auto; try apply HS1; try apply HW1;
      destruct Hh0 as (? & ? & ? & ?), Hh1 as (? & ? & ? & ?); congruence. }
  { apply Forall_forall; auto. }
  { repeat split; cbn; auto; lia. }
  cbn [bind]. destruct Hh as (E1 & E2 & E3 & E4); cbn in E1, E2, E3, E4.
  eexists; split; [reflexivity|]. cbn.
  destruct HS' as (? & ? & ?), HW' as (? & ? & ? & ?).
  rewrite E2. fold G. repeat split; auto; congruence.
Qed.

(** *** The first loops: the candidates *)

Lemma candName_inj (x y : AuxData) : candName x = candName y -> x = y.
Proof.
  destruct x, y; unfold candName; cbn; intros H.
  apply candidateName_inj in H as (-> & -> & ->). reflexivity.
Qed.

Lemma names_candidateTerms (n : nat) (L : list AuxData) :
  names (candidateTerms n L) = map candName L.
Proof.
  unfold candidateTerms, names. revert n; induction L as [|x L IH]; intros n;
    cbn; [reflexivity|]. now rewrite IH.
Qed.

Lemma NoDup_candNames (L : list AuxData) : NoDup L -> NoDup (map candName L).
Proof.
  induction 1 as [|x L Hx H IH]; cbn; constructor; auto.
  intros Hin. apply in_map_iff in Hin as (y & Hy & Hin).
  apply candName_inj in Hy; subst. contradiction.
Qed.

Lemma Qnat_succ (k : nat) : (Qnat k + 1)%Q = Qnat (S k).
Proof.
  unfold Qnat, inject_Z, Qplus; cbn [Qnum Qden Pos.mul].
  f_equal. lia.
Qed.

Lemma extend_enumerates (r a : nat) (rest : list nat) :
  r < R ->
  forall (d : Q) (L : list AuxData) (st : Tables),
    afterCandidates input L st ->
    NoDup (L ++ enumExtend input r a rest d) ->
    exists st', extend input r a rest d st = Ok st'
                /\ afterCandidates input (L ++ enumExtend input r a rest d) st'.
Proof.
  intros Hr. induction rest as [|b rest IH]; intros d L st HL Hnd; cbn in *.
  - rewrite app_nil_r. eauto.
  - destruct (availableAt input b r); [|rewrite app_nil_r; eauto].
    destruct (Qle_bool (minDuration input) (jsPlus d (durationAt input b))).
    + destruct HL as (HS & HW & Hobj & Href & Hk).
      cbn [app] in Hnd.
      assert (Hnd1 : NoDup (L ++ [mkAuxData r a b])).
      { replace (L ++ mkAuxData r a b :: enumExtend input r a rest (jsPlus d (durationAt input b)))
          with ((L ++ [mkAuxData r a b]) ++ enumExtend input r a rest (jsPlus d (durationAt input b)))
          in Hnd by now rewrite <- app_assoc.
        eapply NoDup_app_remove_r; exact Hnd. }
      destruct (candidate_keeps r a b (jsPlus d (durationAt input b)) st Hr HS HW)
        as (st1 & -> & HS1 & HW1 & Hobj1 & Href1 & Hk1); cbn [bind].
      { rewrite Hobj, names_candidateTerms.
        change [name (candidateVar (next_ref st) (mkAuxData r a b))]
          with (map candName [mkAuxData r a b]).
        rewrite <- map_app. now apply NoDup_candNames. }
      assert (HL1 : afterCandidates input (L ++ [mkAuxData r a b]) st1).
      { repeat split; try apply HS1; try apply HW1.
        - rewrite Hobj1, Hobj. unfold candidateTerms.
          rewrite mapi_from_app; cbn. now rewrite Href.
        - rewrite Href1, Href, length_app; cbn; lia.
        - rewrite Hk1, Hk, Qnat_succ, length_app; cbn. f_equal; lia. }
      destruct (IH (jsPlus d (durationAt input b)) _ st1 HL1) as (st' & E & HL').
      { now rewrite <- app_assoc. }
      exists st'. split; [exact E|]. now rewrite <- app_assoc in HL'.
    + cbn [bind app]. apply IH; assumption.
Qed.

(** A loop whose body adds the candidates [g x] adds those of the whole
    list. *)
Lemma foldM_enumerates {A : Type} (f : Tables -> A -> result Tables)
      (g : A -> list AuxData) (D : A -> Prop) :
  (forall x L st, D x -> afterCandidates input L st -> NoDup (L ++ g x) ->
     exists st', f st x = Ok st' /\ afterCandidates input (L ++ g x) st') ->
  forall l, Forall D l ->
  forall L st, afterCandidates input L st -> NoDup (L ++ flat_map g l) ->
    exists st', foldM f l st = Ok st'
                /\ afterCandidates input (L ++ flat_map g l) st'.
Proof.
  intros step l Hl. induction Hl as [|x l Hx Hl IH]; intros L st HL Hnd; cbn in *.
  - rewrite app_nil_r. eauto.
  - rewrite app_assoc in Hnd.
    destruct (step x L st Hx HL) as (st1 & -> & HL1); cbn [bind].
    { eapply NoDup_app_remove_r; exact Hnd. }
    destruct (IH _ st1 HL1 Hnd) as (st' & E & HL').
    exists st'. split; [exact E|]. now rewrite app_assoc.
Qed.

Lemma forRider_enumerates (r : nat) (L : list AuxData) (st : Tables) :
  r < R -> afterCandidates input L st -> NoDup (L ++ enumRider input r) ->
  exists st', forRider input st r = Ok st'
              /\ afterCandidates input (L ++ enumRider input r) st'.
Proof.
  intros Hr. unfold forRider, enumRider.
  apply (foldM_enumerates (fromStart input r) (enumStart input r) (fun _ => True)).
  - intros a L0 st0 _ H0 Hnd. now apply extend_enumerates.
  - apply Forall_forall; auto.
Qed.

Lemma riders_enumerate (st : Tables) :
  afterCandidates input [] st -> NoDup (enumAll input) ->
  exists st', foldM (forRider input) (seq 0 R) st = Ok st'
              /\ afterCandidates input (enumAll input) st'.
Proof.
  intros H0 Hnd.
  apply (foldM_enumerates (forRider input) (enumRider input) (fun r => r < R)
           (fun r L st Hr => forRider_enumerates r L st Hr)
           (seq 0 R)) with (L := []); auto.
  apply Forall_forall. intros r Hr. apply in_seq in Hr. lia.
Qed.

(** *** Which ranges the enumeration reaches *)

Lemma NoDup_flat_map_keyed {A B : Type} (f : A -> list B) (key : B -> A)
      (l : list A) :
  NoDup l -> (forall x, NoDup (f x)) ->
  (forall x z, In z (f x) -> key z = x) ->
  NoDup (flat_map f l).
Proof.
  intros Hl Hf Hk. induction Hl as [|x l Hx Hl IH]; cbn; [constructor|].
  apply NoDup_app; auto.
  intros z Hz Hz'. apply in_flat_map in Hz' as (y & Hy & Hz').
  apply Hk in Hz, Hz'. congruence.
Qed.

Lemma enumExtend_In (r a : nat) (n : nat) :
  forall (s : nat) (d : Q) (aux : AuxData),
    In aux (enumExtend input r a (seq s n) d) <->
    rider aux = r /\ t1 aux = a /\ s <= t2 aux < s + n
    /\ (forall t, s <= t <= t2 aux -> availableAt input t r = true)
    /\ (minDuration input
        <= fold_left jsPlus (map (durationAt input) (seq s (S (t2 aux) - s))) d)%Q.
Proof.
  induction n as [|n IH]; intros s d aux; cbn [seq enumExtend].
  - split; [intros []|]. intros (_ & _ & H & _). lia.
  - destruct (availableAt input s r) eqn:Hav.
    + rewrite in_app_iff, IH. split.
      * intros [H|H].
        -- destruct (Qle_bool (minDuration input) (jsPlus d (durationAt input s))) eqn:Hle;
             [|contradiction].
           destruct H as [<-|[]]; cbn [rider t1 t2]. repeat split; try lia.
           ++ intros t Ht. assert (t = s) by lia. subst t. exact Hav.
           ++ replace (S s - s) with 1 by lia; cbn.
              now apply Qle_bool_iff.
        -- destruct H as (H1 & H2 & H3 & H4 & H5). repeat split; try lia.
           ++ intros t Ht. destruct (Nat.eq_dec t s) as [->|Hne]; [assumption|].
              apply H4; lia.
           ++ replace (S (t2 aux) - s) with (S (S (t2 aux) - S s)) by lia.
              exact H5.
      * intros (H1 & H2 & H3 & H4 & H5).
        destruct (Nat.eq_dec (t2 aux) s) as [Heq|Hne].
        -- left. rewrite Heq in H5. replace (S s - s) with 1 in H5 by lia.
           cbn in H5. apply Qle_bool_iff in H5. rewrite H5. left.
           destruct aux; cbn in *; congruence.
        -- right. repeat split; try lia.
           ++ intros t Ht; apply H4; lia.
           ++ replace (S (t2 aux) - s) with (S (S (t2 aux) - S s)) in H5 by lia.
              exact H5.
    + split; [intros []|]. intros (_ & _ & H3 & H4 & _).
      rewrite H4 in Hav by lia. discriminate.
Qed.

Lemma enumExtend_NoDup (r a : nat) (n : nat) :
  forall (s : nat) (d : Q), NoDup (enumExtend input r a (seq s n) d).
Proof.
  induction n as [|n IH]; intros s d; cbn [seq enumExtend]; [constructor|].
  destruct (availableAt input s r); [|constructor].
  apply NoDup_app; auto.
  - destruct (Qle_bool _ _); repeat constructor. intros [].
  - intros aux H1 H2. apply enumExtend_In in H2 as (_ & _ & H2 & _).
    destruct (Qle_bool _ _); [|contradiction].
    destruct H1 as [<-|[]]; cbn in H2. lia.
Qed.

Lemma enumAll_In (aux : AuxData) : In aux (enumAll input) <-> feasible input aux.
Proof.
  unfold enumAll, enumRider, enumStart, feasible, totalDuration.
  rewrite in_flat_map. split.
  - intros (r & Hr & H). apply in_flat_map in H as (a & Ha & H).
    apply in_seq in Hr, Ha. apply enumExtend_In in H as (H1 & H2 & H3 & H4 & H5).
    subst. repeat split; auto; try lia.
  - intros (H1 & H2 & H3 & H4). exists (rider aux). split; [apply in_seq; lia|].
    apply in_flat_map. exists (t1 aux). split; [apply in_seq; lia|].
    apply enumExtend_In. repeat split; auto; lia.
Qed.

Lemma enumAll_NoDup : NoDup (enumAll input).
Proof.
  unfold enumAll.
  apply (NoDup_flat_map_keyed (enumRider input) rider).
  - apply seq_NoDup.
  - intros r. unfold enumRider.
    apply (NoDup_flat_map_keyed (enumStart input r) t1).
    + apply seq_NoDup.
    + intros a. apply enumExtend_NoDup.
    + intros a z Hz. now apply enumExtend_In in Hz.
  - intros r z Hz. apply in_flat_map in Hz as (a & _ & Hz).
    now apply enumExtend_In in Hz.
Qed.

(** *** The assertions *)

Lemma validate_outcome :
  validate input = Ok tt \/ validate input = Err (Error None).
Proof.
  unfold validate, assert.
  repeat match goal with
         | |- context [if ?b then Ok tt else _] =>
             destruct b; cbn [bind]; auto
         end.
Qed.

Lemma validate_Ok :
  validate input = Ok tt ->
  List.length (duration input) = slots
  /\ (forall type counts, lookup (expectedOfType input) type = Some counts ->
                          List.length counts = slots)
  /\ List.length (riderType input) = R
  /\ List.length (available input) = slots
  /\ (forall row, In row (available input) -> List.length row = R)
  /\ (forall d, In d (duration input) -> (0 <= d)%Q)
  /\ (forall count, In count (expected input) ->
                    (0 <= count)%Q /\ (count <= Qnat R)%Q)
  /\ (forall type, In type (riderType input) ->
                   lookup (expectedOfType input) type <> None
                   \/ inherited type = true).
Proof.
  unfold validate, assert.
  repeat match goal with
         | |- context [if ?b then Ok tt else _] =>
             let E := fresh "E" in
             destruct b eqn:E; cbn [bind]; [|discriminate]
         end.
  intros _. rewrite forallb_forall in E1, E4, E6, E7, E8.
  apply Nat.eqb_eq in E, E2, E3.
  repeat split; auto.
  - intros type counts Hl. specialize (E1 type). rewrite Hl in E1.
    apply Nat.eqb_eq, E1. unfold types.
    apply lookup_Some in Hl. apply in_map_iff. exists (type, counts); auto.
  - intros row Hrow. apply Nat.eqb_eq. auto.
  - intros d Hd. apply Qle_bool_iff. auto.
  - apply E7 in H. apply andb_prop in H as [H _]. now apply Qle_bool_iff.
  - apply E7 in H. apply andb_prop in H as [_ H]. now apply Qle_bool_iff.
  - intros type Ht. apply E8 in Ht.
    destruct (lookup (expectedOfType input) type); [left; discriminate|now right].
Qed.

(** *** The second loop: the time variables *)

Lemma names_timeTerms (ref : nat) (K : Q) (k : nat) :
  names (timeTerms input ref K k) = map timeName (seq 0 k).
Proof. unfold names, timeTerms. now rewrite map_map. Qed.

Lemma all_names_NoDup (L : list AuxData) (k : nat) :
  NoDup L -> NoDup (map candName L ++ map timeName (seq 0 k)).
Proof.
  intros HL. apply NoDup_app.
  - now apply NoDup_candNames.
  - clear. induction k as [|k IH]; [constructor|].
    rewrite seq_S, map_app; cbn. apply NoDup_app; auto.
    + repeat constructor. intros [].
    + intros n Hn [<-|[]]. apply in_map_iff in Hn as (j & Hj & Hin).
      apply timeName_inj in Hj; subst. apply in_seq in Hin. lia.
  - intros n H1 H2. apply in_map_iff in H1 as (aux & <- & _).
    apply in_map_iff in H2 as (j & Hj & _).
    exact (timeName_not_candidate _ _ _ _ Hj).
Qed.

Lemma timeVar_keeps (r : nat) (st : Tables) :
  let v := timeVarOf input (next_ref st) r in
  r < R ->
  Shape input st -> Within (vars (objective st)) st ->
  NoDup (names (objective st) ++ [name v]) ->
  exists st', timeVar input st r = Ok st'
              /\ Shape input st'
              /\ Within (vars (objective st')) st'
              /\ objective st' = objective st ++ [(v, timeCoefficient st)]
              /\ next_ref st' = S (next_ref st)
              /\ timeCoefficient st' = timeCoefficient st.
Proof.
  intros v Hr HS HW Hnd. unfold timeVar. fold v.
  assert (Hfresh : ~ In (name v) (names (objective st))).
  { intros Hin. apply NoDup_remove_2 in Hnd. apply Hnd.
    rewrite app_nil_r. exact Hin. }
  assert (Hp : inherited (name v) = false) by apply timeName_own.
  assert (Hset : set (objective st) v (timeCoefficient st)
                 = Ok (objective st ++ [(v, timeCoefficient st)])).
  { rewrite set_returns, store_fresh; auto.
    intros w c Hin Hn. exfalso; apply Hfresh. rewrite <- Hn.
    apply in_map_iff. exists (w, c); auto. }
  rewrite Hset; cbn [bind].
  set (G := vars (objective st ++ [(v, timeCoefficient st)])).
  assert (HG : registry G).
  { apply registry_of_objective. unfold names in *. rewrite map_app. exact Hnd. }
  assert (Hv : In v G).
  { unfold G, vars. rewrite map_app. apply in_app_iff; right; now left. }
  assert (HW' : Within G st).
  { eapply Within_mono; [|exact HW]. unfold G, vars. rewrite map_app.
    apply incl_appl, incl_refl. }
  destruct HS as (S1 & S2 & S3). destruct HW' as (W1 & W2 & W3 & W4).
  destruct (at_index_keeps (within G) (timeCounted st) r
              (fun c => setC c v 1%Q) W1) as (tc & -> & Htc & Hlen);
    cbn [bind].
  { lia. }
  { intros c Hc. now apply setC_keeps. }
  eexists; split; [reflexivity|]. subst G. unfold vars in *.
  repeat split; cbn; auto; try lia.
Qed.

Lemma times_loop (st : Tables) (k : nat) :
  k <= R -> afterCandidates input (enumAll input) st ->
  exists st', foldM (timeVar input) (seq 0 k) st = Ok st' /\ afterTimes input k st'.
Proof.
  intros Hk (HS & HW & Hobj & Href & HK). induction k as [|k IH].
  - cbn. exists st. split; [reflexivity|]. unfold afterTimes, timeTerms; cbn.
    rewrite app_nil_r, Nat.add_0_r. auto.
  - destruct IH as (st1 & E1 & HS1 & HW1 & Hobj1 & Href1 & HK1); [lia|].
    rewrite seq_S, foldM_app, E1; cbn [bind foldM Nat.add].
    destruct (timeVar_keeps k st1) as (st' & -> & HS' & HW' & Hobj' & Href' & HK');
      auto; try lia.
    { rewrite Hobj1. unfold names. rewrite map_app. fold (names (candidateTerms 0 (enumAll input))).
      fold (names (timeTerms input (List.length (enumAll input))
                             (Qnat (List.length (enumAll input))) k)).
      rewrite names_candidateTerms, names_timeTerms, <- app_assoc.
      change [name (timeVarOf input (next_ref st1) k)] with (map timeName [k]).
      rewrite <- map_app, <- seq_S.
      apply all_names_NoDup, enumAll_NoDup. }
    exists st'. split; [reflexivity|]. repeat split; try apply HS'; try apply HW'.
    + rewrite Hobj', Hobj1, HK1, Href1. unfold timeTerms.
      rewrite seq_S, map_app, <- app_assoc. reflexivity.
    + lia.
    + congruence.
Qed.

(** *** The tables at the start and the assembled constraints *)

Lemma makeRecord_keys {V : Type} (keys : list string) (f : string -> V)
      (k : string) :
  In k (map fst (makeRecord keys f)) <-> In k keys.
Proof.
  unfold makeRecord.
  assert (H : forall acc : list (string * V),
             In k (map fst (fold_left (fun r key => assign r key (f key)) keys acc))
             <-> In k (map fst acc) \/ In k keys).
  { induction keys as [|key keys IH]; intros acc; cbn; [tauto|].
    rewrite IH, assign_keys. intuition. }
  rewrite H; cbn; tauto.
Qed.

Lemma makeRecord_Forall {V : Type} (P : string * V -> Prop)
      (keys : list string) (f : string -> V) :
  (forall key, P (key, f key)) -> Forall P (makeRecord keys f).
Proof.
  intros Hf. unfold makeRecord.
  assert (H : forall acc : list (string * V),
             Forall P acc
             -> Forall P (fold_left (fun r key => assign r key (f key)) keys acc)).
  { induction keys as [|key keys IH]; intros acc Hacc; cbn; auto.
    apply IH. now apply assign_Forall. }
  apply H. constructor.
Qed.

Lemma initial_tables :
  validate input = Ok tt -> afterCandidates input [] (initial input).
Proof.
  intros Hv. apply validate_Ok in Hv as (_ & _ & Hrt & _ & _ & _ & _ & Hty).
  assert (Ho : forall (G : list (Var AuxData)) (b : bool) n lo hi,
             owithin G (if b then Some (newConstraint n lo hi) else None)).
  { intros G [|] n lo hi; cbn; auto. intros x []. }
  repeat split; cbn.
  - unfold mapi. now rewrite mapi_from_length.
  - unfold mapi. now rewrite mapi_from_length.
  - intros r Hr.
    assert (Hin : In (riderTypeAt input r) (riderType input)).
    { apply nth_In. lia. }
    apply Hty in Hin as [Hin|Hin]; [left|now right].
    rewrite lookup_None, makeRecord_keys. intros Hn; apply Hn.
    rewrite lookup_None in Hin.
    unfold types. destruct (in_dec string_dec (riderTypeAt input r)
                                   (map fst (expectedOfType input))); tauto.
  - apply mapi_from_Forall. intros x j y [].
  - apply mapi_from_Forall. intros x j. apply Ho.
  - apply makeRecord_Forall. intros key; cbn.
    apply mapi_from_Forall. intros x j. apply Ho.
  - apply mapi_from_Forall. intros x j.
    apply mapi_from_Forall. intros y i. apply Ho.
Qed.

Lemma assemble_within (G : list (Var AuxData)) (st : Tables) :
  Within G st -> Forall (within G) (assemble input st).
Proof.
  intros (W1 & W2 & W3 & W4). unfold assemble.
  assert (H4 : forall rows cs,
             Forall (Forall (owithin G)) rows -> Forall (within G) cs ->
             Forall (within G)
                    (fold_left (fun cs a => append anObject cs a) rows cs)).
  { induction rows as [|row rows IH]; intros cs Hr Hcs; cbn; auto.
    inv Hr. apply IH; auto. now apply append_Forall. }
  apply H4; auto.
  assert (H3 : forall keys cs,
             Forall (within G) cs ->
             Forall (within G)
               (fold_left
                  (fun cs type =>
                     append anObject cs
                            match lookup (haveEnoughRidersOfType st) type with
                            | Some arr => arr
                            | None => []
                            end) keys cs)).
  { induction keys as [|key keys IH]; intros cs Hcs; cbn; auto.
    apply IH. apply append_Forall; auto.
    destruct (lookup (haveEnoughRidersOfType st) key) as [arr|] eqn:Hl; auto.
    apply lookup_Some in Hl. rewrite Forall_forall in W3.
    apply (W3 (key, arr) Hl). }
  apply H3. now apply append_Forall.
Qed.

(** What [makeLP] returns on an input that passes the assertions. *)
Lemma makeLP_returns :
  validate input = Ok tt ->
  exists p, makeLP input = Ok p
            /\ p_objective p
               = candidateTerms 0 (enumAll input)
                 ++ timeTerms input (List.length (enumAll input))
                              (Qnat (List.length (enumAll input))) R
            /\ Forall (within (vars (p_objective p))) (p_constraints p)
            /\ p_guaranteed p = guaranteed input
            /\ p_expected p = expected input.
Proof.
  intros Hv. unfold makeLP. rewrite Hv; cbn [bind].
  destruct (riders_enumerate (initial input) (initial_tables Hv) enumAll_NoDup)
    as (st1 & -> & H1); cbn [bind].
  destruct (times_loop st1 R (le_n _) H1) as (st2 & -> & HS & HW & Hobj & _);
    cbn [bind].
  eexists; split; [reflexivity|]. cbn. repeat split; auto.
  now apply assemble_within.
Qed.

End MakeLPFacts.

(** ** Decoding a solution *)

Section Decode.
Variables rows cols : nat.

Lemma set_cell (g : Grid) (rho tau : nat) :
  rect rows cols g -> rho < rows -> tau < cols ->
  exists g',
    at_index g rho (fun row => Ok (jsArraySet row tau true)) = Ok g'
    /\ rect rows cols g'
    /\ forall r t, cell g' r t
                   = (if (r =? rho) && (t =? tau) then Some true
                      else cell g r t).
Proof.
  intros (Hlen & Hrows) Hr Ht. unfold at_index.
  destruct (nth_error g rho) as [row|] eqn:Hrow;
    [|apply nth_error_None in Hrow; lia].
  assert (Hl : List.length row = cols).
  { rewrite Forall_forall in Hrows. apply Hrows. eapply nth_error_In; eauto. }
  cbn [bind]. eexists; split; [reflexivity|]. split.
  - split; [now rewrite replace_length|].
    apply replace_Forall; [assumption|]. unfold jsArraySet.
    rewrite Hl. apply Nat.ltb_lt in Ht as Ht'. rewrite Ht'.
    now rewrite replace_length.
  - intros r t. unfold cell. rewrite replace_nth_error.
    assert (Hb : (rho <? List.length g) = true) by (apply Nat.ltb_lt; lia).
    rewrite Hb, andb_true_r.
    destruct (Nat.eqb_spec r rho) as [->|Hne]; cbn [andb]; [|reflexivity].
    rewrite Hrow. unfold jsArraySet. rewrite Hl.
    apply Nat.ltb_lt in Ht as Ht'. rewrite Ht'.
    rewrite replace_nth_error, Hl, Ht', andb_true_r.
    destruct (t =? tau); reflexivity.
Qed.

Lemma set_range (rho : nat) (n : nat) :
  forall (s : nat) (g : Grid),
    rect rows cols g -> rho < rows -> s + n <= cols ->
    exists g',
      foldM (fun g t => at_index g rho (fun row => Ok (jsArraySet row t true)))
            (seq s n) g = Ok g'
      /\ rect rows cols g'
      /\ forall r t, cell g' r t
                     = (if (r =? rho) && (s <=? t) && (t <? s + n)
                        then Some true else cell g r t).
Proof.
  induction n as [|n IH]; intros s g Hg Hr Hn; cbn [seq foldM].
  - exists g. repeat split; try apply Hg. intros r t.
    destruct (r =? rho), (Nat.leb_spec s t), (Nat.ltb_spec t (s + 0));
      cbn; auto; lia.
  - destruct (set_cell g rho s Hg Hr) as (g1 & -> & Hg1 & Hc1); [lia|].
    cbn [bind].
    destruct (IH (S s) g1 Hg1 Hr) as (g' & -> & Hg' & Hc'); [lia|].
    exists g'. repeat split; try apply Hg'. intros r t.
    rewrite Hc', Hc1.
    destruct (Nat.eqb_spec r rho), (Nat.eqb_spec t s), (Nat.leb_spec (S s) t),
      (Nat.leb_spec s t), (Nat.ltb_spec t (S s + n)), (Nat.ltb_spec t (s + S n));
      cbn; auto; lia.
Qed.

Lemma mark_cells (g : Grid) (e : Var AuxData * Q) :
  rect rows cols g -> inGrid rows cols e ->
  exists g', mark g e = Ok g'
             /\ rect rows cols g'
             /\ forall r t, r < rows -> t < cols ->
                  cell g' r t
                  = (if covers e r t then Some true else cell g r t).
Proof.
  intros Hg He. unfold mark, covers.
  destruct (auxData (fst e)) as [aux|] eqn:Ha; [|eauto].
  destruct (Qltb (1 # 2) (snd e)); [|eauto].
  destruct (He aux Ha) as (Hr & Ht).
  destruct (le_lt_dec (t1 aux) (t2 aux)) as [Hle|Hgt].
  - destruct (set_range (rider aux) (S (t2 aux) - t1 aux) (t1 aux) g Hg Hr)
      as (g' & -> & Hg' & Hc); [lia|].
    exists g'. repeat split; try apply Hg'. intros r t _ _. rewrite Hc.
    cbn [andb]. rewrite (Nat.eqb_sym r).
    destruct (rider aux =? r), (Nat.leb_spec (t1 aux) t),
      (Nat.leb_spec t (t2 aux)),
      (Nat.ltb_spec t (t1 aux + (S (t2 aux) - t1 aux))); cbn; auto; lia.
  - replace (S (t2 aux) - t1 aux) with 0 by lia. cbn.
    exists g. repeat split; try apply Hg. intros r t _ _.
    destruct (rider aux =? r), (Nat.leb_spec (t1 aux) t),
      (Nat.leb_spec t (t2 aux)); cbn; auto; lia.
Qed.

Lemma marks_cells (l : list (Var AuxData * Q)) :
  Forall (inGrid rows cols) l ->
  forall (g : Grid) (f : nat -> nat -> bool),
    rect rows cols g ->
    (forall r t, r < rows -> t < cols -> cell g r t = Some (f r t)) ->
    exists g', foldM mark l g = Ok g'
               /\ rect rows cols g'
               /\ forall r t, r < rows -> t < cols ->
                    cell g' r t
                    = Some (f r t || existsb (fun e => covers e r t) l).
Proof.
  induction 1 as [|e l He Hl IH]; intros g f Hg Hf; cbn [foldM existsb].
  - exists g. repeat split; try apply Hg. intros r t Hr Ht.
    now rewrite orb_false_r, Hf.
  - destruct (mark_cells g e Hg He) as (g1 & -> & Hg1 & Hc1); cbn [bind].
    destruct (IH g1 (fun r t => f r t || covers e r t) Hg1)
      as (g' & -> & Hg' & Hc').
    { intros r t Hr Ht. rewrite Hc1, Hf by assumption.
      destruct (covers e r t), (f r t); reflexivity. }
    exists g'. repeat split; try apply Hg'. intros r t Hr Ht.
    rewrite Hc' by assumption. now rewrite orb_assoc.
Qed.

End Decode.

Lemma blank_grid (expected guaranteed : list Q) :
  let g := map (fun _ => map (fun _ => Some false) expected) guaranteed in
  rect (List.length guaranteed) (List.length expected) g
  /\ forall r t, r < List.length guaranteed -> t < List.length expected ->
                 cell g r t = Some false.
Proof.
  cbn. split; [split|].
  - apply length_map.
  - apply Forall_forall. intros row Hrow.
    apply in_map_iff in Hrow as (x & <- & _). apply length_map.
  - intros r t Hr Ht. unfold cell.
    destruct (nth_error guaranteed r) as [x|] eqn:Hx;
      [|apply nth_error_None in Hx; lia].
    rewrite (map_nth_error _ _ _ Hx).
    destruct (nth_error expected t) as [y|] eqn:Hy;
      [|apply nth_error_None in Hy; lia].
    now rewrite (map_nth_error _ _ _ Hy).
Qed.

Lemma decode_cells (p : Program) (solution : LinExpr AuxData) :
  Forall (inGrid (List.length (p_guaranteed p)) (List.length (p_expected p)))
         solution ->
  exists g,
    decode p solution = Ok g
    /\ rect (List.length (p_guaranteed p)) (List.length (p_expected p)) g
    /\ forall r t, r < List.length (p_guaranteed p) ->
                   t < List.length (p_expected p) ->
         cell g r t = Some (existsb (fun e => covers e r t) solution).
Proof.
  intros Hs. unfold decode, getVarCoefficients.
  destruct (blank_grid (p_expected p) (p_guaranteed p)) as (Hg & Hc).
  destruct (marks_cells _ _ solution Hs _ (fun _ _ => false) Hg Hc)
    as (g & E & Hg' & Hc').
  exists g. repeat split; try apply Hg'; auto.
Qed.

(** ** The program [makeLP] returns and its [solve] closure *)

Lemma candidatesOf_In (e : LinExpr AuxData) (aux : AuxData) :
  In aux (candidatesOf e) <-> exists v, In v (vars e) /\ auxData v = Some aux.
Proof.
  unfold candidatesOf. rewrite in_flat_map. split.
  - intros ([v c] & Hin & H); cbn in H.
    destruct (auxData v) as [a|] eqn:Ha; [|contradiction].
    destruct H as [->|[]]. exists v. split; [|assumption].
    apply in_map_iff. exists (v, c); auto.
  - intros (v & Hin & Ha). apply in_map_iff in Hin as ([w c] & <- & Hin).
    exists (w, c). split; [assumption|]. cbn in *. rewrite Ha. now left.
Qed.

Lemma candidatesOf_app (e1 e2 : LinExpr AuxData) :
  candidatesOf (e1 ++ e2) = candidatesOf e1 ++ candidatesOf e2.
Proof. apply flat_map_app. Qed.

Lemma candidatesOf_candidateTerms (n : nat) (L : list AuxData) :
  candidatesOf (candidateTerms n L) = L.
Proof.
  unfold candidateTerms, candidatesOf.
  revert n; induction L as [|x L IH]; intros n; cbn; [reflexivity|].
  now rewrite IH.
Qed.

Lemma candidateTerms_In (n : nat) (L : list AuxData) (x : Var AuxData * Q) :
  In x (candidateTerms n L) ->
  exists i aux, In aux L /\ x = (candidateVar i aux, 1%Q).
Proof.
  unfold candidateTerms. revert n; induction L as [|y L IH]; intros n; cbn;
    [intros []|].
  intros [<-|H]; [eauto|]. destruct (IH _ H) as (i & aux & Hin & ->). eauto.
Qed.

Section ProgramFacts.
Variable input : Input.
Hypothesis valid : validate input = Ok tt.

Lemma candidatesOf_timeTerms (ref : nat) (K : Q) (k : nat) :
  candidatesOf (timeTerms input ref K k) = [].
Proof.
  unfold timeTerms, candidatesOf. induction (seq 0 k); cbn; auto.
Qed.

Lemma timeTerms_In (ref : nat) (K : Q) (k : nat) (x : Var AuxData * Q) :
  In x (timeTerms input ref K k) -> auxData (fst x) = None.
Proof.
  unfold timeTerms. intros H. apply in_map_iff in H as (r & <- & _).
  reflexivity.
Qed.

(** The program, its saturated objective, and the candidates among its
    variables. *)
Lemma makeLP_program :
  exists p newObjective,
    makeLP input = Ok p
    /\ p_guaranteed p = guaranteed input
    /\ p_expected p = expected input
    /\ candidatesOf (p_objective p) = enumAll input
    /\ (forall v aux, In v (vars (p_objective p)) -> auxData v = Some aux ->
          isBool v = true /\ name v = candName aux)
    /\ saturate (p_objective p) (p_constraints p) = Ok newObjective
    /\ NoDup (names newObjective)
    /\ (forall v, In v (vars newObjective) <-> In v (vars (p_objective p))).
Proof.
  destruct (makeLP_returns input valid) as (p & Hp & Hobj & Hcs & Hg & He).
  assert (Hnd : NoDup (names (p_objective p))).
  { rewrite Hobj. unfold names. rewrite map_app.
    fold (names (candidateTerms 0 (enumAll input))).
    fold (names (timeTerms input (List.length (enumAll input))
                           (Qnat (List.length (enumAll input)))
                           (numRiders input))).
    rewrite names_candidateTerms, names_timeTerms.
    apply all_names_NoDup, enumAll_NoDup. }
  assert (Hocc : forall v, occursIn (p_objective p) (p_constraints p) v ->
                           In v (vars (p_objective p))).
  { intros v [Hv|(c & Hc & Hv)]; [assumption|].
    rewrite Forall_forall in Hcs. exact (Hcs c Hc v Hv). }
  destruct (saturate_returns (p_objective p) (p_constraints p) Hnd)
    as (e & Hsat & Hnd' & _ & Hvars & Hkeep & _).
  { intros v w Hv Hw Hn. f_equal.
    apply (registry_of_objective (p_objective p) Hnd); auto. }
  { intros v Hv. apply Hocc in Hv. rewrite Hobj in Hv. unfold vars in Hv.
    apply in_map_iff in Hv as (x & <- & Hx).
    apply in_app_iff in Hx as [Hx|Hx].
    - apply candidateTerms_In in Hx as (i & a & _ & ->).
      apply candidateName_own.
    - unfold timeTerms in Hx. apply in_map_iff in Hx as (r & <- & _).
      apply timeName_own. }
  exists p, e. repeat split; auto.
  - rewrite Hobj, candidatesOf_app, candidatesOf_candidateTerms,
      candidatesOf_timeTerms. apply app_nil_r.
  - rewrite Hobj in H. unfold vars in H. apply in_map_iff in H as (x & <- & Hx).
    apply in_app_iff in Hx as [Hx|Hx].
    + now apply candidateTerms_In in Hx as (i & a & _ & ->).
    + apply timeTerms_In in Hx. congruence.
  - rewrite Hobj in H. unfold vars in H. apply in_map_iff in H as (x & <- & Hx).
    apply in_app_iff in Hx as [Hx|Hx].
    + apply candidateTerms_In in Hx as (i & a & _ & ->). cbn in *. now inv H0.
    + apply timeTerms_In in Hx. congruence.
  - intros Hv. apply in_map_iff in Hv as ([w c] & <- & Hin).
    apply in_map_iff. exists (w, c). split; [reflexivity|]. now apply Hkeep.
Qed.

End ProgramFacts.

Lemma Qltb_lt (a b : Q) : Qltb a b = true <-> (a < b)%Q.
Proof.
  unfold Qltb. rewrite negb_true_iff. split.
  - intros H. apply Qnot_le_lt. intros Hle. apply Qle_bool_iff in Hle. congruence.
  - intros H. destruct (Qle_bool b a) eqn:E; [|reflexivity].
    apply Qle_bool_iff in E. exfalso. exact (Qlt_not_le _ _ H E).
Qed.

Lemma cell_in_rect (rows cols : nat) (g : Grid) (r t : nat) (b : bool) :
  rect rows cols g -> cell g r t = Some b -> r < rows /\ t < cols.
Proof.
  intros (Hl & Hrows) H. unfold cell in H.
  destruct (nth_error g r) as [row|] eqn:Hr; [|discriminate].
  destruct (nth_error row t) as [c|] eqn:Ht; [|discriminate].
  rewrite Forall_forall in Hrows.
  pose proof (Hrows row (nth_error_In _ _ Hr)) as Hrow.
  split.
  - rewrite <- Hl. apply nth_error_Some. congruence.
  - rewrite <- Hrow. apply nth_error_Some. congruence.
Qed.

Section SolveFacts.
Variable engine_solve :
  list EngineVar -> list EngineConstraint -> option (string -> Q).
Variable input : Input.
Hypothesis valid : validate input = Ok tt.

(** The outcome of [solve] on the program of a valid input, by the answer
    of the engine. *)
Lemma solve_outcome :
  exists p newObjective,
    makeLP input = Ok p
    /\ candidatesOf (p_objective p) = enumAll input
    /\ saturate (p_objective p) (p_constraints p) = Ok newObjective
    /\ match engine_solve (engineVars newObjective)
                          (engineConstraints (p_constraints p)) with
       | None => solve engine_solve p = Ok None
       | Some value =>
           exists g,
             solve engine_solve p = Ok (Some g)
             /\ rect (numRiders input) (numTimeSlices input) g
             /\ forall r t, r < numRiders input -> t < numTimeSlices input ->
                  (cell g r t = Some true \/ cell g r t = Some false)
                  /\ (cell g r t = Some true <->
                      exists v aux,
                        In v (vars (p_objective p))
                        /\ auxData v = Some aux
                        /\ rider aux = r /\ t1 aux <= t <= t2 aux
                        /\ (1 # 2 < value (name v))%Q)
       end.
Proof.
  destruct (makeLP_program input valid)
    as (p & e & Hp & Hg & He & Hcand & Hvar & Hsat & Hnd & Hvars).
  exists p, e. repeat split; auto.
  unfold solve, minimize. rewrite Hsat; cbn [bind].
  destruct (engine_solve _ _) as [value|]; [|reflexivity].
  rewrite setEach_fresh;
    [|exact (saturate_proper _ _ _ Hsat)|exact Hnd]. cbn [bind app].
  set (solution := map (fun y : Var AuxData * Q => (fst y, value (name (fst y))))
                       (getVarCoefficients e)).
  assert (Hsol : forall x, In x solution <->
                           In (fst x) (vars (p_objective p))
                           /\ snd x = value (name (fst x))).
  { intros x. unfold solution, getVarCoefficients. rewrite in_map_iff. split.
    - intros (y & <- & Hy). cbn. split; [|reflexivity].
      apply Hvars, in_map_iff; eauto.
    - intros (Hin & Hval). apply Hvars in Hin.
      apply in_map_iff in Hin as (y & Hy & Hin). exists y. split; [|assumption].
      destruct x; cbn in *; congruence. }
  destruct (decode_cells p solution) as (g & -> & Hrect & Hcell).
  { apply Forall_forall. intros x Hx aux Ha. apply Hsol in Hx as (Hin & _).
    assert (Hf : feasible input aux).
    { apply enumAll_In. rewrite <- Hcand. apply candidatesOf_In; eauto. }
    rewrite Hg, He. destruct Hf as (H1 & H2 & _).
    unfold numRiders, numTimeSlices in *. lia. }
  cbn [bind]. rewrite Hg, He in Hrect, Hcell.
  exists g. split; [reflexivity|]. split; [exact Hrect|].
  intros r t Hr Ht. rewrite (Hcell r t Hr Ht). split.
  - destruct (existsb _ solution); auto.
  - split.
    + intros H. inv H. apply existsb_exists in H1 as ([v c] & Hx & Hc).
      apply Hsol in Hx as (Hin & Hval). cbn in Hval; subst c.
      unfold covers in Hc; cbn in Hc.
      destruct (auxData v) as [aux|] eqn:Ha; [|discriminate].
      apply andb_prop in Hc as [Hc H4]. apply andb_prop in Hc as [Hc H3].
      apply andb_prop in Hc as [H1 H2].
      apply Qltb_lt in H1. apply Nat.eqb_eq in H2.
      apply Nat.leb_le in H3, H4. exists v, aux. repeat split; auto.
    + intros (v & aux & Hin & Ha & H2 & [H3 H4] & H1). f_equal.
      apply existsb_exists. exists (v, value (name v)). split.
      * apply Hsol. cbn. auto.
      * unfold covers; cbn. rewrite Ha.
        apply Qltb_lt in H1. apply Nat.eqb_eq in H2.
        apply Nat.leb_le in H3, H4. now rewrite H1, H2, H3, H4.
Qed.

End SolveFacts.

(** ** [makeLP] and [solve] on whole inputs *)

Lemma Qnat_S (k : nat) : (Qnat (S k) == 1 + Qnat k)%Q.
Proof. rewrite <- Qnat_succ. apply Qplus_comm. Qed.

Lemma candidateTerms_sum (value : string -> Q) (n : nat) (L : list AuxData) :
  (forall aux, In aux L -> (value (candName aux) <= 1)%Q) ->
  (evaluate value (candidateTerms n L) <= Qnat (List.length L))%Q.
Proof.
  unfold candidateTerms. revert n; induction L as [|x L IH]; intros n H.
  - cbn. apply Qle_refl.
  - cbn [mapi_from evaluate fold_right List.length fst snd].
    rewrite Qnat_S. apply Qplus_le_compat.
    + rewrite Qmult_1_l. apply H. now left.
    + apply IH. intros aux Hin. apply H. now right.
Qed.

Lemma candidateTerms_all_candidates (n : nat) (L : list AuxData) :
  filter (fun x => isSome (auxData (fst x))) (candidateTerms n L)
  = candidateTerms n L.
Proof.
  unfold candidateTerms. revert n; induction L as [|x L IH]; intros n; cbn;
    [reflexivity|]. now rewrite IH.
Qed.

Lemma timeTerms_no_candidates (input : Input) (ref : nat) (K : Q) (k : nat) :
  filter (fun x : Var AuxData * Q => isSome (auxData (fst x)))
         (timeTerms input ref K k) = [].
Proof. unfold timeTerms. induction (seq 0 k); cbn; auto. Qed.

(** X17.  The weight of the time variables is the number of candidates,
    and no assignment that keeps the candidates at or below 1 makes their
    terms sum to more than it. *)
Lemma time_weight_bounds_candidate_terms (input : Input) :
  validate input = Ok tt ->
  exists p K,
    makeLP input = Ok p
    /\ K = Qnat (List.length (candidatesOf (p_objective p)))
    /\ (forall v c, In (v, c) (p_objective p) -> auxData v = None -> c = K)
    /\ forall value,
         (forall v, In v (vars (p_objective p)) -> isBool v = true ->
                    (value (name v) <= 1)%Q) ->
         (candidateSum value (p_objective p) <= K)%Q.
Proof.
  intros valid.
  destruct (makeLP_returns input valid) as (p & Hp & Hobj & _).
  exists p, (Qnat (List.length (enumAll input))).
  assert (Hc : candidatesOf (p_objective p) = enumAll input).
  { rewrite Hobj, candidatesOf_app, candidatesOf_candidateTerms,
      candidatesOf_timeTerms. apply app_nil_r. }
  split; [assumption|]. split; [now rewrite Hc|]. split.
  - intros v c Hin Ha. rewrite Hobj in Hin. apply in_app_iff in Hin as [Hin|Hin].
    + apply candidateTerms_In in Hin as (i & aux & _ & Heq). inv Heq.
      discriminate Ha.
    + unfold timeTerms in Hin. apply in_map_iff in Hin as (r & Heq & _).
      now inv Heq.
  - intros value Hval. unfold candidateSum.
    assert (Hvars : forall x, In x (candidateTerms 0 (enumAll input)) ->
                              In (fst x) (vars (p_objective p))).
    { intros x Hx. rewrite Hobj. apply in_map_iff. exists x. split; [reflexivity|].
      apply in_app_iff. now left. }
    rewrite Hobj, filter_app, candidateTerms_all_candidates,
      timeTerms_no_candidates, app_nil_r.
    apply candidateTerms_sum. intros aux Hin.
    assert (Hx : exists i, In (candidateVar i aux, 1%Q)
                              (candidateTerms 0 (enumAll input))).
    { clear - Hin. unfold candidateTerms. generalize 0.
      induction (enumAll input) as [|y L IH]; intros n; [contradiction|].
      destruct Hin as [->|Hin]; cbn.
      - exists n. now left.
      - destruct (IH Hin (S n)) as (i & Hi). exists i. now right. }
    destruct Hx as (i & Hx). apply Hvars in Hx. cbn in Hx.
    apply (Hval _ Hx). reflexivity.
Qed.

(** The example driver's day: 385 candidates and the weight 385 on each
    of the four time variables, after which the optimum the README
    reports, 7706, is 385 * (8 + 4 + 4 + 4) + 6. *)
Lemma exampleDay_weight :
  weightIs exampleDay 385 = true
  /\ (385 * (8 + 4 + 4 + 4) + 6 == 7706)%Q.
Proof. split; [vm_compute|]; reflexivity. Qed.

(** C1, at the one-slot input.  The time variable has the coefficient
    K = 1, the number of candidates; the assignment that sets the
    candidate and the time variable to 1 meets every constraint and
    domain; its candidate terms sum to 1, which is K and not below K. *)
Theorem oneSlot_time_weight_not_strict :
  exists p K,
    makeLP oneSlot = Ok p
    /\ K = Qnat (List.length (candidatesOf (p_objective p)))
    /\ (forall v c, In (v, c) (p_objective p) -> auxData v = None -> c = K)
    /\ achievable allOnes p
    /\ (candidateSum allOnes (p_objective p) == K)%Q
    /\ ~ (candidateSum allOnes (p_objective p) < K)%Q.
Proof.
  eexists. exists 1%Q. split; [reflexivity|]. cbn -[Qle Qlt Qeq].
  split; [reflexivity|]. split; [|split; [|split]].
  - intros v c [H|[H|[]]]; inv H; cbn; [discriminate|reflexivity].
  - split; repeat constructor; cbn; try discriminate;
      try (exists 0%Z; reflexivity); try (exists 1%Z; reflexivity).
  - reflexivity.
  - intros H. discriminate H.
Qed.

(** The sum on known doubles: 0.1 and 0.2 as doubles, their sum
    0.30000000000000004, which is not the double of 0.3, and ten times
    0.1 added up, 0.9999999999999999. *)
Lemma jsPlus_tenths :
  double (1 # 10) = (3602879701896397 # 36028797018963968)%Q
  /\ double (2 # 10) = (3602879701896397 # 18014398509481984)%Q
  /\ jsPlus (double (1 # 10)) (double (2 # 10))
     = (1351079888211149 # 4503599627370496)%Q
  /\ double (3 # 10) = (5404319552844595 # 18014398509481984)%Q
  /\ fold_left jsPlus (repeat (double (1 # 10)) 10) 0%Q
     = (9007199254740991 # 9007199254740992)%Q.
Proof. repeat split; vm_compute; reflexivity. Qed.

(** The rounding of the accumulated duration decides.  The ten doubles
    nearest to 0.1 have a sum of at least 1, but added one by one they
    stay below 1, and no range is a candidate; the three doubles nearest
    to 1/3 have a sum below 1, but added one by one they reach 1, and
    the range 0..2 is a candidate. *)
Lemma accumulated_durations :
  (1 <= fold_left Qplus (duration tenTenths) 0)%Q
  /\ (totalDuration tenTenths 0 9 < 1)%Q
  /\ (exists p, makeLP tenTenths = Ok p /\ candidatesOf (p_objective p) = [])
  /\ (fold_left Qplus (duration threeThirds) 0 < 1)%Q
  /\ (totalDuration threeThirds 0 2 == 1)%Q
  /\ (exists p, makeLP threeThirds = Ok p
                /\ candidatesOf (p_objective p) = [mkAuxData 0 0 2]).
Proof.
  split; [apply Qle_bool_iff; vm_compute; reflexivity|].
  split; [vm_compute; reflexivity|].
  split; [eexists; split; [vm_compute; reflexivity|reflexivity]|].
  split; [vm_compute; reflexivity|].
  split; [vm_compute; reflexivity|].
  eexists; split; [vm_compute; reflexivity|reflexivity].
Qed.



(** C3.  The model of the one-slot input: the Boolean candidate
    [a[0][0..0]], the continuous [time[0]] with lower bound 0 and no
    upper bound, and the constraints [timeCounted[0]] (lower bound 0,
    candidate -1, time 1), [enough[0]] (lower bound 1, candidate 1) and
    [disjoint[0][0]] (upper bound 1, candidate 1); nothing else. *)
Theorem makeLP_oneSlot :
  let a := mkVar 0 integer "a[0][0..0]" (Some 0%Q) (Some 1%Q)
                 (Some (mkAuxData 0 0 0)) in
  let time := mkVar 1 continuous "time[0]" (Some 0%Q) None None in
  makeLP oneSlot
  = Ok (mkProgram
          [(a, 1%Q); (time, 1%Q)]
          [mkConstraint "timeCounted[0]" (Some 0%Q) None
                        [(a, (- (1))%Q); (time, 1%Q)];
           mkConstraint "enough[0]" (Some 1%Q) None [(a, 1%Q)];
           mkConstraint "disjoint[0][0]" None (Some 1%Q) [(a, 1%Q)]]
          [0%Q] [1%Q]).
Proof. reflexivity. Qed.

(** C4, as stated, at an input with a negative duration: [makeLP] throws
    an error that carries no message, so no message names a field. *)
Lemma makeLP_error_without_message :
  shapeViolation negativeDuration
  /\ makeLP negativeDuration = Err (Error None)
  /\ ~ exists msg, makeLP negativeDuration = Err (Error (Some msg)).
Proof.
  split; [|split].
  - do 5 right; left. exists (- (1))%Q. split; [now left|reflexivity].
  - reflexivity.
  - intros (msg & H). discriminate H.
Qed.

(** The last assertion reads [expectedOfType[type]] through the prototype:
    a rider of type [constructor] passes it without an entry, and
    [makeLP] returns a program in which the candidates of the rider
    enter no constraint by type. *)
Lemma makeLP_inherited_type :
  lookup (expectedOfType constructorRider) "constructor" = None
  /\ validate constructorRider = Ok tt
  /\ exists p,
       makeLP constructorRider = Ok p
       /\ map cname (p_constraints p)
          = ["timeCounted[0]"; "enough[0]"; "disjoint[0][0]"].
Proof.
  split; [reflexivity|]. split; [reflexivity|].
  eexists. split; reflexivity.
Qed.

(** C4, amended.  On an input that breaks a shape rule (array lengths
    that disagree, a negative duration, a demand outside [0, R], a rider
    whose type has no demand-by-type entry and names no member of
    [Object.prototype]), [makeLP] throws an [Error] without a message,
    out of its assertions: before the objective, any constraint or any
    variable is created. *)
Theorem makeLP_rejects_shape (input : Input) :
  shapeViolation input ->
  validate input = Err (Error None) /\ makeLP input = Err (Error None).
Proof.
  intros Hbad.
  assert (Hv : validate input = Err (Error None)).
  { destruct (validate_outcome input) as [Hok|Herr]; [|exact Herr].
    exfalso. apply validate_Ok in Hok
      as (H1 & H2 & H3 & H4 & H5 & H6 & H7 & H8).
    destruct Hbad as [H|[H|[H|[H|[H|[H|[H|H]]]]]]].
    - contradiction.
    - destruct H as (type & counts & Hl & Hn). exact (Hn (H2 _ _ Hl)).
    - contradiction.
    - contradiction.
    - destruct H as (row & Hin & Hn). exact (Hn (H5 _ Hin)).
    - destruct H as (d & Hin & Hn). exact (Qlt_not_le _ _ Hn (H6 _ Hin)).
    - destruct H as (count & Hin & [Hn|Hn]).
      + exact (Qlt_not_le _ _ Hn (proj1 (H7 _ Hin))).
      + exact (Qlt_not_le _ _ Hn (proj2 (H7 _ Hin))).
    - destruct H as (type & Hin & Hn & Hp).
      destruct (H8 _ Hin) as [H|H]; [exact (H Hn)|congruence]. }
  split; [exact Hv|]. unfold makeLP. now rewrite Hv.
Qed.

Lemma makeLP_rejects_shape_witness :
  validate negativeDuration = Err (Error None)
  /\ makeLP negativeDuration = Err (Error None).
Proof.
  apply (makeLP_rejects_shape negativeDuration).
  do 5 right; left. exists (- (1))%Q. split; [now left|reflexivity].
Defined.

(** C5.  On the program of a valid input, when the engine returns the
    values [value], [solve] returns a grid of R rows of T booleans;
    an entry is [true] exactly when some candidate variable of the
    program, with a value strictly above one half, has the rider of the
    row and a range that holds the slot, and it is [false] otherwise.
    Variables without [auxData], such as [time[rider]], play no part. *)
Theorem solve_decodes_candidates
        (engine_solve : list EngineVar -> list EngineConstraint
                        -> option (string -> Q))
        (input : Input) :
  validate input = Ok tt ->
  exists p newObjective,
    makeLP input = Ok p
    /\ saturate (p_objective p) (p_constraints p) = Ok newObjective
    /\ forall value,
         engine_solve (engineVars newObjective)
                      (engineConstraints (p_constraints p)) = Some value ->
         exists g,
           solve engine_solve p = Ok (Some g)
           /\ rect (numRiders input) (numTimeSlices input) g
           /\ forall r t, r < numRiders input -> t < numTimeSlices input ->
                (cell g r t = Some true \/ cell g r t = Some false)
                /\ (cell g r t = Some true <->
                    exists v aux,
                      In v (vars (p_objective p))
                      /\ auxData v = Some aux
                      /\ rider aux = r /\ t1 aux <= t <= t2 aux
                      /\ (1 # 2 < value (name v))%Q).
Proof.
  intros valid.
  destruct (solve_outcome engine_solve input valid)
    as (p & e & Hp & _ & Hsat & H).
  exists p, e. split; [assumption|]. split; [assumption|].
  intros value Hval. rewrite Hval in H. exact H.
Qed.

(** The threshold: 0.500001 assigns the slot, 0.5 does not. *)
Lemma solve_decodes_candidates_witness :
  (exists p, makeLP oneSlot = Ok p
             /\ solve justAbove p = Ok (Some [[Some true]])
             /\ solve exactlyHalf p = Ok (Some [[Some false]]))
  /\ exists p newObjective,
       makeLP oneSlot = Ok p
       /\ saturate (p_objective p) (p_constraints p) = Ok newObjective
       /\ forall value,
            justAbove (engineVars newObjective)
                      (engineConstraints (p_constraints p)) = Some value ->
            exists g,
              solve justAbove p = Ok (Some g)
              /\ rect (numRiders oneSlot) (numTimeSlices oneSlot) g
              /\ forall r t,
                   r < numRiders oneSlot -> t < numTimeSlices oneSlot ->
                   (cell g r t = Some true \/ cell g r t = Some false)
                   /\ (cell g r t = Some true <->
                       exists v aux,
                         In v (vars (p_objective p))
                         /\ auxData v = Some aux
                         /\ rider aux = r /\ t1 aux <= t <= t2 aux
                         /\ (1 # 2 < value (name v))%Q).
Proof.
  split.
  - eexists. split; [reflexivity|]. split; reflexivity.
  - apply (solve_decodes_candidates justAbove oneSlot). reflexivity.
Defined.

(** C6.  On the program of a valid input, when the engine reports no
    solution, [solve] returns the absent result: no grid is built and
    nothing is decoded. *)
Theorem solve_no_solution
        (engine_solve : list EngineVar -> list EngineConstraint
                        -> option (string -> Q))
        (input : Input) :
  validate input = Ok tt ->
  exists p newObjective,
    makeLP input = Ok p
    /\ saturate (p_objective p) (p_constraints p) = Ok newObjective
    /\ (engine_solve (engineVars newObjective)
                     (engineConstraints (p_constraints p)) = None ->
        minimize engine_solve (p_objective p) (p_constraints p) = Ok None
        /\ solve engine_solve p = Ok None).
Proof.
  intros valid.
  destruct (solve_outcome engine_solve input valid)
    as (p & e & Hp & _ & Hsat & H).
  exists p, e. split; [assumption|]. split; [assumption|].
  intros Hnone. rewrite Hnone in H. split; [|exact H].
  unfold minimize. rewrite Hsat; cbn [bind]. now rewrite Hnone.
Qed.

Lemma solve_no_solution_witness :
  exists p newObjective,
    makeLP oneSlot = Ok p
    /\ saturate (p_objective p) (p_constraints p) = Ok newObjective
    /\ (noSolution (engineVars newObjective)
                   (engineConstraints (p_constraints p)) = None ->
        minimize noSolution (p_objective p) (p_constraints p) = Ok None
        /\ solve noSolution p = Ok None).
Proof. apply (solve_no_solution noSolution oneSlot). reflexivity. Defined.

(** C10.  On the program of a valid input [solve] returns, whatever the
    engine answers, and in a grid it returns an entry is [true] only
    where the rider is available at the slot. *)
Theorem solve_respects_availability (input : Input) :
  validate input = Ok tt ->
  exists p,
    makeLP input = Ok p
    /\ forall engine_solve,
         (exists outcome, solve engine_solve p = Ok outcome)
         /\ forall g r t,
              solve engine_solve p = Ok (Some g) ->
              cell g r t = Some true ->
              availableAt input t r = true.
Proof.
  intros valid.
  destruct (makeLP_program input valid) as (p & _ & Hp & _).
  exists p. split; [assumption|]. intros engine_solve.
  destruct (solve_outcome engine_solve input valid)
    as (p' & e & Hp' & Hcand & _ & H).
  rewrite Hp in Hp'. inv Hp'.
  destruct (engine_solve _ _) as [value|].
  - destruct H as (g & Hs & Hrect & Hcell). split; [eauto|].
    intros g' r t Hs' Hc. rewrite Hs in Hs'. inv Hs'.
    destruct (cell_in_rect _ _ _ _ _ _ Hrect Hc) as (Hr & Ht).
    apply (Hcell r t Hr Ht) in Hc as (v & aux & Hin & Ha & <- & Hrange & _).
    assert (Hf : feasible input aux).
    { apply enumAll_In. rewrite <- Hcand. apply candidatesOf_In; eauto. }
    destruct Hf as (_ & _ & Hav & _). now apply Hav.
  - split; [eauto|]. intros g r t Hs. rewrite H in Hs. discriminate.
Qed.

Lemma solve_respects_availability_witness :
  exists p,
    makeLP oneSlot = Ok p
    /\ forall engine_solve,
         (exists outcome, solve engine_solve p = Ok outcome)
         /\ forall g r t,
              solve engine_solve p = Ok (Some g) ->
              cell g r t = Some true ->
              availableAt oneSlot t r = true.
Proof. apply (solve_respects_availability oneSlot). reflexivity. Defined.

(** ** Worked instances of the algebraic layer *)

Lemma small_occurs (v : Var unit) :
  occursIn smallObjective smallConstraints v -> v = sharedX \/ v = sharedY.
Proof. intros [Hv|(c & [<-|[]] & Hv)]; cbn in Hv; intuition. Qed.

Lemma small_one_instance : oneInstancePerName smallObjective smallConstraints.
Proof.
  intros v w Hv Hw Hn. apply small_occurs in Hv, Hw.
  destruct Hv as [->| ->], Hw as [->| ->]; auto; discriminate Hn.
Qed.

Lemma small_own_names : noInheritedName smallObjective smallConstraints.
Proof.
  intros v Hv. apply small_occurs in Hv. destruct Hv as [->| ->]; reflexivity.
Qed.

Lemma spare_occurs (v : Var unit) :
  occursIn smallObjective spareConstraints v ->
  v = sharedX \/ v = sharedY \/ v = sharedZ.
Proof.
  intros [Hv|(c & [<-|[<-|[]]] & Hv)]; cbn in Hv; intuition.
Qed.

Lemma spare_one_instance : oneInstancePerName smallObjective spareConstraints.
Proof.
  intros v w Hv Hw Hn. apply spare_occurs in Hv, Hw.
  destruct Hv as [->|[->| ->]], Hw as [->|[->| ->]]; auto; discriminate Hn.
Qed.

Lemma spare_own_names : noInheritedName smallObjective spareConstraints.
Proof.
  intros v Hv. apply spare_occurs in Hv.
  destruct Hv as [->|[->| ->]]; reflexivity.
Qed.

(** The variable [z], which only the second constraint has, comes with
    the coefficient 0. *)
Lemma saturate_union_witness :
  saturate smallObjective spareConstraints
  = Ok [(sharedY, 1%Q); (sharedX, (- (1))%Q); (sharedZ, 0%Q)]
  /\ exists newObjective,
       saturate smallObjective spareConstraints = Ok newObjective
       /\ (forall n, In n (names newObjective) <->
                     In n (names smallObjective)
                     \/ exists c, In c spareConstraints
                                  /\ In n (names (terms c)))
       /\ (forall v, In v (vars newObjective) ->
                     occursIn smallObjective spareConstraints v)
       /\ (forall v c, In (v, c) newObjective ->
                       ~ In (name v) (names smallObjective) -> c = 0%Q)
       /\ (forall v c, In (v, c) smallObjective -> In (v, c) newObjective).
Proof.
  split; [reflexivity|].
  apply (saturate_union smallObjective spareConstraints).
  - repeat constructor; cbn; intuition discriminate.
  - exact spare_one_instance.
  - exact spare_own_names.
Defined.

(** C8, as stated, at an objective whose first coefficient is negative:
    the exported [minimize] line puts a [- ] in front of the first term. *)
Lemma exportAsLP_leading_minus :
  exportAsLP show_int smallObjective []
  = Ok ("minimize: - x + y;" +++ newline
        +++ "c[x]: 0 <= x;" +++ newline
        +++ newline
        +++ "bin y;" +++ newline)
  /\ toString show_int smallObjective = "- x + y"
  /\ leading_token (toString show_int smallObjective) = true.
Proof. repeat split; reflexivity. Qed.

Lemma exportAsLP_format_witness :
  exists text o lines,
    exportAsLP show_int smallObjective smallConstraints = Ok text
    /\ terms_text show_int true smallObjective o
    /\ Forall2 (constraint_line show_int)
               (map boundOf (filter bounded (vars [(sharedY, 1%Q); (sharedX, (- (1))%Q)]))
                ++ smallConstraints)
               lines
    /\ text = "minimize: " +++ o +++ ";" +++ newline
              +++ String.concat "" lines
              +++ newline
              +++ declaration "bin" (filter isBool (vars [(sharedY, 1%Q); (sharedX, (- (1))%Q)]))
              +++ declaration "int" (filter isInt (vars [(sharedY, 1%Q); (sharedX, (- (1))%Q)])).
Proof.
  apply (exportAsLP_format show_int smallObjective smallConstraints
                           [(sharedY, 1%Q); (sharedX, (- (1))%Q)]).
  reflexivity.
Defined.

(** * Further properties of the algebraic layer *)

Section Coefficients.
Context {T : Type}.
Implicit Types (this : LinExpr T) (v w : Var T) (c d : Q).

(** X1.  [getCoefficient] reads what [setCoefficient] wrote: after
    [setCoefficient(v, c)] returned, [getCoefficient(v)] is [c] and the
    coefficient read for a variable of another name is what it was
    before, the exception included. *)
Theorem getCoefficient_after_setCoefficient this v c this' :
  setCoefficient v c this = (Ok tt, this') ->
  getCoefficient v this' = Ok (Some c)
  /\ forall w, name w <> name v ->
               getCoefficient w this' = getCoefficient w this.
Proof.
  intros H. assert (this' = store this v c) as ->.
  { unfold setCoefficient in H. destruct (checkVar this v); now inv H. }
  split.
  - unfold getCoefficient, checkVar, sameInstance.
    now rewrite entry_store_same, Nat.eqb_refl.
  - intros w Hw. unfold getCoefficient, checkVar.
    now rewrite (entry_store_other this v c (name w) Hw).
Qed.

(** Every variable is of exactly one kind: real, Boolean or
    integer. *)
Theorem var_kind_exclusive v :
  (isReal v = true /\ isBool v = false /\ isInt v = false)
  \/ (isReal v = false /\ isBool v = true /\ isInt v = false)
  \/ (isReal v = false /\ isBool v = false /\ isInt v = true).
Proof.
  unfold isInt, isBool. destruct (isReal v); cbn; auto.
  destruct (is_number (lowerBound v) 0 && is_number (upperBound v) 1); auto.
Qed.

(** X2.  The kinds of the constructors: a [RealVar] is real whatever its
    bounds; a [BoolVar] is Boolean; an [IntVar] is Boolean exactly when
    its bounds are the numbers 0 and 1, and integer otherwise. *)
Theorem constructor_kinds (r : nat) (n : string) (lo hi : option Q) :
  isReal (@RealVar T r n lo hi) = true
  /\ isBool (@BoolVar T r n) = true
  /\ (isBool (@IntVar T r n lo hi) = true <->
      exists l h, lo = Some l /\ hi = Some h /\ (l == 0)%Q /\ (h == 1)%Q)
  /\ isInt (@IntVar T r n lo hi) = negb (isBool (@IntVar T r n lo hi)).
Proof.
  repeat split; try reflexivity.
  - unfold isBool; cbn. intros H. apply andb_prop in H as [Hl Hh].
    destruct lo as [l|], hi as [h|]; cbn in *; try discriminate.
    exists l, h. repeat split; now apply Qeq_bool_iff.
  - intros (l & h & -> & -> & Hl & Hh). unfold isBool; cbn.
    apply Qeq_bool_iff in Hl, Hh. now rewrite Hl, Hh.
Qed.

(** Values of expressions. *)

Lemma evaluate_cons (value : string -> Q) (x : Var T * Q) (e : LinExpr T) :
  evaluate value (x :: e)
  = (snd x * value (name (fst x)) + evaluate value e)%Q.
Proof. reflexivity. Qed.

Lemma evaluate_nil (value : string -> Q) : evaluate value (@nil (Var T * Q)) = 0%Q.
Proof. reflexivity. Qed.

Lemma evaluate_app (value : string -> Q) (e1 e2 : LinExpr T) :
  (evaluate value (e1 ++ e2) == evaluate value e1 + evaluate value e2)%Q.
Proof.
  induction e1 as [|x e1 IH]; cbn [app].
  - rewrite evaluate_nil. ring.
  - rewrite !evaluate_cons, IH. ring.
Qed.

Lemma evaluate_store_zero (value : string -> Q) this v c :
  (forall x, In x this -> name (fst x) = name v -> (snd x == 0)%Q) ->
  (evaluate value (store this v c)
   == evaluate value this + c * value (name v))%Q.
Proof.
  induction this as [|[w d] this IH]; intros H; cbn [store].
  - rewrite evaluate_cons, evaluate_nil. cbn [fst snd]. ring.
  - destruct (String.eqb_spec (name w) (name v)) as [E|E].
    + rewrite !evaluate_cons. cbn [fst snd].
      rewrite (H (w, d) (or_introl eq_refl) E), E. ring.
    + rewrite !evaluate_cons, IH; [ring|]. intros x Hx. apply H. now right.
Qed.

Lemma overlay_value (value : string -> Q) (l : LinExpr T) :
  forall acc acc',
    NoDup (names l) ->
    (forall x, In x acc -> In (name (fst x)) (names l) -> (snd x == 0)%Q) ->
    setEach snd l acc = Ok acc' ->
    (evaluate value acc' == evaluate value acc + evaluate value l)%Q.
Proof.
  unfold setEach. induction l as [|y l IH]; intros acc acc' Hnd Hz H; cbn in H.
  - inv H. rewrite evaluate_nil. ring.
  - bind_ok H acc1 H1. apply set_Ok in H1; subst acc1. inv Hnd.
    rewrite (IH (store acc (fst y) (snd y)) acc' H3); [| |exact H].
    + rewrite evaluate_store_zero, evaluate_cons; [ring|].
      intros x Hx Hn. apply Hz; [assumption|]. left. now rewrite Hn.
    + intros x Hx Hn. apply store_In in Hx as [-> |Hx].
      * exfalso. apply H2. exact Hn.
      * apply Hz; [assumption|]. now right.
Qed.

Lemma evaluate_zero (value : string -> Q) (e : LinExpr T) :
  (forall x, In x e -> snd x = 0%Q) -> (evaluate value e == 0)%Q.
Proof.
  induction e as [|x e IH]; intros Hz.
  - rewrite evaluate_nil. reflexivity.
  - rewrite evaluate_cons, IH, (Hz x (or_introl eq_refl)); [ring|].
    intros y Hy. apply Hz. now right.
Qed.

(** X3.  The expression [saturate] returns has, under every assignment
    of values to the variable names, the value of the objective it was
    given. *)
Theorem saturate_keeps_value (objective : LinExpr T)
        (constraints : list (Constraint T)) (newObjective : LinExpr T)
        (value : string -> Q) :
  NoDup (names objective) ->
  saturate objective constraints = Ok newObjective ->
  (evaluate value newObjective == evaluate value objective)%Q.
Proof.
  intros Hnd H. rewrite saturate_unfold in H. bind_ok H acc Hacc.
  destruct (setEach_Ok_inv _ _ _ _ Hacc (NoDup_nil _)) as (_ & _ & Hent & _).
  assert (Hz : forall x, In x acc -> snd x = 0%Q).
  { intros x Hx. apply Hent in Hx as [[]|(y & _ & ->)]. reflexivity. }
  rewrite (overlay_value value objective acc newObjective Hnd); [| |exact H].
  - rewrite (evaluate_zero value acc Hz). ring.
  - intros x Hx _. now rewrite (Hz x Hx).
Qed.

(** X4.  The bound of a variable as a constraint.  For a variable named
    as a member of [Object.prototype], [toConstraint] throws the
    mismatching-variable error; for any other it returns the constraint
    [c[<name>]], which holds under an assignment exactly when the value
    of the variable is within its bounds. *)
Theorem toConstraint_is_the_bound v (value : string -> Q) :
  (inherited (name v) = true -> toConstraint v = Err (mismatch (name v)))
  /\ (inherited (name v) = false ->
      exists b : Constraint T,
        toConstraint v = Ok b
        /\ cname b = "c[" +++ name v +++ "]"
        /\ (holds value b <->
            aboveLower (lowerBound v) (value (name v))
            /\ belowUpper (upperBound v) (value (name v)))).
Proof.
  rewrite toConstraint_outcome. split; intros Hp; rewrite Hp; [reflexivity|].
  exists (boundOf v). split; [reflexivity|]. split; [reflexivity|].
  unfold holds, boundOf; cbn [clowerBound cupperBound terms].
  rewrite evaluate_cons, evaluate_nil; cbn [fst snd].
  assert (E : (1 * value (name v) + 0 == value (name v))%Q) by ring.
  destruct (lowerBound v), (upperBound v); cbn [aboveLower belowUpper];
    rewrite ?E; tauto.
Qed.

End Coefficients.

Lemma getCoefficient_after_setCoefficient_witness :
  getCoefficient (RealVar 0 "x" None None)
                 [(@RealVar unit 0 "x" None None, 7%Q)] = Ok (Some 7%Q)
  /\ forall w : Var unit, name w <> "x" ->
       getCoefficient w [(RealVar 0 "x" None None, 7%Q)] = getCoefficient w [].
Proof.
  apply (getCoefficient_after_setCoefficient
           [] (@RealVar unit 0 "x" None None) 7%Q).
  reflexivity.
Defined.

Lemma toConstraint_is_the_bound_witness :
  toConstraint constructorVar = Err (mismatch "constructor")
  /\ exists b : Constraint unit,
       toConstraint sharedX = Ok b
       /\ cname b = "c[x]"
       /\ (holds allOnes b <->
           aboveLower (lowerBound sharedX) (allOnes "x")
           /\ belowUpper (upperBound sharedX) (allOnes "x")).
Proof.
  split.
  - apply (proj1 (toConstraint_is_the_bound constructorVar allOnes)).
    reflexivity.
  - apply (proj2 (toConstraint_is_the_bound sharedX allOnes)). reflexivity.
Defined.

Lemma saturate_keeps_value_witness :
  (evaluate allOnes [(sharedY, 1%Q); (sharedX, (- (1))%Q)]
   == evaluate allOnes smallObjective)%Q.
Proof.
  apply (saturate_keeps_value smallObjective smallConstraints
           [(sharedY, 1%Q); (sharedX, (- (1))%Q)] allOnes).
  - repeat constructor; cbn; intuition discriminate.
  - reflexivity.
Defined.

Section SaturateAgain.
Context {T : Type}.
Implicit Types (acc m : LinExpr T) (v w : Var T).

Lemma alike_refl acc : Forall2 alike acc acc.
Proof. induction acc; constructor; auto. split; reflexivity. Qed.

Lemma alike_trans m1 m2 m3 :
  Forall2 alike m1 m2 -> Forall2 alike m2 m3 -> Forall2 alike m1 m3.
Proof.
  intros H; revert m3; induction H as [|x y m1 m2 [H1 H2] H IH];
    intros m3 H3; inversion H3 as [|y' z m2' m3' [H4 H5] H6]; subst;
    constructor; auto.
  split; congruence.
Qed.

Lemma alike_names m acc : Forall2 alike m acc -> names m = names acc.
Proof.
  unfold names. induction 1 as [|x a m acc [H1 _] H IH]; cbn; [reflexivity|].
  now rewrite H1, IH.
Qed.

Lemma store_alike acc v (c : Q) w (d : Q) :
  entry acc (name v) = Some (w, d) -> ref w = ref v ->
  Forall2 alike (store acc v c) acc.
Proof.
  unfold entry. induction acc as [|[u e] acc IH]; cbn [find store fst];
    [discriminate|].
  destruct (String.eqb_spec (name u) (name v)) as [E|E]; intros H Hr.
  - inv H. constructor; [|apply alike_refl]. split; cbn; auto.
  - constructor; [split; reflexivity|]. now apply IH.
Qed.

(** A call that returns replaces a term by one of the same name and
    instance, or adds a term at the end. *)
Lemma set_shape acc v (c : Q) acc' :
  set acc v c = Ok acc' ->
  exists m r, acc' = m ++ r /\ Forall2 alike m acc.
Proof.
  intros H. pose proof (set_Ok _ _ _ _ H) as ->.
  unfold set, setCoefficient, checkVar in H.
  destruct (entry acc (name v)) as [[w d]|] eqn:He.
  - unfold sameInstance in H.
    destruct (Nat.eqb_spec (ref w) (ref v)) as [Hr|Hr]; [|discriminate].
    exists (store acc v c), []. split; [now rewrite app_nil_r|].
    eapply store_alike; eauto.
  - apply entry_None in He. rewrite store_fresh by assumption.
    exists acc, [(v, c)]. split; [reflexivity|apply alike_refl].
Qed.

Lemma setEach_shape (g : Var T * Q -> Q) (l : LinExpr T) :
  forall acc acc',
    setEach g l acc = Ok acc' ->
    exists m r, acc' = m ++ r /\ Forall2 alike m acc.
Proof.
  unfold setEach. induction l as [|y l IH]; intros acc acc' H; cbn in H.
  - inv H. exists acc', []. split; [now rewrite app_nil_r|apply alike_refl].
  - bind_ok H acc1 H1.
    destruct (set_shape _ _ _ _ H1) as (m0 & r0 & -> & Ha0).
    destruct (IH _ _ H) as (m1 & r1 & -> & Ha1).
    apply Forall2_app_inv_r in Ha1 as (m1a & m1b & Ha & Hb & ->).
    exists m1a, (m1b ++ r1). split; [now rewrite app_assoc|].
    eapply alike_trans; eauto.
Qed.

(** A term whose name the loop does not touch stays in front. *)
Lemma setEach_past (g : Var T * Q -> Q) (x : Var T * Q) (l : LinExpr T) :
  ~ In (name (fst x)) (names l) ->
  forall acc, setEach g l (x :: acc)
              = (r <- setEach g l acc ;; Ok (x :: r)).
Proof.
  unfold setEach. induction l as [|y l IH]; intros Hx acc; cbn; [reflexivity|].
  assert (Hne : String.eqb (name (fst x)) (name (fst y)) = false).
  { apply String.eqb_neq. intros E. apply Hx. left. now rewrite E. }
  unfold set at 1 3, setCoefficient, checkVar, entry. cbn [find store].
  destruct x as [w d]; cbn [fst] in *. rewrite Hne.
  fold (entry acc (name (fst y))).
  destruct (entry acc (name (fst y))) as [[u e]|]; cbn.
  - destruct (sameInstance u (fst y)); cbn; [|reflexivity].
    apply IH. intros Hin. apply Hx. now right.
  - destruct (inherited (name (fst y))); cbn; [reflexivity|].
    apply IH. intros Hin. apply Hx. now right.
Qed.

Lemma replay_alike m :
  NoDup (names m) ->
  forall acc, Forall2 alike m acc -> setEach snd m acc = Ok m.
Proof.
  induction m as [|x m IH]; intros Hnd acc Ha; inv Ha; [reflexivity|].
  inv Hnd. destruct H1 as [Hn Hr].
  change (setEach snd (x :: m) (y :: l'))
    with (a <- set (y :: l') (fst x) (snd x) ;; setEach snd m a).
  assert (Hs : set (y :: l') (fst x) (snd x) = Ok (x :: l')).
  { unfold set, setCoefficient, checkVar, entry, sameInstance. cbn [find store].
    destruct y as [w d]; cbn [fst] in *.
    rewrite <- Hn, String.eqb_refl. cbn [fst].
    rewrite <- Hr, Nat.eqb_refl. now destruct x. }
  rewrite Hs; cbn [bind]. rewrite (setEach_past snd x m H2).
  now rewrite (IH H4 l' H3).
Qed.

(** X5.  Saturating again changes nothing: the expression [saturate]
    returned, saturated with the same constraints, comes back as it
    is. *)
Theorem saturate_idempotent (objective : LinExpr T)
        (constraints : list (Constraint T)) (newObjective : LinExpr T) :
  saturate objective constraints = Ok newObjective ->
  saturate newObjective constraints = Ok newObjective.
Proof.
  intros H. rewrite saturate_unfold in H |- *. bind_ok H acc Hacc.
  cbn [bind].
  destruct (setEach_Ok_inv _ _ _ _ Hacc (NoDup_nil _)) as (Hnd & _).
  destruct (setEach_Ok_inv _ _ _ _ H Hnd) as (Hnd' & _).
  destruct (setEach_shape _ _ _ _ H) as (m & r & -> & Ha).
  assert (Hm : NoDup (names m)).
  { unfold names in Hnd'. rewrite map_app in Hnd'.
    exact (NoDup_app_remove_r _ _ Hnd'). }
  unfold setEach at 1. rewrite foldM_app.
  fold (setEach snd m acc). rewrite (replay_alike m Hm acc Ha); cbn [bind].
  assert (Hown : forall n, In n (names (m ++ r)) -> inherited n = false).
  { apply (setEach_proper _ _ _ _ H). apply (setEach_proper _ _ _ _ Hacc).
    intros n []. }
  fold (setEach snd r m). rewrite setEach_fresh.
  - f_equal. f_equal. clear. induction r as [|[v c] r IH]; cbn; [auto|].
    now rewrite IH.
  - intros n Hn. apply Hown. unfold names in Hn |- *. rewrite map_app.
    apply in_app_iff. now right.
  - unfold names in Hnd' |- *. now rewrite <- map_app.
Qed.

End SaturateAgain.

Lemma saturate_idempotent_witness :
  saturate [(sharedY, 1%Q); (sharedX, (- (1))%Q)] smallConstraints
  = Ok [(sharedY, 1%Q); (sharedX, (- (1))%Q)].
Proof.
  apply (saturate_idempotent smallObjective smallConstraints). reflexivity.
Defined.

(** X6.  [minimize] on a model in which no two instances share a name
    and no variable carries a name of [Object.prototype]: it does not
    throw; the engine is given each variable of the saturated objective
    once; when the engine has no solution the result is [undefined],
    otherwise it lists the variables of the saturated objective, in its
    order, each with the value the engine gives to its name. *)
Theorem minimize_solution {T : Type}
        (engine_solve : list EngineVar -> list EngineConstraint
                        -> option (string -> Q))
        (objective : LinExpr T) (constraints : list (Constraint T)) :
  NoDup (names objective) ->
  oneInstancePerName objective constraints ->
  noInheritedName objective constraints ->
  exists newObjective,
    saturate objective constraints = Ok newObjective
    /\ NoDup (map ev_name (engineVars newObjective))
    /\ minimize engine_solve objective constraints
       = Ok (option_map
               (fun value =>
                  map (fun e => (fst e, value (name (fst e)))) newObjective)
               (engine_solve (engineVars newObjective)
                             (engineConstraints constraints))).
Proof.
  intros Hnd Hone Hown.
  destruct (saturate_returns objective constraints Hnd Hone Hown)
    as (e & Hsat & Hnd' & _).
  exists e. split; [assumption|]. split.
  - unfold engineVars, getVarCoefficients. rewrite map_map. exact Hnd'.
  - unfold minimize. rewrite Hsat; cbn [bind].
    destruct (engine_solve _ _) as [value|]; [|reflexivity].
    rewrite setEach_fresh;
      [reflexivity|exact (saturate_proper _ _ _ Hsat)|exact Hnd'].
Qed.

Lemma minimize_solution_witness :
  exists newObjective,
    saturate smallObjective smallConstraints = Ok newObjective
    /\ NoDup (map ev_name (engineVars newObjective))
    /\ minimize justAbove smallObjective smallConstraints
       = Ok (option_map
               (fun value =>
                  map (fun e => (fst e, value (name (fst e)))) newObjective)
               (justAbove (engineVars newObjective)
                          (engineConstraints smallConstraints))).
Proof.
  apply (minimize_solution justAbove smallObjective smallConstraints).
  - repeat constructor; cbn; intuition discriminate.
  - exact small_one_instance.
  - exact small_own_names.
Defined.

(** * Further properties of the model builder *)

(** The loop of [append] over objects, as a concatenation. *)
Lemma append_flat {A : Type} (dest : list A) (source : list (option A)) :
  append anObject dest source = dest ++ defined source.
Proof.
  unfold defined.
  revert dest; induction source as [|[x|] source IH]; intros dest; cbn.
  - now rewrite app_nil_r.
  - now rewrite IH, <- app_assoc.
  - apply IH.
Qed.

Lemma lookup_assign {V : Type} (r : list (string * V)) (key k : string) (x : V) :
  lookup (assign r key x) k
  = if String.eqb k key then Some x else lookup r k.
Proof.
  unfold lookup. induction r as [|[k' y] r IH]; cbn.
  - rewrite (String.eqb_sym key k). now destruct (String.eqb k key).
  - destruct (String.eqb_spec k' key) as [->|Hne]; cbn.
    + rewrite (String.eqb_sym key k). destruct (String.eqb k key); reflexivity.
    + destruct (String.eqb_spec k' k) as [->|Hk]; cbn.
      * destruct (String.eqb_spec k key); [congruence|reflexivity].
      * exact IH.
Qed.

(** The entries of its own of the table [makeRecord] builds. *)
Lemma makeRecord_get {V : Type} (keys : list string) (f : string -> V)
        (k : string) :
  (In k keys -> lookup (makeRecord keys f) k = Some (f k))
  /\ (~ In k keys -> lookup (makeRecord keys f) k = None).
Proof.
  unfold makeRecord.
  assert (H : forall acc : list (string * V),
             (In k keys ->
              lookup (fold_left (fun r key => assign r key (f key)) keys acc) k
              = Some (f k))
             /\ (~ In k keys ->
                 lookup (fold_left (fun r key => assign r key (f key)) keys acc) k
                 = lookup acc k)).
  { induction keys as [|key keys IH]; intros acc; cbn.
    - split; [intros []|reflexivity].
    - destruct (IH (assign acc key (f key))) as [IH1 IH2].
      destruct (in_dec string_dec k keys) as [Hin|Hnin].
      + split; [auto|]. intros Hn. exfalso. apply Hn. now right.
      + split.
        * intros [->|Hin]; [|contradiction].
          rewrite (IH2 Hnin), lookup_assign. now rewrite String.eqb_refl.
        * intros Hn. rewrite (IH2 Hnin), lookup_assign.
          destruct (String.eqb_spec k key) as [->|Hne]; [|reflexivity].
          exfalso. apply Hn. now left. }
  destruct (H []) as [H1 H2]. split; [exact H1|].
  intros Hn. now rewrite (H2 Hn).
Qed.

Lemma forallb_false {A : Type} (f : A -> bool) (l : list A) :
  forallb f l = false -> exists x, In x l /\ f x = false.
Proof.
  induction l as [|x l IH]; cbn; [discriminate|].
  destruct (f x) eqn:E; cbn.
  - intros H. destruct (IH H) as (y & Hy & Hf). eauto.
  - intros _. eauto.
Qed.

Lemma Qle_bool_false (a b : Q) : Qle_bool a b = false -> (b < a)%Q.
Proof.
  intros H. apply Qnot_le_lt. intros Hle. apply Qle_bool_iff in Hle. congruence.
Qed.

Lemma validate_Err_violation (input : Input) :
  validate input <> Ok tt -> shapeViolation input.
Proof.
  unfold validate, assert, shapeViolation.
  destruct (List.length (duration input) =? numTimeSlices input) eqn:E0;
    cbn [bind]; [|intros _; left; now apply Nat.eqb_neq].
  unfold numTimeSlices at 1. rewrite Nat.eqb_refl; cbn [bind].
  destruct (forallb _ (types input)) eqn:E2; cbn [bind].
  2:{ intros _. right; left. apply forallb_false in E2 as (type & Hin & Hf).
      destruct (lookup (expectedOfType input) type) as [counts|] eqn:Hl.
      - exists type, counts. split; [exact Hl|]. now apply Nat.eqb_neq.
      - exfalso. apply lookup_None in Hl. exact (Hl Hin). }
  destruct (List.length (riderType input) =? numRiders input) eqn:E3;
    cbn [bind]; [|intros _; do 2 right; left; now apply Nat.eqb_neq].
  destruct (List.length (available input) =? numTimeSlices input) eqn:E4;
    cbn [bind]; [|intros _; do 3 right; left; now apply Nat.eqb_neq].
  destruct (forallb _ (available input)) eqn:E5; cbn [bind].
  2:{ intros _. do 4 right; left. apply forallb_false in E5 as (row & Hin & Hf).
      exists row. split; [assumption|]. now apply Nat.eqb_neq. }
  unfold numRiders at 1. rewrite Nat.eqb_refl; cbn [bind].
  destruct (forallb _ (duration input)) eqn:E7; cbn [bind].
  2:{ intros _. do 5 right; left. apply forallb_false in E7 as (d & Hin & Hf).
      exists d. split; [assumption|]. now apply Qle_bool_false. }
  destruct (forallb _ (expected input)) eqn:E8; cbn [bind].
  2:{ intros _. do 6 right; left.
      apply forallb_false in E8 as (count & Hin & Hf).
      exists count. split; [assumption|].
      apply andb_false_iff in Hf as [Hf|Hf]; [left|right];
        now apply Qle_bool_false. }
  destruct (forallb _ (riderType input)) eqn:E9; [congruence|].
  intros _. do 7 right. apply forallb_false in E9 as (type & Hin & Hf).
  exists type. split; [assumption|].
  destruct (lookup (expectedOfType input) type) eqn:Hl; [discriminate|auto].
Qed.

Lemma makeLP_rejects_shape_or (input : Input) :
  shapeViolation input -> makeLP input = Err (Error None).
Proof.
  intros Hbad. unfold makeLP.
  destruct (validate_outcome input) as [Hok|Herr]; [|now rewrite Herr].
  exfalso. apply validate_Ok in Hok as (H1 & H2 & H3 & H4 & H5 & H6 & H7 & H8).
  destruct Hbad as [H|[H|[H|[H|[H|[H|[H|H]]]]]]]; try contradiction.
  - destruct H as (type & counts & Hl & Hn). exact (Hn (H2 _ _ Hl)).
  - destruct H as (row & Hin & Hn). exact (Hn (H5 _ Hin)).
  - destruct H as (d & Hin & Hn). exact (Qlt_not_le _ _ Hn (H6 _ Hin)).
  - destruct H as (count & Hin & [Hn|Hn]).
    + exact (Qlt_not_le _ _ Hn (proj1 (H7 _ Hin))).
    + exact (Qlt_not_le _ _ Hn (proj2 (H7 _ Hin))).
  - destruct H as (type & Hin & Hn & Hp).
    destruct (H8 _ Hin) as [H|H]; [exact (H Hn)|congruence].
Qed.

(** X9.  [makeLP] returns a program exactly for the inputs that break
    no shape rule: the assertions reject nothing else and, past them,
    nothing throws.  The rule on the rider types is the one the last
    assertion applies: the type of a rider has a demand-by-type entry or
    names a member of [Object.prototype]. *)
Theorem makeLP_returns_iff_shape (input : Input) :
  (exists p, makeLP input = Ok p) <-> ~ shapeViolation input.
Proof.
  split.
  - intros (p & Hp) Hbad.
    pose proof (makeLP_rejects_shape_or input Hbad) as Herr. congruence.
  - intros Hgood.
    destruct (validate input) as [[]|e] eqn:Hv.
    + destruct (makeLP_returns input Hv) as (p & Hp & _). eauto.
    + exfalso. apply Hgood. apply validate_Err_violation. congruence.
Qed.

(** X10.  The variables of the program of a valid input have pairwise
    distinct names; those that are no candidates are the time variables:
    for every rider one continuous [time[rider]], bounded below by the
    guaranteed time of the rider and unbounded above, with the number of
    candidates as its coefficient in the objective. *)
Theorem makeLP_time_variables (input : Input) :
  validate input = Ok tt ->
  exists p K,
    makeLP input = Ok p
    /\ K = Qnat (List.length (candidatesOf (p_objective p)))
    /\ NoDup (names (p_objective p))
    /\ (forall r, r < numRiders input ->
          exists ref,
            In (RealVar ref (timeName r)
                        (Some (nth r (guaranteed input) 0%Q)) None, K)
               (p_objective p))
    /\ (forall v c, In (v, c) (p_objective p) -> auxData v = None ->
          exists r,
            r < numRiders input
            /\ v = RealVar (ref v) (timeName r)
                           (Some (nth r (guaranteed input) 0%Q)) None
            /\ c = K).
Proof.
  intros valid.
  destruct (makeLP_returns input valid) as (p & Hp & Hobj & _).
  exists p, (Qnat (List.length (enumAll input))).
  split; [assumption|]. split; [|split; [|split]].
  - rewrite Hobj, candidatesOf_app, candidatesOf_candidateTerms,
      candidatesOf_timeTerms, app_nil_r. reflexivity.
  - rewrite Hobj. unfold names. rewrite map_app.
    fold (names (candidateTerms 0 (enumAll input))).
    fold (names (timeTerms input (List.length (enumAll input))
                           (Qnat (List.length (enumAll input)))
                           (numRiders input))).
    rewrite names_candidateTerms, names_timeTerms.
    apply all_names_NoDup, enumAll_NoDup.
  - intros r Hr. exists (List.length (enumAll input) + r).
    rewrite Hobj. apply in_app_iff. right. unfold timeTerms.
    apply in_map_iff. exists r. split; [reflexivity|]. apply in_seq. lia.
  - intros v c Hin Ha. rewrite Hobj in Hin.
    apply in_app_iff in Hin as [Hin|Hin].
    + apply candidateTerms_In in Hin as (i & aux & _ & Heq). inv Heq.
      discriminate Ha.
    + unfold timeTerms in Hin. apply in_map_iff in Hin as (r & Heq & Hr).
      inv Heq. exists r. apply in_seq in Hr. split; [lia|]. split; reflexivity.
Qed.

Lemma makeLP_time_variables_witness :
  exists p K,
    makeLP oneSlot = Ok p
    /\ K = Qnat (List.length (candidatesOf (p_objective p)))
    /\ NoDup (names (p_objective p))
    /\ (forall r, r < numRiders oneSlot ->
          exists ref,
            In (RealVar ref (timeName r)
                        (Some (nth r (guaranteed oneSlot) 0%Q)) None, K)
               (p_objective p))
    /\ (forall v c, In (v, c) (p_objective p) -> auxData v = None ->
          exists r,
            r < numRiders oneSlot
            /\ v = RealVar (ref v) (timeName r)
                           (Some (nth r (guaranteed oneSlot) 0%Q)) None
            /\ c = K).
Proof. apply (makeLP_time_variables oneSlot). reflexivity. Defined.

Lemma enumExtend_length (input : Input) (r a : nat) (l : list nat) (d : Q) :
  List.length (enumExtend input r a l d) <= List.length l.
Proof.
  revert d; induction l as [|b l IH]; intros d; cbn; [lia|].
  destruct (availableAt input b r); cbn; [|lia].
  rewrite length_app. specialize (IH (jsPlus d (durationAt input b))).
  destruct (Qle_bool _ _); cbn; lia.
Qed.

Lemma enumStarts_length (input : Input) (r : nat) (n : nat) :
  forall s, s + n = numTimeSlices input ->
    2 * List.length (flat_map (enumStart input r) (seq s n)) <= n * (n + 1).
Proof.
  induction n as [|n IH]; intros s Hs; cbn [seq flat_map]; [cbn; lia|].
  rewrite length_app. specialize (IH (S s) ltac:(lia)).
  pose proof (enumExtend_length input r s
                (seq s (numTimeSlices input - s)) 0%Q) as H.
  rewrite length_seq in H. unfold enumStart at 1. nia.
Qed.

(** X11.  The program of a valid input with R riders and T slots has at
    most R * T * (T + 1) / 2 candidates. *)
Theorem makeLP_candidate_count (input : Input) :
  validate input = Ok tt ->
  exists p,
    makeLP input = Ok p
    /\ 2 * List.length (candidatesOf (p_objective p))
       <= numRiders input * (numTimeSlices input * (numTimeSlices input + 1)).
Proof.
  intros valid.
  destruct (makeLP_program input valid) as (p & e & Hp & _ & _ & Hc & _).
  exists p. split; [assumption|]. rewrite Hc. unfold enumAll.
  assert (H : forall n s,
             2 * List.length (flat_map (enumRider input) (seq s n))
             <= n * (numTimeSlices input * (numTimeSlices input + 1))).
  { induction n as [|n IH]; intros s; cbn [seq flat_map]; [cbn; lia|].
    rewrite length_app. specialize (IH (S s)).
    pose proof (enumStarts_length input s (numTimeSlices input) 0 eq_refl) as Hr.
    fold (enumRider input s) in Hr. nia. }
  apply H.
Qed.

Lemma makeLP_candidate_count_witness :
  exists p,
    makeLP oneSlot = Ok p
    /\ 2 * List.length (candidatesOf (p_objective p))
       <= numRiders oneSlot * (numTimeSlices oneSlot * (numTimeSlices oneSlot + 1)).
Proof. apply (makeLP_candidate_count oneSlot). reflexivity. Defined.

Lemma time_weight_bounds_candidate_terms_witness :
  exists p K,
    makeLP oneSlot = Ok p
    /\ K = Qnat (List.length (candidatesOf (p_objective p)))
    /\ (forall v c, In (v, c) (p_objective p) -> auxData v = None -> c = K)
    /\ forall value,
         (forall v, In v (vars (p_objective p)) -> isBool v = true ->
                    (value (name v) <= 1)%Q) ->
         (candidateSum value (p_objective p) <= K)%Q.
Proof. apply (time_weight_bounds_candidate_terms oneSlot). reflexivity. Defined.

(** ** The tables, term by term *)

Lemma nth_error_mapi_from {A B : Type} (F : A -> nat -> B) (l : list A) :
  forall n i,
    nth_error (mapi_from n F l) i
    = option_map (fun x => F x (n + i)) (nth_error l i).
Proof.
  induction l as [|x l IH]; intros n [|i]; cbn; auto.
  - now rewrite Nat.add_0_r.
  - rewrite IH. now replace (S n + i) with (n + S i) by lia.
Qed.

Lemma nth_error_mapi {A B : Type} (F : A -> nat -> B) (l : list A) (i : nat) :
  nth_error (mapi F l) i = option_map (fun x => F x i) (nth_error l i).
Proof. unfold mapi. now rewrite nth_error_mapi_from. Qed.

Lemma mapi_length {A B : Type} (F : A -> nat -> B) (l : list A) :
  List.length (mapi F l) = List.length l.
Proof. apply mapi_from_length. Qed.

(** Rows built from index-wise equal terms are equal. *)
Lemma mapi_agree {A B : Type} (F G : A -> nat -> B) (l : list A) :
  (forall x i, nth_error l i = Some x -> F x i = G x i) ->
  mapi F l = mapi G l.
Proof.
  intros H. apply nth_error_ext. intros i. rewrite !nth_error_mapi.
  destruct (nth_error l i) as [x|] eqn:E; cbn; [|reflexivity].
  now rewrite (H x i E).
Qed.

Lemma optRow_agree {X : Type} (present : X -> nat -> bool)
      (nm : X -> nat -> string) (lo hi : X -> nat -> option Q)
      (tau tau' : nat -> LinExpr AuxData) (l : list X) :
  (forall i, i < List.length l -> tau i = tau' i) ->
  optRow present nm lo hi tau l = optRow present nm lo hi tau' l.
Proof.
  intros H. unfold optRow. apply mapi_agree. intros x i Hx.
  rewrite (H i); [reflexivity|]. apply nth_error_Some. congruence.
Qed.

(** [row[t]?.setCoefficient(v, q)] on a row: the terms at [t] gain
    [(v, q)], every other cell is as before. *)
Lemma optRow_set {X : Type} (present : X -> nat -> bool)
      (nm : X -> nat -> string) (lo hi : X -> nat -> option Q)
      (tau tau' : nat -> LinExpr AuxData) (l : list X)
      (t : nat) (v : Var AuxData) (q : Q) :
  inherited (name v) = false ->
  (forall j, j <> t -> tau' j = tau j) ->
  tau' t = tau t ++ [(v, q)] ->
  ~ In (name v) (names (tau t)) ->
  at_index_opt (optRow present nm lo hi tau l) t (fun c => setC c v q)
  = Ok (optRow present nm lo hi tau' l).
Proof.
  intros Hown Hother Hthis Hfresh. unfold at_index_opt, optRow.
  rewrite nth_error_mapi.
  destruct (nth_error l t) as [x|] eqn:Hx; cbn [option_map].
  - destruct (present x t) eqn:Hp.
    + unfold setC; cbn [terms cname clowerBound cupperBound].
      rewrite set_returns, store_fresh by
        (auto; intros w d Hin Hn; exfalso; apply Hfresh; rewrite <- Hn;
         apply in_map_iff; exists (w, d); auto).
      cbn [bind]. f_equal. apply nth_error_ext. intros j.
      rewrite replace_nth_error, !nth_error_mapi.
      destruct (Nat.eqb_spec j t) as [->|Hj]; cbn [andb].
      * rewrite mapi_length.
        assert (Hlt : (t <? List.length l) = true).
        { apply Nat.ltb_lt, nth_error_Some. congruence. }
        rewrite Hlt, Hx; cbn. now rewrite Hp, Hthis.
      * destruct (nth_error l j); cbn; [|reflexivity].
        now rewrite (Hother j Hj).
    + f_equal. apply mapi_agree. intros y j Hy.
      destruct (Nat.eq_dec j t) as [->|Hj].
      * rewrite Hx in Hy; inv Hy. now rewrite Hp.
      * now rewrite (Hother j Hj).
  - f_equal. apply mapi_agree. intros y j Hy.
    rewrite (Hother j); [reflexivity|]. intros ->. congruence.
Qed.

(** [arr[i].m(...)] on an array given cell by cell. *)
Lemma at_index_mapi {A B : Type} (F F' : A -> nat -> B) (l : list A) (i : nat)
      (m : B -> result B) (x : A) :
  nth_error l i = Some x ->
  m (F x i) = Ok (F' x i) ->
  (forall j y, j <> i -> nth_error l j = Some y -> F' y j = F y j) ->
  at_index (mapi F l) i m = Ok (mapi F' l).
Proof.
  intros Hx Hm Hother. unfold at_index. rewrite nth_error_mapi, Hx; cbn.
  rewrite Hm; cbn. f_equal. apply nth_error_ext. intros j.
  rewrite replace_nth_error, !nth_error_mapi.
  destruct (Nat.eqb_spec j i) as [->|Hj]; cbn [andb].
  - rewrite mapi_length.
    assert (Hlt : (i <? List.length l) = true).
    { apply Nat.ltb_lt, nth_error_Some. congruence. }
    now rewrite Hlt, Hx.
  - destruct (nth_error l j) as [y|] eqn:Hy; cbn; [|reflexivity].
    now rewrite (Hother j y Hj Hy).
Qed.

Lemma pending_other (v : Var AuxData) (a s j : nat) :
  j <> s -> pending v a (S s) j = pending v a s j.
Proof.
  intros H. unfold pending.
  destruct (Nat.leb_spec a j), (Nat.ltb_spec j (S s)), (Nat.ltb_spec j s);
    cbn; auto; lia.
Qed.

Lemma pending_this (v : Var AuxData) (a s : nat) :
  a <= s -> pending v a s s = [] /\ pending v a (S s) s = [(v, 1%Q)].
Proof.
  intros H. unfold pending.
  destruct (Nat.leb_spec a s), (Nat.ltb_spec s (S s)), (Nat.ltb_spec s s);
    cbn; auto; lia.
Qed.

Lemma pending_none (v : Var AuxData) (a t : nat) : pending v a a t = [].
Proof.
  unfold pending.
  destruct (Nat.leb_spec a t), (Nat.ltb_spec t a); cbn; auto; lia.
Qed.

Section FillFacts.
Variable input : Input.

Local Abbreviation R := (numRiders input).

Lemma Filled_agree (tTC tE : nat -> LinExpr AuxData)
      (tET : string -> nat -> LinExpr AuxData)
      (tD : nat -> nat -> LinExpr AuxData) tTC' tE' tET' tD' (st : Tables) :
  (forall r, tTC r = tTC' r) -> (forall t, tE t = tE' t) ->
  (forall type t, tET type t = tET' type t) ->
  (forall r t, tD r t = tD' r t) ->
  Filled input tTC tE tET tD st -> Filled input tTC' tE' tET' tD' st.
Proof.
  intros H1 H2 H3 H4 (F1 & F2 & F3 & F4 & F5). repeat split.
  - rewrite F1. unfold timeCountedRow. apply mapi_agree. intros x i _.
    now rewrite H1.
  - rewrite F2. apply optRow_agree. auto.
  - intros type Hin. rewrite (F3 type Hin). f_equal. apply optRow_agree. auto.
  - rewrite F4. unfold disjointRows. apply mapi_agree. intros x i _.
    apply optRow_agree. auto.
  - exact F5.
Qed.

(** One round of the loop over the covered slots. *)
Lemma cover_fills (bTC bE : nat -> LinExpr AuxData)
      (bET : string -> nat -> LinExpr AuxData)
      (bD : nat -> nat -> LinExpr AuxData)
      (v : Var AuxData) (r a s : nat) (st : Tables) :
  r < R ->
  In (riderTypeAt input r) (types input)
  \/ inherited (riderTypeAt input r) = true ->
  inherited (name v) = false -> a <= s ->
  (forall t, ~ In (name v) (names (bE t))) ->
  (forall type t, ~ In (name v) (names (bET type t))) ->
  (forall r' t, ~ In (name v) (names (bD r' t))) ->
  Filled input bTC
         (fun t => bE t ++ pending v a s t)
         (fun type t => bET type t
                        ++ if String.eqb (riderTypeAt input r) type
                           then pending v a s t else [])
         (fun r' t => bD r' t ++ if r' =? r then pending v a s t else [])
         st ->
  exists st',
    cover input r v st s = Ok st'
    /\ Filled input bTC
              (fun t => bE t ++ pending v a (S s) t)
              (fun type t => bET type t
                             ++ if String.eqb (riderTypeAt input r) type
                                then pending v a (S s) t else [])
              (fun r' t => bD r' t ++ if r' =? r then pending v a (S s) t else [])
              st'
    /\ sameHead st st'.
Proof.
  intros Hr Hty Hown Has HfE HfET HfD (F1 & F2 & F3 & F4 & F5).
  destruct (pending_this v a s Has) as (Hp0 & Hp1).
  unfold cover. rewrite F2. unfold enoughRow.
  rewrite (optRow_set _ _ _ _ _ (fun t => bE t ++ pending v a (S s) t));
    [|exact Hown| | |].
  2:{ intros j Hj. now rewrite pending_other. }
  2:{ now rewrite Hp0, Hp1, app_nil_r. }
  2:{ rewrite Hp0, app_nil_r. apply HfE. }
  cbn [bind]. rewrite F4. unfold disjointRows.
  assert (Hg : exists x, nth_error (guaranteed input) r = Some x).
  { destruct (nth_error (guaranteed input) r) eqn:E; [eauto|].
    apply nth_error_None in E. unfold numRiders in Hr. lia. }
  destruct Hg as (x & Hx).
  assert (Hdis :
    at_index (mapi (fun _ r' => disjointRow input r'
                      (fun t => bD r' t
                                ++ if r' =? r then pending v a s t else []))
                   (guaranteed input)) r
             (fun row => at_index_opt row s (fun c => setC c v 1%Q))
    = Ok (mapi (fun _ r' => disjointRow input r'
                  (fun t => bD r' t
                            ++ if r' =? r then pending v a (S s) t else []))
               (guaranteed input))).
  { apply (at_index_mapi _ _ _ r _ x Hx).
    - unfold disjointRow.
      apply (optRow_set _ _ _ _
               (fun t => bD r t ++ if r =? r then pending v a s t else []));
        [exact Hown| | |].
      + intros j Hj. now rewrite pending_other.
      + now rewrite Nat.eqb_refl, Hp0, Hp1, app_nil_r.
      + rewrite Nat.eqb_refl, Hp0, app_nil_r. apply HfD.
    - intros j y Hj _. apply optRow_agree. intros i _.
      apply Nat.eqb_neq in Hj. now rewrite Hj. }
  unfold at_key.
  destruct (in_dec string_dec (riderTypeAt input r) (types input))
    as [Hin|Hnin].
  - rewrite (F3 _ Hin). unfold enoughOfTypeRow at 1.
    rewrite (optRow_set _ _ _ _ _
               (fun t => bET (riderTypeAt input r) t
                         ++ if String.eqb (riderTypeAt input r)
                                          (riderTypeAt input r)
                            then pending v a (S s) t else []));
      [|exact Hown| | |].
    2:{ intros j Hj. now rewrite pending_other. }
    2:{ now rewrite String.eqb_refl, Hp0, Hp1, app_nil_r. }
    2:{ rewrite String.eqb_refl, Hp0, app_nil_r. apply HfET. }
    cbn [bind]. rewrite Hdis. cbn [bind].
    eexists. split; [reflexivity|]. split; [|repeat split].
    repeat split; cbn; auto.
    + intros type Hin'. rewrite lookup_assign.
      destruct (String.eqb_spec type (riderTypeAt input r)) as [->|Hne];
        [reflexivity|].
      rewrite (F3 type Hin'). f_equal. apply optRow_agree. intros i _.
      destruct (String.eqb_spec (riderTypeAt input r) type); [congruence|].
      reflexivity.
    + intros type Hnin'. rewrite lookup_assign.
      destruct (String.eqb_spec type (riderTypeAt input r)) as [->|Hne];
        [contradiction|]. now apply F5.
  - destruct Hty as [Hin|Hinh]; [contradiction|].
    rewrite (F5 _ Hnin), Hinh. cbn [bind]. rewrite Hdis. cbn [bind].
    eexists. split; [reflexivity|]. split; [|repeat split].
    repeat split; cbn; auto.
    intros type Hin'. rewrite (F3 type Hin'). f_equal.
    apply optRow_agree. intros i _.
    destruct (String.eqb_spec (riderTypeAt input r) type) as [E|E];
      [|reflexivity].
    exfalso. apply Hnin. now rewrite E.
Qed.

Lemma cover_loop_fills (bTC bE : nat -> LinExpr AuxData)
      (bET : string -> nat -> LinExpr AuxData)
      (bD : nat -> nat -> LinExpr AuxData)
      (v : Var AuxData) (r a : nat) :
  r < R ->
  In (riderTypeAt input r) (types input)
  \/ inherited (riderTypeAt input r) = true ->
  inherited (name v) = false ->
  (forall t, ~ In (name v) (names (bE t))) ->
  (forall type t, ~ In (name v) (names (bET type t))) ->
  (forall r' t, ~ In (name v) (names (bD r' t))) ->
  forall n s st,
    a <= s ->
    Filled input bTC
           (fun t => bE t ++ pending v a s t)
           (fun type t => bET type t
                          ++ if String.eqb (riderTypeAt input r) type
                             then pending v a s t else [])
           (fun r' t => bD r' t ++ if r' =? r then pending v a s t else [])
           st ->
    exists st',
      foldM (cover input r v) (seq s n) st = Ok st'
      /\ Filled input bTC
                (fun t => bE t ++ pending v a (s + n) t)
                (fun type t => bET type t
                               ++ if String.eqb (riderTypeAt input r) type
                                  then pending v a (s + n) t else [])
                (fun r' t => bD r' t
                             ++ if r' =? r then pending v a (s + n) t else [])
                st'
      /\ sameHead st st'.
Proof.
  intros Hr Hty Hown HfE HfET HfD.
  induction n as [|n IH]; intros s st Has HF.
  - cbn. exists st. rewrite Nat.add_0_r.
    split; [reflexivity|]. split; [exact HF|repeat split].
  - cbn [seq foldM].
    destruct (cover_fills bTC bE bET bD v r a s st Hr Hty Hown Has
                HfE HfET HfD HF)
      as (st1 & -> & HF1 & Hh1). cbn [bind].
    destruct (IH (S s) st1 ltac:(lia) HF1) as (st' & -> & HF' & Hh').
    exists st'. split; [reflexivity|].
    replace (s + S n) with (S s + n) by lia. split; [exact HF'|].
    destruct Hh1 as (? & ? & ? & ?), Hh' as (? & ? & ? & ?).
    repeat split; congruence.
Qed.

Lemma selTerms_app (sel : AuxData -> option Q) (L : list AuxData) (x : AuxData) :
  forall n,
    selTerms sel n (L ++ [x])
    = selTerms sel n L
      ++ match sel x with
         | Some c => [(candidateVar (n + List.length L) x, c)]
         | None => []
         end.
Proof.
  induction L as [|y L IH]; intros n; cbn.
  - now rewrite Nat.add_0_r, app_nil_r.
  - rewrite IH, <- app_assoc. do 3 f_equal.
    now replace (S n + List.length L) with (n + S (List.length L)) by lia.
Qed.

Lemma selTerms_names (sel : AuxData -> option Q) (L : list AuxData) (nm : string) :
  forall n, In nm (names (selTerms sel n L)) -> In nm (map candName L).
Proof.
  unfold names. induction L as [|y L IH]; intros n; cbn; [auto|].
  rewrite map_app, in_app_iff. intros [H|H]; [|right; eauto].
  destruct (sel y); cbn in H; [|contradiction].
  destruct H as [<-|[]]. now left.
Qed.

Lemma selTerms_fresh (sel : AuxData -> option Q) (L : list AuxData)
      (x : AuxData) (ref n : nat) :
  NoDup (L ++ [x]) ->
  ~ In (name (candidateVar ref x)) (names (selTerms sel n L)).
Proof.
  intros Hnd Hin. apply selTerms_names in Hin.
  apply in_map_iff in Hin as (y & Hy & Hin).
  apply candName_inj in Hy; subst y.
  apply NoDup_remove_2 in Hnd. rewrite app_nil_r in Hnd. contradiction.
Qed.

(** The body of [if (d >= minDuration)], term by term. *)
Lemma candidate_fills (r a b : nat) (d : Q) (L : list AuxData) (st : Tables) :
  r < R ->
  In (riderTypeAt input r) (types input)
  \/ inherited (riderTypeAt input r) = true ->
  a <= b ->
  d = totalDuration input a b ->
  afterCandidates input L st -> filledAfter input L st ->
  NoDup (L ++ [mkAuxData r a b]) ->
  exists st', candidate input r a b d st = Ok st'
              /\ filledAfter input (L ++ [mkAuxData r a b]) st'.
Proof.
  intros Hr Hty Hab Hd (HS & HW & Hobj & Href & HK) (F1 & F2 & F3 & F4 & F5) Hnd.
  unfold candidate. set (x := mkAuxData r a b).
  set (v := candidateVar (next_ref st) x).
  assert (Hown : inherited (name v) = false) by apply candidateName_own.
  assert (Hfresh : forall sel n, ~ In (name v) (names (selTerms sel n L))).
  { intros sel n. now apply selTerms_fresh. }
  assert (Hset : set (objective st) v 1%Q = Ok (objective st ++ [(v, 1%Q)])).
  { assert (Hf : ~ In (name v) (names (objective st))).
    { rewrite Hobj, names_candidateTerms. intros Hin.
      apply in_map_iff in Hin as (y & Hy & Hin).
      apply candName_inj in Hy; subst y.
      apply NoDup_remove_2 in Hnd. rewrite app_nil_r in Hnd. contradiction. }
    rewrite set_returns, store_fresh; auto.
    intros w c Hin Hn. exfalso; apply Hf. rewrite <- Hn.
    apply in_map_iff. exists (w, c); auto. }
  rewrite Hset; cbn [bind]. rewrite F1. unfold timeCountedRow.
  assert (Hg : exists g, nth_error (guaranteed input) r = Some g).
  { destruct (nth_error (guaranteed input) r) eqn:E; [eauto|].
    apply nth_error_None in E. unfold numRiders in Hr. lia. }
  destruct Hg as (g & Hg).
  rewrite (at_index_mapi
             _ (fun _ r' =>
                  mkConstraint ("timeCounted[" +++ show_nat r' +++ "]")
                    (Some 0%Q) None
                    (selTerms (selTimeCounted input r') 0 L
                     ++ if r' =? r then [(v, (- d)%Q)] else []))
             _ r _ g Hg).
  2:{ unfold setC; cbn [terms cname clowerBound cupperBound].
      rewrite set_returns, store_fresh; auto.
      - cbn [bind]. now rewrite Nat.eqb_refl.
      - intros w c Hin Hn. exfalso. apply (Hfresh (selTimeCounted input r) 0).
        rewrite <- Hn. apply in_map_iff. exists (w, c); auto. }
  2:{ intros j y Hj _. apply Nat.eqb_neq in Hj. now rewrite Hj, app_nil_r. }
  cbn [bind].
  match goal with
  | |- context [foldM _ _ ?s0] => set (st1 := s0)
  end.
  destruct (cover_loop_fills
              (fun r' => selTerms (selTimeCounted input r') 0 L
                         ++ if r' =? r then [(v, (- d)%Q)] else [])
              (fun t => selTerms (selEnough t) 0 L)
              (fun type t => selTerms (selEnoughOfType input type t) 0 L)
              (fun r' t => selTerms (selDisjoint r' t) 0 L)
              v r a Hr Hty Hown
              (fun t => Hfresh _ 0) (fun type t => Hfresh _ 0)
              (fun r' t => Hfresh _ 0)
              (S b - a) a st1 (le_n _))
    as (st2 & -> & HF2 & Hh2).
  { repeat split; cbn.
    - rewrite F2. apply optRow_agree. intros i _.
      now rewrite pending_none, app_nil_r.
    - intros type Hin. rewrite (F3 type Hin). f_equal.
      apply optRow_agree. intros i _. rewrite pending_none.
      destruct (String.eqb _ _); now rewrite app_nil_r.
    - rewrite F4. unfold disjointRows. apply mapi_agree. intros y i _.
      apply optRow_agree. intros j _. rewrite pending_none.
      destruct (i =? r); now rewrite app_nil_r.
    - exact F5. }
  cbn [bind]. eexists. split; [reflexivity|].
  replace (a + (S b - a)) with (S b) in HF2 by lia.
  destruct HF2 as (G1 & G2 & G3 & G4 & G5).
  assert (Hv : v = candidateVar (0 + List.length L) x).
  { unfold v. now rewrite Href. }
  assert (Hpend : forall t, pending v a (S b) t
                            = if inRange x t then [(v, 1%Q)] else []).
  { intros t. reflexivity. }
  clearbody v. subst x.
  repeat split; cbn.
  - rewrite G1. unfold timeCountedRow. apply mapi_agree. intros y i _.
    rewrite selTerms_app, <- Hv.
    change (selTimeCounted input i (mkAuxData r a b))
      with (if r =? i then Some (- totalDuration input a b)%Q else None).
    rewrite <- Hd, (Nat.eqb_sym i r). now destruct (r =? i).
  - rewrite G2. apply optRow_agree. intros i _.
    rewrite selTerms_app, Hpend, <- Hv.
    change (selEnough i (mkAuxData r a b))
      with (if inRange (mkAuxData r a b) i then Some 1%Q else None).
    now destruct (inRange (mkAuxData r a b) i).
  - intros type Hin. rewrite (G3 type Hin). f_equal.
    apply optRow_agree. intros i _.
    rewrite selTerms_app, Hpend, <- Hv.
    change (selEnoughOfType input type i (mkAuxData r a b))
      with (if String.eqb (riderTypeAt input r) type
               && inRange (mkAuxData r a b) i
            then Some 1%Q else None).
    destruct (String.eqb (riderTypeAt input r) type),
      (inRange (mkAuxData r a b) i); reflexivity.
  - rewrite G4. unfold disjointRows. apply mapi_agree. intros y i _.
    apply optRow_agree. intros j _.
    rewrite selTerms_app, Hpend, <- Hv.
    change (selDisjoint i j (mkAuxData r a b))
      with (if (r =? i) && inRange (mkAuxData r a b) j
            then Some 1%Q else None).
    rewrite (Nat.eqb_sym i r).
    destruct (r =? i), (inRange (mkAuxData r a b) j); reflexivity.
  - exact G5.
Qed.

Lemma totalDuration_step (a s : nat) :
  a <= s ->
  jsPlus (fold_left jsPlus (map (durationAt input) (seq a (s - a))) 0%Q)
         (durationAt input s)
  = totalDuration input a s.
Proof.
  intros H. unfold totalDuration.
  replace (S s - a) with (S (s - a)) by lia.
  rewrite seq_S, map_app, fold_left_app. cbn.
  now replace (a + (s - a)) with s by lia.
Qed.

Lemma extend_fills (r a : nat) :
  r < R ->
  In (riderTypeAt input r) (types input)
  \/ inherited (riderTypeAt input r) = true ->
  forall n s d L st,
    a <= s ->
    d = fold_left jsPlus (map (durationAt input) (seq a (s - a))) 0%Q ->
    built input L st ->
    NoDup (L ++ enumExtend input r a (seq s n) d) ->
    exists st', extend input r a (seq s n) d st = Ok st'
                /\ built input (L ++ enumExtend input r a (seq s n) d) st'.
Proof.
  intros Hr Hty. induction n as [|n IH]; intros s d L st Has Hd HL Hnd;
    cbn [seq extend enumExtend] in *.
  - rewrite app_nil_r. eauto.
  - destruct (availableAt input s r); [|rewrite app_nil_r; eauto].
    assert (Hd' : (jsPlus d (durationAt input s))
                  = fold_left jsPlus
                      (map (durationAt input) (seq a (S s - a))) 0%Q).
    { rewrite Hd, totalDuration_step by assumption. reflexivity. }
    destruct (Qle_bool (minDuration input) (jsPlus d (durationAt input s))).
    + destruct HL as (HA & HF). pose proof HA as (HS & HW & Hobj & Href & Hk).
      cbn [app] in Hnd.
      assert (Hnd1 : NoDup (L ++ [mkAuxData r a s])).
      { replace (L ++ mkAuxData r a s
                   :: enumExtend input r a (seq (S s) n) (jsPlus d (durationAt input s)))
          with ((L ++ [mkAuxData r a s])
                ++ enumExtend input r a (seq (S s) n) (jsPlus d (durationAt input s)))
          in Hnd by now rewrite <- app_assoc.
        eapply NoDup_app_remove_r; exact Hnd. }
      destruct (candidate_keeps input r a s (jsPlus d (durationAt input s)) st
                  Hr HS HW)
        as (st1 & E1 & HS1 & HW1 & Hobj1 & Href1 & Hk1).
      { rewrite Hobj, names_candidateTerms.
        change [name (candidateVar (next_ref st) (mkAuxData r a s))]
          with (map candName [mkAuxData r a s]).
        rewrite <- map_app. now apply NoDup_candNames. }
      assert (Htot : (jsPlus d (durationAt input s)) = totalDuration input a s).
      { rewrite Hd. now apply totalDuration_step. }
      destruct (candidate_fills r a s (jsPlus d (durationAt input s)) L st
                  Hr Hty Has Htot HA HF Hnd1)
        as (st1' & E1' & HF1).
      rewrite E1 in E1'. injection E1' as E1'. rewrite E1; cbn [bind].
      rewrite <- E1' in HF1. clear E1' st1'.
      assert (HL1 : built input (L ++ [mkAuxData r a s]) st1).
      { split; [|exact HF1]. repeat split; try apply HS1; try apply HW1.
        - rewrite Hobj1, Hobj. unfold candidateTerms.
          rewrite mapi_from_app; cbn. now rewrite Href.
        - rewrite Href1, Href, length_app; cbn; lia.
        - rewrite Hk1, Hk, Qnat_succ, length_app; cbn. f_equal; lia. }
      destruct (IH (S s) (jsPlus d (durationAt input s)) _ st1 ltac:(lia) Hd' HL1)
        as (st' & E & HL').
      { now rewrite <- app_assoc. }
      exists st'. split; [exact E|]. now rewrite <- app_assoc in HL'.
    + cbn [bind app]. apply IH; auto; lia.
Qed.

Lemma foldM_builds {A : Type} (f : Tables -> A -> result Tables)
      (g : A -> list AuxData) (D : A -> Prop) :
  (forall x L st, D x -> built input L st -> NoDup (L ++ g x) ->
     exists st', f st x = Ok st' /\ built input (L ++ g x) st') ->
  forall l, Forall D l ->
  forall L st, built input L st -> NoDup (L ++ flat_map g l) ->
    exists st', foldM f l st = Ok st'
                /\ built input (L ++ flat_map g l) st'.
Proof.
  intros step l Hl. induction Hl as [|x l Hx Hl IH]; intros L st HL Hnd; cbn in *.
  - rewrite app_nil_r. eauto.
  - rewrite app_assoc in Hnd.
    destruct (step x L st Hx HL) as (st1 & -> & HL1); cbn [bind].
    { eapply NoDup_app_remove_r; exact Hnd. }
    destruct (IH _ st1 HL1 Hnd) as (st' & E & HL').
    exists st'. split; [exact E|]. now rewrite app_assoc.
Qed.

Hypothesis valid : validate input = Ok tt.

Lemma riderType_known (r : nat) :
  r < R ->
  In (riderTypeAt input r) (types input)
  \/ inherited (riderTypeAt input r) = true.
Proof.
  intros Hr.
  apply validate_Ok in valid as (_ & _ & Hrt & _ & _ & _ & _ & Hty).
  assert (Hin : In (riderTypeAt input r) (riderType input)).
  { apply nth_In. lia. }
  apply Hty in Hin as [Hin|Hin]; [left|now right].
  rewrite lookup_None in Hin. unfold types.
  destruct (in_dec string_dec (riderTypeAt input r)
                   (map fst (expectedOfType input))); tauto.
Qed.

Lemma initial_built : built input [] (initial input).
Proof.
  split; [now apply initial_tables|]. repeat split.
  - intros type Hin. cbn.
    now rewrite (proj1 (makeRecord_get (types input) _ type) Hin).
  - intros type Hnin. cbn.
    now rewrite (proj2 (makeRecord_get (types input) _ type) Hnin).
Qed.

Lemma riders_build :
  exists st', foldM (forRider input) (seq 0 R) (initial input) = Ok st'
              /\ built input (enumAll input) st'.
Proof.
  apply (foldM_builds (forRider input) (enumRider input) (fun r => r < R))
    with (L := []).
  - intros r L st Hr HL Hnd. unfold forRider, enumRider.
    apply (foldM_builds (fromStart input r) (enumStart input r)
             (fun a => a < numTimeSlices input)); auto.
    + intros a L0 st0 Ha H0 Hnd0. unfold fromStart, enumStart.
      apply extend_fills; auto using riderType_known.
      now rewrite Nat.sub_diag.
    + apply Forall_forall. intros a Ha. apply in_seq in Ha. lia.
  - apply Forall_forall. intros r Hr. apply in_seq in Hr. lia.
  - exact initial_built.
  - apply enumAll_NoDup.
Qed.

Lemma timeVar_fills (k : nat) (st : Tables) :
  k < R -> builtTimes input k st ->
  exists st', timeVar input st k = Ok st' /\ builtTimes input (S k) st'.
Proof.
  intros Hk (HA & F1 & F2 & F3 & F4 & F5).
  pose proof HA as (HS & HW & Hobj & Href & HK).
  set (N := List.length (enumAll input)) in *.
  assert (Hnd : NoDup (names (objective st)
                       ++ [name (timeVarOf input (next_ref st) k)])).
  { rewrite Hobj. unfold names. rewrite map_app.
    fold (names (candidateTerms 0 (enumAll input))).
    fold (names (timeTerms input N (Qnat N) k)).
    rewrite names_candidateTerms, names_timeTerms, <- app_assoc.
    change [name (timeVarOf input (next_ref st) k)] with (map timeName [k]).
    rewrite <- map_app, <- seq_S.
    apply all_names_NoDup, enumAll_NoDup. }
  destruct (timeVar_keeps input k st Hk HS HW Hnd)
    as (st' & E & HS' & HW' & Hobj' & Href' & HK').
  exists st'. split; [exact E|]. split.
  - repeat split; try apply HS'; try apply HW'.
    + rewrite Hobj', Hobj, HK, Href. unfold timeTerms.
      rewrite seq_S, map_app, <- app_assoc. reflexivity.
    + fold N. lia.
    + rewrite HK'. exact HK.
  - unfold timeVar in E. bind_ok E obj Eo. rewrite F1 in E.
    unfold timeCountedRow in E.
    assert (Hg : exists g, nth_error (guaranteed input) k = Some g).
    { destruct (nth_error (guaranteed input) k) eqn:Eg; [eauto|].
      apply nth_error_None in Eg. unfold numRiders in Hk. lia. }
    destruct Hg as (g & Hg).
    rewrite (at_index_mapi
               _ (fun _ r =>
                    mkConstraint ("timeCounted[" +++ show_nat r +++ "]")
                      (Some 0%Q) None
                      (selTerms (selTimeCounted input r) 0 (enumAll input)
                       ++ if r <? S k
                          then [(timeVarOf input (N + r) r, 1%Q)] else []))
               _ k _ g Hg) in E.
    + cbn [bind] in E. inv E. repeat split; cbn; auto.
    + unfold setC; cbn [terms cname clowerBound cupperBound].
      rewrite Nat.ltb_irrefl, app_nil_r.
      assert (Hf : ~ In (name (timeVarOf input (next_ref st) k))
                        (names (selTerms (selTimeCounted input k) 0
                                         (enumAll input)))).
      { intros Hin. apply selTerms_names in Hin.
        apply in_map_iff in Hin as (aux & Ha & _).
        symmetry in Ha. exact (timeName_not_candidate _ _ _ _ Ha). }
      rewrite set_returns.
      * rewrite store_fresh by exact Hf.
        cbn [bind]. rewrite Href.
        assert (Hlt : (k <? S k) = true) by (apply Nat.ltb_lt; lia).
        now rewrite Hlt.
      * apply timeName_own.
      * intros w c Hin Hn. exfalso.
        assert (Hin' : In (name w)
                          (names (selTerms (selTimeCounted input k) 0
                                           (enumAll input)))).
        { apply in_map_iff. exists (w, c); auto. }
        apply selTerms_names in Hin'.
        apply in_map_iff in Hin' as (aux & Ha & _).
        rewrite Hn in Ha. symmetry in Ha.
        exact (timeName_not_candidate _ _ _ _ Ha).
    + intros j y Hj _.
      destruct (Nat.ltb_spec j (S k)), (Nat.ltb_spec j k);
        try reflexivity; lia.
Qed.

Lemma times_build (st : Tables) (k : nat) :
  k <= R -> built input (enumAll input) st ->
  exists st', foldM (timeVar input) (seq 0 k) st = Ok st'
              /\ builtTimes input k st'.
Proof.
  intros Hk (HA & HF). induction k as [|k IH].
  - cbn. exists st. split; [reflexivity|]. split.
    + destruct HA as (HS & HW & Hobj & Href & HK).
      unfold afterTimes, timeTerms; cbn.
      rewrite app_nil_r, Nat.add_0_r. auto.
    + eapply Filled_agree; [| | | |exact HF]; intros; cbn;
        now rewrite ?app_nil_r.
  - destruct IH as (st1 & E1 & H1); [lia|].
    rewrite seq_S, foldM_app, E1; cbn [bind foldM Nat.add].
    destruct (timeVar_fills k st1 ltac:(lia) H1) as (st' & -> & H').
    exists st'. split; [reflexivity|exact H'].
Qed.

Lemma fold_left_append {A B : Type} (g : A -> list (option B)) (l : list A) :
  forall cs,
    fold_left (fun cs a => append anObject cs (g a)) l cs
    = cs ++ flat_map (fun a => defined (g a)) l.
Proof.
  induction l as [|a l IH]; intros cs; cbn.
  - now rewrite app_nil_r.
  - rewrite IH, append_flat, <- app_assoc. reflexivity.
Qed.

Lemma flat_map_agree {A B : Type} (f g : A -> list B) (l : list A) :
  (forall a, In a l -> f a = g a) -> flat_map f l = flat_map g l.
Proof.
  induction l as [|a l IH]; intros H; cbn; [reflexivity|].
  rewrite (H a (or_introl eq_refl)), IH; auto.
  intros b Hb. apply H. now right.
Qed.

Lemma assemble_filled (tTC tE : nat -> LinExpr AuxData)
      (tET : string -> nat -> LinExpr AuxData)
      (tD : nat -> nat -> LinExpr AuxData) (st : Tables) :
  Filled input tTC tE tET tD st ->
  assemble input st
  = timeCountedRow input tTC
    ++ defined (enoughRow input tE)
    ++ flat_map (fun type => defined (enoughOfTypeRow input type (tET type)))
                (types input)
    ++ flat_map defined (disjointRows input tD).
Proof.
  intros (F1 & F2 & F3 & F4 & F5). unfold assemble.
  rewrite (fold_left_append (fun a => a)).
  rewrite (fold_left_append
             (fun type => match lookup (haveEnoughRidersOfType st) type with
                          | Some arr => arr
                          | None => []
                          end)).
  rewrite append_flat, F1, F2, F4, <- !app_assoc.
  do 2 f_equal. f_equal.
  apply flat_map_agree. intros type Hin. now rewrite (F3 type Hin).
Qed.

(** The program in closed form. *)
Lemma makeLP_closed_form :
  makeLP input
  = Ok (mkProgram
          (candidateTerms 0 (enumAll input)
           ++ timeTerms input (List.length (enumAll input))
                        (Qnat (List.length (enumAll input))) R)
          (modelConstraints input (enumAll input))
          (guaranteed input) (expected input)).
Proof.
  unfold makeLP. rewrite valid; cbn [bind].
  destruct riders_build as (st1 & -> & H1); cbn [bind].
  destruct (times_build st1 R (le_n _) H1) as (st2 & -> & HA & HF);
    cbn [bind].
  destruct HA as (_ & _ & Hobj & _). rewrite Hobj.
  rewrite (assemble_filled _ _ _ _ _ HF). unfold modelConstraints.
  do 3 f_equal. unfold timeCountedRow. apply mapi_agree. intros g r Hg.
  assert (Hlt : (r <? R) = true).
  { apply Nat.ltb_lt. unfold numRiders. apply nth_error_Some. congruence. }
  now rewrite Hlt.
Qed.

End FillFacts.



(** ** What the constraints say *)

Lemma evaluate_selTerms (value : string -> Q) (sel : AuxData -> option Q)
      (L : list AuxData) :
  forall n, (evaluate value (selTerms sel n L) == weighted value sel L)%Q.
Proof.
  induction L as [|aux L IH]; intros n; cbn [selTerms weighted].
  - rewrite evaluate_nil. reflexivity.
  - rewrite evaluate_app, IH. destruct (sel aux).
    + rewrite evaluate_cons, evaluate_nil. cbn [fst snd].
      change (name (candidateVar n aux)) with (candName aux). ring.
    + rewrite evaluate_nil. reflexivity.
Qed.

Lemma Forall_mapi {A B : Type} (P : B -> Prop) (F : A -> nat -> B) (l : list A) :
  Forall P (mapi F l) <->
  forall i x, nth_error l i = Some x -> P (F x i).
Proof.
  rewrite Forall_forall. split.
  - intros H i x Hx. apply H. apply (nth_error_In _ i).
    now rewrite nth_error_mapi, Hx.
  - intros H y Hy. apply In_nth_error in Hy as (i & Hi).
    rewrite nth_error_mapi in Hi.
    destruct (nth_error l i) as [x|] eqn:Hx; inv Hi. now apply H.
Qed.

Lemma Forall_defined {A : Type} (P : A -> Prop) (l : list (option A)) :
  Forall P (defined l) <-> forall x, In (Some x) l -> P x.
Proof.
  unfold defined. rewrite Forall_forall. split.
  - intros H x Hx. apply H. apply in_flat_map. exists (Some x). cbn. auto.
  - intros H x Hx. apply in_flat_map in Hx as ([y|] & Hy & Hin); cbn in Hin;
      [|contradiction]. destruct Hin as [->|[]]. now apply H.
Qed.

Lemma Forall_defined_optRow {X : Type} (P : CConstraint -> Prop)
      (present : X -> nat -> bool) (nm : X -> nat -> string)
      (lo hi : X -> nat -> option Q) (tau : nat -> LinExpr AuxData)
      (l : list X) :
  Forall P (defined (optRow present nm lo hi tau l)) <->
  forall i x, nth_error l i = Some x -> present x i = true ->
              P (mkConstraint (nm x i) (lo x i) (hi x i) (tau i)).
Proof.
  rewrite Forall_defined. unfold optRow. split.
  - intros H i x Hx Hp. apply H. apply (nth_error_In _ i).
    now rewrite nth_error_mapi, Hx; cbn; rewrite Hp.
  - intros H c Hc. apply In_nth_error in Hc as (i & Hi).
    rewrite nth_error_mapi in Hi.
    destruct (nth_error l i) as [x|] eqn:Hx; cbn in Hi; [|discriminate].
    destruct (present x i) eqn:Hp; inv Hi. now apply H.
Qed.

(** The constraints of the closed form, family by family. *)
Lemma modelConstraints_meaning (input : Input) (value : string -> Q) :
  Forall (holds value) (modelConstraints input (enumAll input))
  <-> meetsModel input (enumAll input) value.
Proof.
  unfold modelConstraints, meetsModel.
  rewrite !Forall_app, !Forall_flat_map.
  unfold timeCountedRow, enoughRow, disjointRows.
  rewrite Forall_mapi, Forall_defined_optRow.
  assert (Hlow : forall nm lo (t : LinExpr AuxData),
             holds value (mkConstraint nm (Some lo) None t)
             <-> (lo <= evaluate value t)%Q).
  { intros. unfold holds; cbn. tauto. }
  assert (Hup : forall nm hi (t : LinExpr AuxData),
             holds value (mkConstraint nm None (Some hi) t)
             <-> (evaluate value t <= hi)%Q).
  { intros. unfold holds; cbn. tauto. }
  split.
  - intros (H1 & H2 & H3 & H4). repeat split.
    + intros r Hr.
      destruct (nth_error (guaranteed input) r) as [g|] eqn:Hg;
        [|apply nth_error_None in Hg; unfold numRiders in Hr; lia].
      specialize (H1 r g Hg). apply Hlow in H1.
      rewrite evaluate_app, evaluate_selTerms, evaluate_cons, evaluate_nil in H1.
      cbn [fst snd] in H1.
      change (name (timeVarOf input (List.length (enumAll input) + r) r))
        with (timeName r) in H1.
      assert (E : (1 * value (timeName r) + 0 == value (timeName r))%Q) by ring.
      now rewrite E in H1.
    + intros t count Ht Hcount. specialize (H2 t count Ht Hcount).
      apply Hlow in H2. now rewrite evaluate_selTerms in H2.
    + intros type t count Hin Ht Hcount. rewrite Forall_forall in H3.
      specialize (H3 type Hin). unfold enoughOfTypeRow in H3.
      rewrite Forall_defined_optRow in H3.
      specialize (H3 t count Ht Hcount). apply Hlow in H3.
      now rewrite evaluate_selTerms in H3.
    + intros r t Hr Ht Hav. rewrite Forall_forall in H4.
      destruct (nth_error (guaranteed input) r) as [g|] eqn:Hg;
        [|apply nth_error_None in Hg; unfold numRiders in Hr; lia].
      destruct (nth_error (expected input) t) as [x|] eqn:Hx;
        [|apply nth_error_None in Hx; unfold numTimeSlices in Ht; lia].
      assert (Hrow : In (disjointRow input r
                           (fun t => selTerms (selDisjoint r t) 0 (enumAll input)))
                        (mapi (fun _ r => disjointRow input r
                                 (fun t => selTerms (selDisjoint r t) 0
                                                    (enumAll input)))
                              (guaranteed input))).
      { apply (nth_error_In _ r). now rewrite nth_error_mapi, Hg. }
      specialize (H4 _ Hrow). unfold disjointRow in H4.
      rewrite Forall_defined_optRow in H4.
      specialize (H4 t x Hx Hav). apply Hup in H4.
      now rewrite evaluate_selTerms in H4.
  - intros (H1 & H2 & H3 & H4). split; [|split; [|split]].
    + intros r g Hg. apply Hlow.
      rewrite evaluate_app, evaluate_selTerms, evaluate_cons, evaluate_nil.
      cbn [fst snd].
      change (name (timeVarOf input (List.length (enumAll input) + r) r))
        with (timeName r).
      assert (E : (1 * value (timeName r) + 0 == value (timeName r))%Q) by ring.
      rewrite E. apply H1. unfold numRiders. apply nth_error_Some. congruence.
    + intros t count Ht Hcount. apply Hlow. rewrite evaluate_selTerms. auto.
    + apply Forall_forall. intros type Hin. unfold enoughOfTypeRow.
      apply Forall_defined_optRow. intros t count Ht Hcount.
      apply Hlow. rewrite evaluate_selTerms. auto.
    + apply Forall_forall. intros row Hrow.
      apply In_nth_error in Hrow as (r & Hr). rewrite nth_error_mapi in Hr.
      destruct (nth_error (guaranteed input) r) as [g|] eqn:Hg; inv Hr.
      unfold disjointRow. apply Forall_defined_optRow. intros t x Hx Hav.
      apply Hup. rewrite evaluate_selTerms. apply H4; auto.
      * unfold numRiders. apply nth_error_Some. congruence.
      * unfold numTimeSlices. apply nth_error_Some. congruence.
Qed.




(** ** What a decoded grid guarantees *)

(** X14.  The minimum duration holds in every grid [solve] returns,
    whatever values the engine gave: a slot assigned to a rider lies in
    a range of slots, all assigned to the rider and all within the
    availability of the rider, whose durations, added one by one from
    the first slot of the range in the doubles of the runtime, reach
    [minDuration]. *)
Theorem solve_respects_minDuration (input : Input) :
  validate input = Ok tt ->
  exists p,
    makeLP input = Ok p
    /\ forall engine_solve g r t,
         solve engine_solve p = Ok (Some g) ->
         cell g r t = Some true ->
         exists a b,
           a <= t <= b /\ b < numTimeSlices input
           /\ (forall t', a <= t' <= b ->
                 cell g r t' = Some true /\ availableAt input t' r = true)
           /\ (minDuration input <= totalDuration input a b)%Q.
Proof.
  intros valid.
  destruct (makeLP_program input valid) as (p & _ & Hp & _).
  exists p. split; [assumption|]. intros engine_solve g r t Hs Hc.
  destruct (solve_outcome engine_solve input valid)
    as (p' & e & Hp' & Hcand & _ & H).
  rewrite Hp in Hp'. inv Hp'.
  destruct (engine_solve _ _) as [value|]; [|rewrite H in Hs; discriminate].
  destruct H as (g' & Hs' & Hrect & Hcell). rewrite Hs in Hs'. inv Hs'.
  destruct (cell_in_rect _ _ _ _ _ _ Hrect Hc) as (Hr & Ht).
  pose proof (proj1 (proj2 (Hcell r t Hr Ht)) Hc)
    as (v & aux & Hin & Ha & <- & Hrange & Hval).
  assert (Hf : feasible input aux).
  { apply enumAll_In. rewrite <- Hcand. apply candidatesOf_In; eauto. }
  destruct Hf as (_ & Hb & Hav & Hdur).
  exists (t1 aux), (t2 aux). repeat split; try lia; auto.
  apply (Hcell (rider aux) t' Hr); [lia|].
  exists v, aux. repeat split; auto; lia.
Qed.

Lemma solve_respects_minDuration_witness :
  exists p,
    makeLP threeThirds = Ok p
    /\ forall engine_solve g r t,
         solve engine_solve p = Ok (Some g) ->
         cell g r t = Some true ->
         exists a b,
           a <= t <= b /\ b < numTimeSlices threeThirds
           /\ (forall t', a <= t' <= b ->
                 cell g r t' = Some true /\ availableAt threeThirds t' r = true)
           /\ (minDuration threeThirds <= totalDuration threeThirds a b)%Q.
Proof. apply (solve_respects_minDuration threeThirds). reflexivity. Defined.

(** Sums over indices. *)

Lemma sumOver_le (f g : nat -> Q) (l : list nat) :
  (forall r, In r l -> (f r <= g r)%Q) -> (sumOver f l <= sumOver g l)%Q.
Proof.
  induction l as [|r l IH]; intros H; cbn [sumOver]; [apply Qle_refl|].
  apply Qplus_le_compat; [apply H; now left|]. apply IH.
  intros r' Hr'. apply H. now right.
Qed.

Lemma sumOver_plus (f g : nat -> Q) (l : list nat) :
  (sumOver (fun r => f r + g r) l == sumOver f l + sumOver g l)%Q.
Proof.
  induction l as [|r l IH]; cbn [sumOver]; [ring|]. rewrite IH. ring.
Qed.

Lemma sumOver_one (rho : nat) (x : Q) (n : nat) :
  forall s,
    (sumOver (fun r => if rho =? r then x else 0) (seq s n)
     == if (s <=? rho) && (rho <? s + n) then x else 0)%Q.
Proof.
  induction n as [|n IH]; intros s; cbn [seq sumOver].
  - destruct (Nat.leb_spec s rho), (Nat.ltb_spec rho (s + 0)); cbn;
      try reflexivity; lia.
  - rewrite IH.
    destruct (Nat.eqb_spec rho s), (Nat.leb_spec (S s) rho),
      (Nat.ltb_spec rho (S s + n)), (Nat.leb_spec s rho),
      (Nat.ltb_spec rho (s + S n)); cbn; try ring; lia.
Qed.

Lemma sumOver_shift (f : nat -> Q) (l : list nat) :
  sumOver f (map S l) = sumOver (fun r => f (S r)) l.
Proof. induction l as [|r l IH]; cbn; [reflexivity|now rewrite IH]. Qed.

Lemma weighted_zero (value : string -> Q) (sel : AuxData -> option Q)
      (L : list AuxData) :
  (forall aux, In aux L -> sel aux <> None -> (value (candName aux) == 0)%Q) ->
  (weighted value sel L == 0)%Q.
Proof.
  induction L as [|aux L IH]; intros H; cbn [weighted]; [reflexivity|].
  rewrite IH by (intros a Ha; apply H; now right).
  destruct (sel aux) as [c|] eqn:E; [|ring].
  rewrite (H aux (or_introl eq_refl)); [ring|]. congruence.
Qed.

(** The assigned ranges that hold a slot, rider by rider. *)
Lemma weighted_by_rider (value : string -> Q) (t : nat) (rows : nat)
      (P : nat -> bool) (sel : AuxData -> option Q) (L : list AuxData) :
  (forall aux, sel aux = if P (rider aux) && inRange aux t
                         then Some 1%Q else None) ->
  (forall aux, In aux L -> rider aux < rows) ->
  (weighted value sel L
   == sumOver (fun r => if P r then weighted value (selDisjoint r t) L else 0)
              (seq 0 rows))%Q.
Proof.
  intros Hsel. induction L as [|aux L IH]; intros H.
  - cbn [weighted]. induction (seq 0 rows) as [|r l IHl]; cbn [sumOver];
      [reflexivity|]. rewrite <- IHl. destruct (P r); ring.
  - cbn [weighted]. rewrite IH by (intros a Ha; apply H; now right).
    set (x := match sel aux with
              | Some c => (c * value (candName aux))%Q
              | None => 0%Q
              end).
    assert (E : forall l,
               (sumOver (fun r => if P r
                                  then match selDisjoint r t aux with
                                       | Some c => c * value (candName aux)
                                       | None => 0
                                       end + weighted value (selDisjoint r t) L
                                  else 0) l
                == sumOver (fun r => if rider aux =? r then x else 0) l
                   + sumOver (fun r => if P r
                                       then weighted value (selDisjoint r t) L
                                       else 0) l)%Q).
    { induction l as [|r l IHl]; cbn [sumOver]; [ring|]. rewrite IHl.
      unfold x, selDisjoint. rewrite Hsel.
      destruct (Nat.eqb_spec (rider aux) r) as [->|Hne]; cbn [andb];
        destruct (P r), (inRange aux t); cbn [andb]; ring. }
    rewrite E, sumOver_one. cbn [Nat.leb andb Nat.add].
    assert (Hlt : (rider aux <? rows) = true).
    { apply Nat.ltb_lt. apply H. now left. }
    rewrite Hlt. reflexivity.
Qed.

Lemma assigned_count (P : nat -> bool) (g : Grid) (t : nat) :
  (sumOver (fun r => if P r && cellTrue g r t then 1 else 0)
           (seq 0 (List.length g))
   == Qnat (assignedWhere P g t))%Q.
Proof.
  unfold assignedWhere. induction (seq 0 (List.length g)) as [|r l IH];
    cbn [sumOver filter]; [reflexivity|].
  rewrite IH. destruct (P r && cellTrue g r t); cbn [List.length]; [|ring].
  rewrite Qnat_S. reflexivity.
Qed.

(** A Boolean variable in its domain is 0 or 1. *)
Lemma bool_value {T : Type} (value : string -> Q) (v : Var T) :
  isBool v = true -> inDomain value v ->
  (value (name v) == 0)%Q \/ (value (name v) == 1)%Q.
Proof.
  unfold isBool, isReal, is_number, inDomain.
  destruct (type v); [discriminate|]. cbn [negb andb].
  destruct (lowerBound v) as [lo|]; [|discriminate].
  destruct (upperBound v) as [hi|]; [|rewrite andb_false_r; discriminate].
  intros Hb (Hlo & Hhi & Hint). apply andb_prop in Hb as (Hl & Hh).
  apply Qeq_bool_iff in Hl, Hh. cbn in Hlo, Hhi.
  destruct (Hint eq_refl) as (z & Hz).
  rewrite Hl, Hz in Hlo. rewrite Hh, Hz in Hhi.
  change 0%Q with (inject_Z 0) in Hlo. change 1%Q with (inject_Z 1) in Hhi.
  rewrite <- Zle_Qle in Hlo, Hhi. rewrite Hz.
  assert (z = 0 \/ z = 1)%Z as [->| ->] by lia; [left|right]; reflexivity.
Qed.

(** The ranges of a rider that hold a slot, on values that meet the
    model: none when the grid leaves the slot unassigned, at most one
    otherwise. *)
Lemma rider_share (input : Input) (p : Program) (value : string -> Q)
      (g : Grid) (r t : nat) :
  candidatesOf (p_objective p) = enumAll input ->
  (forall v aux, In v (vars (p_objective p)) -> auxData v = Some aux ->
     isBool v = true /\ name v = candName aux) ->
  Forall (inDomain value) (vars (p_objective p)) ->
  meetsModel input (enumAll input) value ->
  r < numRiders input -> t < numTimeSlices input ->
  (cell g r t = Some true <->
   exists v aux,
     In v (vars (p_objective p)) /\ auxData v = Some aux
     /\ rider aux = r /\ t1 aux <= t <= t2 aux
     /\ (1 # 2 < value (name v))%Q) ->
  (weighted value (selDisjoint r t) (enumAll input)
   <= if cellTrue g r t then 1 else 0)%Q.
Proof.
  intros Hcand Hvar Hdom (_ & _ & _ & Hdis) Hr Ht Hcell.
  unfold cellTrue. destruct (cell g r t) as [[|]|] eqn:Hc.
  - destruct (proj1 Hcell eq_refl) as (v & aux & Hin & Ha & <- & Hrange & _).
    apply Hdis; auto.
    assert (Hf : feasible input aux).
    { apply enumAll_In. rewrite <- Hcand. apply candidatesOf_In; eauto. }
    now apply Hf.
  - apply Qle_lteq; right. apply weighted_zero. intros aux Hin Hsel.
    unfold selDisjoint, inRange in Hsel.
    destruct (Nat.eqb_spec (rider aux) r) as [<-|]; [|cbn in Hsel; congruence].
    destruct (Nat.leb_spec (t1 aux) t); [|cbn in Hsel; congruence].
    destruct (Nat.leb_spec t (t2 aux)); [|cbn in Hsel; congruence].
    rewrite <- Hcand in Hin. apply candidatesOf_In in Hin as (v & Hv & Ha).
    destruct (Hvar v aux Hv Ha) as (Hb & Hn). rewrite <- Hn.
    rewrite Forall_forall in Hdom.
    destruct (bool_value value v Hb (Hdom v Hv)) as [E|E]; [assumption|].
    assert (Htrue : Some false = Some true); [|discriminate].
    apply Hcell. exists v, aux. repeat split; auto. now rewrite E.
  - apply Qle_lteq; right. apply weighted_zero. intros aux Hin Hsel.
    unfold selDisjoint, inRange in Hsel.
    destruct (Nat.eqb_spec (rider aux) r) as [<-|]; [|cbn in Hsel; congruence].
    destruct (Nat.leb_spec (t1 aux) t); [|cbn in Hsel; congruence].
    destruct (Nat.leb_spec t (t2 aux)); [|cbn in Hsel; congruence].
    rewrite <- Hcand in Hin. apply candidatesOf_In in Hin as (v & Hv & Ha).
    destruct (Hvar v aux Hv Ha) as (Hb & Hn). rewrite <- Hn.
    rewrite Forall_forall in Hdom.
    destruct (bool_value value v Hb (Hdom v Hv)) as [E|E]; [assumption|].
    assert (Htrue : @None bool = Some true); [|discriminate].
    apply Hcell. exists v, aux. repeat split; auto. now rewrite E.
Qed.

(** The demand of a slot against the riders assigned to it. *)
Lemma demand_met (input : Input) (p : Program) (value : string -> Q)
      (g : Grid) (t : nat) (count : Q) (P : nat -> bool)
      (sel : AuxData -> option Q) :
  candidatesOf (p_objective p) = enumAll input ->
  (forall v aux, In v (vars (p_objective p)) -> auxData v = Some aux ->
     isBool v = true /\ name v = candName aux) ->
  Forall (inDomain value) (vars (p_objective p)) ->
  meetsModel input (enumAll input) value ->
  t < numTimeSlices input ->
  List.length g = numRiders input ->
  (forall r, r < numRiders input ->
     cell g r t = Some true <->
     exists v aux,
       In v (vars (p_objective p)) /\ auxData v = Some aux
       /\ rider aux = r /\ t1 aux <= t <= t2 aux
       /\ (1 # 2 < value (name v))%Q) ->
  (forall aux, sel aux = if P (rider aux) && inRange aux t
                         then Some 1%Q else None) ->
  (truthy count = true -> (count <= weighted value sel (enumAll input))%Q) ->
  (count <= Qnat (assignedWhere P g t))%Q.
Proof.
  intros Hcand Hvar Hdom Hm Ht Hlen Hcell Hsel Hen.
  destruct (truthy count) eqn:Hc.
  - eapply Qle_trans; [apply Hen; reflexivity|].
    rewrite (weighted_by_rider value t (numRiders input) P sel) by
      (auto; intros aux Ha; apply enumAll_In in Ha; apply Ha).
    rewrite <- assigned_count, Hlen. apply sumOver_le. intros r Hr.
    apply in_seq in Hr. destruct (P r); cbn [andb]; [|apply Qle_refl].
    apply (rider_share input p value g r t); auto. lia. apply Hcell. lia.
  - unfold truthy in Hc. apply negb_false_iff, Qeq_bool_iff in Hc.
    rewrite Hc. unfold Qnat. change 0%Q with (inject_Z 0).
    rewrite <- Zle_Qle. lia.
Qed.

(** X15.  When the engine returns values that meet the constraints and
    the variable domains of the program of a valid input, [solve]
    returns a grid that covers the demand: at every slot the number of
    assigned riders is at least [expected[t]], and for every type of
    [expectedOfType] the number of assigned riders of the type is at
    least [expectedOfType[type][t]]. *)
Theorem solve_meets_demand (input : Input) :
  validate input = Ok tt ->
  exists p newObjective,
    makeLP input = Ok p
    /\ saturate (p_objective p) (p_constraints p) = Ok newObjective
    /\ forall engine_solve value,
         engine_solve (engineVars newObjective)
                      (engineConstraints (p_constraints p)) = Some value ->
         achievable value p ->
         exists g,
           solve engine_solve p = Ok (Some g)
           /\ (forall t count,
                 nth_error (expected input) t = Some count ->
                 (count <= Qnat (assignedWhere (fun _ => true) g t))%Q)
           /\ (forall type t count,
                 In type (types input) ->
                 nth_error (countsOf input type) t = Some count ->
                 (count <= Qnat (assignedWhere
                                   (fun r => String.eqb (riderTypeAt input r) type)
                                   g t))%Q).
Proof.
  intros valid.
  destruct (makeLP_program input valid)
    as (p & e & Hp & _ & _ & Hcand & Hvar & Hsat & _).
  exists p, e. split; [assumption|]. split; [assumption|].
  intros engine_solve value Heng (Hcs & Hdom).
  destruct (solve_outcome engine_solve input valid)
    as (p' & e' & Hp' & _ & Hsat' & H).
  rewrite Hp in Hp'. injection Hp' as <-.
  rewrite Hsat in Hsat'. injection Hsat' as <-.
  rewrite Heng in H. destruct H as (g & Hs & (Hlen & _) & Hcell).
  assert (Hm : meetsModel input (enumAll input) value).
  { apply modelConstraints_meaning. clear - Hp Hcs valid.
    rewrite (makeLP_closed_form input valid) in Hp. injection Hp as <-.
    exact Hcs. }
  exists g. split; [assumption|]. split.
  - intros t count Ht.
    assert (Hlt : t < numTimeSlices input).
    { unfold numTimeSlices. apply nth_error_Some. congruence. }
    apply (demand_met input p value g t count (fun _ => true) (selEnough t));
      auto.
    + intros r Hr. apply Hcell; auto.
    + intros Hc. destruct Hm as (_ & Hen & _). eauto.
  - intros type t count Hin Ht.
    assert (Hlt : t < numTimeSlices input).
    { destruct (validate_Ok input valid) as (_ & Hty & _).
      unfold countsOf in Ht.
      destruct (lookup (expectedOfType input) type) as [counts|] eqn:Hl.
      - rewrite <- (Hty type counts Hl). apply nth_error_Some. congruence.
      - now destruct t. }
    apply (demand_met input p value g t count
             (fun r => String.eqb (riderTypeAt input r) type)
             (selEnoughOfType input type t)); auto.
    + intros r Hr. apply Hcell; auto.
    + intros Hc. destruct Hm as (_ & _ & Het & _). eauto.
Qed.

Lemma solve_meets_demand_witness :
  exists p g,
    makeLP oneSlot = Ok p
    /\ achievable allOnes p
    /\ solve (fun _ _ => Some allOnes) p = Ok (Some g)
    /\ (forall t count,
          nth_error (expected oneSlot) t = Some count ->
          (count <= Qnat (assignedWhere (fun _ => true) g t))%Q)
    /\ (forall type t count,
          In type (types oneSlot) ->
          nth_error (countsOf oneSlot type) t = Some count ->
          (count <= Qnat (assignedWhere
                            (fun r => String.eqb (riderTypeAt oneSlot r) type)
                            g t))%Q).
Proof.
  destruct (solve_meets_demand oneSlot eq_refl) as (p & e & Hp & _ & H).
  assert (Ha : achievable allOnes p).
  { injection Hp as <-.
    split; repeat constructor; cbn; try discriminate;
      try (exists 0%Z; reflexivity); try (exists 1%Z; reflexivity). }
  destruct (H (fun _ _ => Some allOnes) allOnes eq_refl Ha) as (g & Hs & Hd).
  exists p, g. split; [exact Hp|]. split; [exact Ha|]. split; [exact Hs|].
  exact Hd.
Defined.

(** ** The text of the model *)

Lemma filter_bounded {T : Type} (l : list (Var T)) :
  filter (fun v => isSome (lowerBound v) || isSome (upperBound v))
         (filter (fun v => negb (isBool v)) l)
  = filter bounded l.
Proof.
  induction l as [|v l IH]; cbn; [reflexivity|].
  unfold bounded at 1. destruct (isBool v); cbn; [exact IH|].
  destruct (isSome (lowerBound v) || isSome (upperBound v)); cbn;
    now rewrite IH.
Qed.

(** The variables of the objective are the Boolean candidates and the
    continuous time variables, each of the latter bounded from below by
    the guaranteed time of its rider. *)
Lemma objective_kinds (input : Input) (L : list AuxData) (ref : nat) (K : Q)
      (k : nat) (v : Var AuxData) :
  In v (vars (candidateTerms 0 L ++ timeTerms input ref K k)) ->
  (auxData v <> None /\ isBool v = true /\ isInt v = false
   /\ bounded v = false)
  \/ (auxData v = None /\ isBool v = false /\ isInt v = false
      /\ bounded v = true
      /\ exists r, r < k /\ name v = timeName r
                   /\ lowerBound v = Some (nth r (guaranteed input) 0%Q)
                   /\ upperBound v = None).
Proof.
  intros H. apply in_map_iff in H as (x & <- & H).
  apply in_app_iff in H as [H|H].
  - apply candidateTerms_In in H as (i & aux & _ & ->). left.
    cbn. repeat split; congruence.
  - unfold timeTerms in H. apply in_map_iff in H as (r & <- & Hr).
    apply in_seq in Hr. right. cbn. repeat split; auto.
    exists r. repeat split; auto. lia.
Qed.

(** X16.  The text [export] gives for a valid input: the objective, one
    bound line [c[time[r]]: guaranteed[r] <= time[r];] for each time
    variable and for no other variable, the constraints of the model,
    an empty line, and one [bin] declaration that lists every candidate
    once; there is no [int] declaration. *)
Theorem export_text (show : Q -> string) (input : Input) :
  validate input = Ok tt ->
  exists p text bounds bins,
    makeLP input = Ok p
    /\ export show p = Ok text
    /\ text = "minimize: " +++ toString show (p_objective p) +++ ";" +++ newline
              +++ String.concat ""
                    (map (fun c => toLP show c +++ ";" +++ newline)
                         (map boundOf bounds ++ p_constraints p))
              +++ newline
              +++ declaration "bin" bins
    /\ NoDup bins
    /\ (forall v, In v bins <->
                  In v (vars (p_objective p)) /\ auxData v <> None)
    /\ NoDup bounds
    /\ (forall v, In v bounds <->
                  In v (vars (p_objective p)) /\ auxData v = None)
    /\ (forall v, In v bounds ->
          exists r, r < numRiders input /\ name v = timeName r
                    /\ lowerBound v = Some (nth r (guaranteed input) 0%Q)
                    /\ upperBound v = None).
Proof.
  intros valid.
  destruct (makeLP_program input valid)
    as (p & e & Hp & _ & _ & _ & _ & Hsat & Hnd & Hvars).
  destruct (makeLP_returns input valid) as (p' & Hp' & Hobj & _).
  rewrite Hp in Hp'. injection Hp' as <-.
  assert (Hkind := objective_kinds input (enumAll input)
                     (List.length (enumAll input))
                     (Qnat (List.length (enumAll input))) (numRiders input)).
  rewrite <- Hobj in Hkind.
  assert (Hndv : NoDup (vars e)).
  { rewrite names_vars in Hnd. exact (NoDup_map_inv _ _ Hnd). }
  assert (Hint : filter isInt (vars e) = []).
  { assert (H : forall v, In v (vars e) -> isInt v = false).
    { intros v Hv. apply Hvars in Hv.
      destruct (Hkind v Hv) as [H|H]; apply H. }
    clear - H. induction (vars e) as [|v l IH]; [reflexivity|].
    cbn [filter]. rewrite (H v (or_introl eq_refl)). apply IH.
    intros w Hw. apply H. now right. }
  exists p. eexists. exists (filter bounded (vars e)), (filter isBool (vars e)).
  split; [assumption|]. split.
  { unfold export, exportAsLP. rewrite Hsat; cbn [bind].
    unfold getVarCoefficients. fold (vars e).
    rewrite bounds_loop; cbn [bind app].
    2:{ intros v Hv. apply filter_In in Hv as (Hv & _).
        apply filter_In in Hv as (Hv & _).
        apply (saturate_proper _ _ _ Hsat). rewrite names_vars.
        now apply in_map. }
    rewrite filter_bounded, footer_declarations, Hint.
    cbn [declaration]. rewrite append_nil_r. reflexivity. }
  split; [reflexivity|].
  split; [now apply NoDup_filter|]. split.
  { intros v. rewrite filter_In, Hvars. split.
    - intros (Hin & Hb). split; [assumption|].
      destruct (Hkind v Hin) as [H|H]; [apply H|].
      destruct H as (_ & Hf & _). congruence.
    - intros (Hin & Ha). split; [assumption|].
      destruct (Hkind v Hin) as [H|H]; [apply H|].
      destruct H as (Hn & _). contradiction. }
  split; [now apply NoDup_filter|]. split.
  { intros v. rewrite filter_In, Hvars. split.
    - intros (Hin & Hb). split; [assumption|].
      destruct (Hkind v Hin) as [H|H]; [|apply H].
      destruct H as (_ & _ & _ & Hf). congruence.
    - intros (Hin & Ha). split; [assumption|].
      destruct (Hkind v Hin) as [H|H]; [|apply H].
      destruct H as (Hn & _). contradiction. }
  intros v Hv. apply filter_In in Hv as (Hin & Hb). apply Hvars in Hin.
  destruct (Hkind v Hin) as [H|H].
  - destruct H as (_ & _ & _ & Hf). congruence.
  - apply H.
Qed.

Lemma export_text_witness :
  exists p text bounds bins,
    makeLP oneSlot = Ok p
    /\ export show_int p = Ok text
    /\ text = "minimize: " +++ toString show_int (p_objective p) +++ ";" +++ newline
              +++ String.concat ""
                    (map (fun c => toLP show_int c +++ ";" +++ newline)
                         (map boundOf bounds ++ p_constraints p))
              +++ newline
              +++ declaration "bin" bins
    /\ NoDup bins
    /\ (forall v, In v bins <->
                  In v (vars (p_objective p)) /\ auxData v <> None)
    /\ NoDup bounds
    /\ (forall v, In v bounds <->
                  In v (vars (p_objective p)) /\ auxData v = None)
    /\ (forall v, In v bounds ->
          exists r, r < numRiders oneSlot /\ name v = timeName r
                    /\ lowerBound v = Some (nth r (guaranteed oneSlot) 0%Q)
                    /\ upperBound v = None).
Proof. apply (export_text show_int oneSlot). reflexivity. Defined.
